(** * xiuminglib: EXR channel extraction, video assembly and light helpers

    A shallow embedding of
      - [xiuminglib/io/exr.py]  ([EXR.extract_depth], [EXR.extract_normal],
        [EXR.extract_intrinsic_images_from_lighting_passes] and its inner
        [collapse_passes]),
      - [xiuminglib/vid.py]     ([images2video]),
      - [xiuminglib/blender/light.py] ([add_light_sun], [add_light_area],
        [add_light_point], [add_light_env]),
    together with the properties stated about them.

    Numbers.  The rasters hold floating-point samples.  They are modelled by
    exact rationals ([Qc], rationals in lowest terms, so that equality is
    Leibniz equality): rounding is abstracted away.  Floating-point division
    never raises in NumPy; a division by zero yields NaN or an infinity.  A
    value that may be non-finite is an [option Qc], where [None] stands for
    "NaN or infinite" and is absorbing under the arithmetic that follows.

    Arrays.  A 2-D array is a list of rows, a 3-D (height, width, channel)
    array is a list of rows of pixels, each pixel being the list of its
    channel values.  Operations that NumPy rejects for mismatched shapes
    raise [ValueError] here as well, and axes of length one are broadcast.

    Effects.  Python exceptions are the [Raise] outcome of [result]; the files
    a function writes are collected, in order, in an event log ([io]). *)

From Stdlib Require Import QArith Qcanon Qround ZArith Lia.
From stdpp Require Import base numbers list strings gmap.

Local Open Scope Qc_scope.

(** ** Exceptions and outcomes *)

Inductive exn :=
  | AssertionError (msg : string)
  | KeyError (key : string)
  | IndexError
  | ValueError
  | TypeError
  | NotImplementedError (arg : string).

Inductive result (A : Type) :=
  | Ok (a : A)
  | Raise (e : exn).
Arguments Ok {A} a.
Arguments Raise {A} e.

Global Instance result_ret : MRet result := λ A a, Ok a.
Global Instance result_bind : MBind result := λ A B f m,
  match m with
  | Ok a => f a
  | Raise e => Raise e
  end.

Definition is_ok {A} (m : result A) : bool :=
  match m with Ok _ => true | Raise _ => false end.

(** [assert cond, msg] *)
Definition py_assert (cond : bool) (msg : string) : result unit :=
  if cond then Ok tt else Raise (AssertionError msg).

(** [d[key]] on a dictionary: a missing key raises [KeyError]. *)
Definition dict_get {V} (d : gmap string V) (key : string) : result V :=
  match d !! key with
  | Some v => Ok v
  | None => Raise (KeyError key)
  end.

(** ** Monadic traversals of lists *)

Fixpoint mapR {A B} (f : A → result B) (xs : list A) : result (list B) :=
  match xs with
  | [] => Ok []
  | x :: xs' =>
      (y ← f x ; ys ← mapR f xs' ; Ok (y :: ys))
  end.

(** Elementwise combination of two lists of the same length;
    a length mismatch is NumPy's "shapes do not match" [ValueError]. *)
Fixpoint zipR {A B C} (f : A → B → result C) (xs : list A) (ys : list B)
  : result (list C) :=
  match xs, ys with
  | [], [] => Ok []
  | x :: xs', y :: ys' =>
      (z ← f x y ; zs ← zipR f xs' ys' ; Ok (z :: zs))
  | _, _ => Raise ValueError
  end.

(** One axis of NumPy broadcasting: equal lengths are paired up, an axis of
    length one is stretched over the other operand, anything else is a
    [ValueError]. *)
Definition bcast {A B C} (f : A → B → result C) (xs : list A) (ys : list B)
  : result (list C) :=
  if decide (length xs = length ys) then zipR f xs ys
  else match xs, ys with
       | [x], _ => mapR (f x) ys
       | _, [y] => mapR (λ x, f x y) xs
       | _, _ => Raise ValueError
       end.

(** Left fold with a failing step. *)
Fixpoint foldR {A B} (f : B → A → result B) (acc : B) (xs : list A) : result B :=
  match xs with
  | [] => Ok acc
  | x :: xs' => (acc' ← f acc x ; foldR f acc' xs')
  end.

(** ** Arrays *)

Abbreviation raster := (list (list Qc)).
Abbreviation array3 := (list (list (list Qc))).

(** What [np.sum], [cv2.imread] or a dictionary entry may hand to [np.dstack]:
    a 0-d scalar, a 2-D array or a 3-D array. *)
Inductive ndarray :=
  | A0 (x : Qc)
  | A2 (r : raster)
  | A3 (a : array3).

(** [length r = h] and every row has [w] entries. *)
Definition shape2 {A} (h w : nat) (r : list (list A)) : Prop :=
  length r = h ∧ Forall (λ row, length row = w) r.

(** A (height, width, channel) array: [h] rows of [w] pixels of [c] values. *)
Definition shape3 {A} (h w c : nat) (a : list (list (list A))) : Prop :=
  shape2 h w a ∧ Forall (Forall (λ px, length px = c)) a.

(** Pixel access: [r[i, j]], which for a 3-D array is the list of the
    channel values of the pixel, and [a[i, j, k]]. *)
Definition px2 {A} (r : list (list A)) (i j : nat) : option A :=
  r !! i ≫= (.!! j).

Definition px3 {A} (a : list (list (list A))) (i j k : nat) : option A :=
  px2 a i j ≫= (.!! k).

(** [a[:, :, k]]; an index beyond the channel axis raises [IndexError]. *)
Definition channel (k : nat) (a : array3) : result raster :=
  mapR (mapR (λ px : list Qc,
                match px !! k with
                | Some x => Ok x
                | None => Raise IndexError
                end)) a.

(** [np.atleast_3d] followed by concatenation along the channel axis. *)
Definition atleast_3d (a : ndarray) : array3 :=
  match a with
  | A0 x => [[[x]]]
  | A2 r => map (map (λ x, [x])) r
  | A3 a => a
  end.

Definition concat_channels (a b : array3) : result array3 :=
  zipR (zipR (λ p q : list Qc, Ok (p ++ q))) a b.

(** [np.dstack(arrs)]; an empty sequence is a [ValueError]. *)
Definition np_dstack (arrs : list ndarray) : result array3 :=
  match arrs with
  | [] => Raise ValueError
  | a :: rest =>
      foldR (λ acc b, concat_channels acc (atleast_3d b)) (atleast_3d a) rest
  end.

(** [(a == b).all()] on 2-D arrays. *)
Definition eq_all (a b : raster) : result bool :=
  (m ← bcast (bcast (λ x y : Qc, Ok (bool_decide (x = y)))) a b ;
   Ok (forallb (forallb id) m)).

(** [np.sum(arrs, axis=0)] on a Python list of 2-D arrays.  The list is first
    turned into one array, which needs equal shapes; an empty list sums to
    the scalar [0.0]. *)
Definition raster_add (a b : raster) : result raster :=
  zipR (zipR (λ x y : Qc, Ok (x + y))) a b.

Definition np_sum_axis0 (arrs : list raster) : result ndarray :=
  match arrs with
  | [] => Ok (A0 0)
  | a :: rest => (s ← foldR raster_add a rest ; Ok (A2 s))
  end.

(** ** Strings and paths *)

(** [s.endswith(suffix)] *)
Definition endswith (s suffix : string) : bool :=
  let n := String.length s in
  let k := String.length suffix in
  bool_decide (k ≤ n)%nat && String.eqb (String.substring (n - k) k s) suffix.

(** [s[:-k]] *)
Definition drop_last (k : nat) (s : string) : string :=
  String.substring 0 (String.length s - k) s.

(** [os.path.join(a, b)] for a relative [b]. *)
Definition path_join (a b : string) : string :=
  if bool_decide (a = EmptyString) then b
  else if endswith a "/" then a +:+ b
  else a +:+ "/" +:+ b.

(** [if not outpath.endswith('.npy'): outpath += '.npy'] *)
Definition npy_path (outpath : string) : string :=
  if endswith outpath ".npy" then outpath else outpath +:+ ".npy".

(** [outpath[:-4] + '.png'] *)
Definition png_path (outpath : string) : string :=
  drop_last 4 outpath +:+ ".png".

(** ** Files written: the event log *)

Inductive event :=
  | Makedirs (dir : string)
  | NpSave (path : string) (arr : array3)
  | ImWriteGray (path : string) (img : list (list (option Z)))
  | ImWriteColor (path : string) (img : list (list (list Z)))
  | MatrixAsImage (arr : array3) (outpath : string).

(** A run leaves the events issued so far and either a value or the
    exception that stopped it. *)
Definition io (A : Type) : Type := (list event * result A)%type.

Global Instance io_ret : MRet io := λ A a, ([], Ok a).
Global Instance io_bind : MBind io := λ A B f m,
  match m with
  | (log, Ok a) => let '(log', r) := f a in (log ++ log', r)
  | (log, Raise e) => (log, Raise e)
  end.

Definition lift {A} (r : result A) : io A := ([], r).
Definition emit (e : event) : io unit := ([e], Ok tt).
Definition when (b : bool) (m : io unit) : io unit :=
  if b then m else mret tt.

Definition events {A} (m : io A) : list event := m.1.
Definition outcome {A} (m : io A) : result A := m.2.

(** The arrays written with [np.save], with their paths, in order. *)
Definition saved (log : list event) : list (string * array3) :=
  omap (λ e, match e with NpSave p a => Some (p, a) | _ => None end) log.

(** What the file [path] holds after the run: the last array saved there. *)
Definition saved_at (path : string) (log : list event) : option array3 :=
  last (omap (λ pa : string * array3,
                if decide (pa.1 = path) then Some pa.2 else None) (saved log)).

(** ** [exr.py]: the lighting passes *)

Definition alpha_msg : string := "Alpha channels of all passes must be the same".

(** The inner [collapse_passes(components)] of
    [extract_intrinsic_images_from_lighting_passes], closed over [data]. *)
Definition collapse_passes (data : gmap string raster) (components : list string)
  : result array3 :=
  ch_arrays ← mapR (λ ch : string,
                 comp_arrs ← mapR (λ comp : string,
                                dict_get data ((comp +:+ ".") +:+ ch)) components;
                 np_sum_axis0 comp_arrs) ["R"; "G"; "B"];
  first ← match components !! 0%nat with
          | Some c => Ok c
          | None => Raise IndexError
          end;
  first_alpha ← dict_get data (first +:+ ".A");
  mapR (λ comp : string,
          other ← dict_get data (comp +:+ ".A");
          same ← eq_all first_alpha other;
          py_assert same alpha_msg) (drop 1 components);;
  np_dstack (ch_arrays ++ [A2 first_alpha]).

(** Elementwise arithmetic on 3-D arrays, with broadcasting. *)
Definition np_multiply (a b : array3) : result array3 :=
  bcast (bcast (bcast (λ x y : Qc, Ok (x * y)))) a b.

Definition np_add (a b : array3) : result array3 :=
  bcast (bcast (bcast (λ x y : Qc, Ok (x + y)))) a b.

(** Assignment broadcasts the right-hand side only. *)
Definition bcast_to {A B} (f : A → B → result A) (dst : list A) (src : list B)
  : result (list A) :=
  if decide (length dst = length src) then zipR f dst src
  else match src with
       | [y] => mapR (λ x, f x y) dst
       | _ => Raise ValueError
       end.

(** [dst[:, :, k] = src] *)
Definition set_channel (k : nat) (dst : array3) (src : raster) : result array3 :=
  bcast_to (bcast_to (λ (px : list Qc) (x : Qc),
                        if decide (k < length px)%nat then Ok (<[k:=x]> px)
                        else Raise IndexError)) dst src.

(** [recon = np.multiply(albedo, shading) + specularity;
     recon[:, :, 3] = albedo[:, :, 3]] *)
Definition reconstruct (albedo shading specularity : array3) : result array3 :=
  prod ← np_multiply albedo shading;
  recon ← np_add prod specularity;
  alpha ← channel 3 albedo;
  set_channel 3 recon alpha.

(** [EXR.extract_intrinsic_images_from_lighting_passes(outdir, vis)].
    [outdir_exists] is what [os.path.exists(outdir)] answers;
    [xv.matrix_as_image] belongs to another module and is recorded as an
    event. *)
Definition extract_intrinsic_images_from_lighting_passes
    (data : gmap string raster) (outdir_exists : bool)
    (outdir : string) (vis : bool) : io unit :=
  when (negb outdir_exists) (emit (Makedirs outdir));;
  albedo ← lift (collapse_passes data ["diffuse_color"; "glossy_color"]);
  emit (NpSave (path_join outdir "albedo.npy") albedo);;
  when vis (emit (MatrixAsImage albedo (path_join outdir "albedo.png")));;
  shading ← lift (collapse_passes data ["diffuse_indirect"; "diffuse_direct"]);
  emit (NpSave (path_join outdir "shading.npy") shading);;
  when vis (emit (MatrixAsImage shading (path_join outdir "shading.png")));;
  specularity ← lift (collapse_passes data ["glossy_indirect"; "glossy_direct"]);
  emit (NpSave (path_join outdir "specularity.npy") specularity);;
  when vis (emit (MatrixAsImage specularity (path_join outdir "specularity.png")));;
  recon ← lift (reconstruct albedo shading specularity);
  emit (NpSave (path_join outdir "recon.npy") recon);;
  when vis (emit (MatrixAsImage recon (path_join outdir "recon.png")));;
  composite ← lift (collapse_passes data ["composite"]);
  emit (NpSave (path_join outdir "composite.npy") composite);;
  when vis (emit (MatrixAsImage composite (path_join outdir "composite.png"))).

(** ** [exr.py]: normals *)

(** [np.iinfo('uint8').max] *)
Definition dtype_max : Qc := Qc_of_Z 255.
Definition half : Qc := Q2Qc (1 # 2).

(** [x.astype('uint8')] for a finite [x]: the fraction is dropped (towards
    zero) and the integer is reduced modulo 256. *)
Definition astype_uint8 (x : Qc) : Z :=
  (Qnum (this x) ÷ Z.pos (Qden (this x))) `mod` 256.

(** [(1 - (arr / 2 + 0.5)) * dtype_max].  The value is the exact one; the
    code rounds each step to a float, which keeps it within the same
    bounds but may move it across an integer. *)
Definition normal_to_color (n : Qc) : Qc := (1 - (n / 2 + half)) * dtype_max.

(** [np.multiply(alpha, im) + np.multiply(1 - alpha, bg)] on 3-D arrays *)
Definition composite3 (alpha im bg : array3) : result array3 :=
  fg ← np_multiply alpha im;
  rest ← np_multiply (map (map (map (λ a, 1 - a))) alpha) bg;
  np_add fg rest.

(** [EXR.extract_normal(outpath, vis)] *)
Definition extract_normal (data : gmap string raster) (outpath : string)
    (vis : bool) : io unit :=
  r ← lift (dict_get data "R");
  g ← lift (dict_get data "G");
  b ← lift (dict_get data "B");
  arr ← lift (np_dstack [A2 r; A2 g; A2 b]);
  alpha ← lift (dict_get data "A");
  let outpath := npy_path outpath in
  out ← lift (np_dstack [A3 arr; A2 alpha]);
  emit (NpSave outpath out);;
  when vis (
    let im := map (map (map normal_to_color)) arr in
    let bg := map (map (map (λ _, 0))) im in
    alpha ← lift (np_dstack [A2 alpha; A2 alpha; A2 alpha]);
    im ← lift (composite3 alpha im bg);
    emit (ImWriteColor (png_path outpath)
            (map (map (λ px, reverse (map astype_uint8 px))) im))).

(** ** [exr.py]: depth *)

Definition alpha_map_msg : string :=
  "A valid alpha map must have all three channels the same".
Definition depth_map_msg : string :=
  "A valid depth map must have all three channels the same".

(** [cv2.imread(path, cv2.IMREAD_UNCHANGED)]: the pixels of the file, or
    Python's [None] when it cannot be read.  The files are multi-channel
    images, which OpenCV returns as (height, width, channel) arrays. *)
Definition imread (fs : gmap string array3) (path : string) : option array3 :=
  fs !! path.

(** Subscripting [None] is a [TypeError]. *)
Definition subscript (arr : option array3) : result array3 :=
  match arr with
  | Some a => Ok a
  | None => Raise TypeError
  end.

(** [(arr[:, :, 0] == arr[:, :, 1]).all() and (arr[:, :, 1] == arr[:, :, 2]).all()];
    the right operand of [and] is evaluated only when the left one holds. *)
Definition channels_identical (arr : option array3) : result bool :=
  a ← subscript arr;
  c0 ← channel 0 a;
  c1 ← channel 1 a;
  left ← eq_all c0 c1;
  if left : bool then
    c1 ← channel 1 a;
    c2 ← channel 2 a;
    eq_all c1 c2
  else Ok false.

Definition qmax (x y : Qc) : Qc := if bool_decide (x < y) then y else x.
Definition qmin (x y : Qc) : Qc := if bool_decide (y < x) then y else x.

(** [a.max()] and [a.min()] over all entries; an empty array is a
    [ValueError]. *)
Definition np_max (xs : list Qc) : result Qc :=
  match xs with
  | [] => Raise ValueError
  | x :: rest => Ok (foldl qmax x rest)
  end.

Definition np_min (xs : list Qc) : result Qc :=
  match xs with
  | [] => Raise ValueError
  | x :: rest => Ok (foldl qmin x rest)
  end.

(** Floating-point division: no exception, a zero divisor gives a
    non-finite value. *)
Definition fdiv (x y : Qc) : option Qc :=
  if bool_decide (y = 0) then None else Some (x / y).

(** [depth[depth > max_val] = max_val] *)
Definition clamp (max_val : Qc) (depth : raster) : raster :=
  map (map (λ x, if bool_decide (max_val < x) then max_val else x)) depth.

(** [dtype_max * (max_val - depth) / (max_val - min_val)].  The quotient is
    the exact one; the code rounds it to a float, so that a value proved
    equal to 255 here may be written a rounding error below it.  Order,
    bounds and the zero divisor do not depend on the rounding. *)
Definition rescale (max_val min_val : Qc) (depth : raster)
  : list (list (option Qc)) :=
  map (map (λ x, fdiv (dtype_max * (max_val - x)) (max_val - min_val))) depth.

(** [np.multiply(alpha, im) + np.multiply(1 - alpha, bg)] on 2-D arrays,
    [im] possibly holding non-finite values. *)
Definition composite2 (alpha : raster) (im : list (list (option Qc))) (bg : raster)
  : result (list (list (option Qc))) :=
  fg ← bcast (bcast (λ (a : Qc) (x : option Qc), Ok ((λ v, a * v) <$> x))) alpha im;
  rest ← bcast (bcast (λ a b : Qc, Ok (a * b)))
           (map (map (λ a, 1 - a)) alpha) bg;
  bcast (bcast (λ (x : option Qc) (r : Qc), Ok ((λ v, v + r) <$> x))) fg rest.

(** The [if vis_raw:] block of [extract_depth].  [depth] is a view of the
    first channel of the loaded array, which the clamping edits in place;
    the loaded array is not read again afterwards. *)
Definition visualize_depth (alpha depth : raster) (outpath : string) : io unit :=
  dmax ← lift (np_max (concat depth));
  let is_fg := λ x : Qc, x < dmax in
  max_val ← lift (np_max (filter is_fg (concat depth)));
  let depth := clamp max_val depth in
  min_val ← lift (np_min (concat depth));
  let im := rescale max_val min_val depth in
  let bg := map (map (λ _, 0)) im in
  im ← lift (composite2 alpha im bg);
  emit (ImWriteGray (png_path outpath) (map (map (fmap astype_uint8)) im)).

(** [EXR.extract_depth(alpha_exr, outpath, vis_raw)]; [exr_f] is
    [self.exr_f] and [fs] the image files on disk. *)
Definition extract_depth (fs : gmap string array3) (exr_f alpha_exr outpath : string)
    (vis_raw : bool) : io unit :=
  let arr := imread fs alpha_exr in
  ok ← lift (channels_identical arr);
  lift (py_assert ok alpha_map_msg);;
  alpha ← lift (a ← subscript arr; channel 0 a);
  let arr := imread fs exr_f in
  ok ← lift (channels_identical arr);
  lift (py_assert ok depth_map_msg);;
  a ← lift (subscript arr);
  depth ← lift (channel 0 a);
  let outpath := npy_path outpath in
  out ← lift (np_dstack [A3 a; A2 alpha]);
  emit (NpSave outpath out);;
  when vis_raw (visualize_depth alpha depth outpath).

(** ** [vid.py] *)

(** A frame: its [shape] and its samples. *)
Record frame := Frame { shape : list nat; samples : list Z }.

(** The [cv2.VideoWriter] object and the file behind it: the frames handed
    to [write] so far, and whether [release] has closed the container. *)
Record VideoWriter := {
  vw_path : string;
  vw_fourcc : string;
  vw_fps : Z;
  vw_size : nat * nat;
  vw_frames : list frame;
  vw_released : bool
}.

Definition vw_write (vw : VideoWriter) (f : frame) : VideoWriter :=
  {| vw_path := vw_path vw; vw_fourcc := vw_fourcc vw; vw_fps := vw_fps vw;
     vw_size := vw_size vw; vw_frames := vw_frames vw ++ [f];
     vw_released := vw_released vw |}.

Definition vw_release (vw : VideoWriter) : VideoWriter :=
  {| vw_path := vw_path vw; vw_fourcc := vw_fourcc vw; vw_fps := vw_fps vw;
     vw_size := vw_size vw; vw_frames := vw_frames vw;
     vw_released := true |}.

Definition frames_msg : string := "All frames must have the same shape".

(** The [for frame in imgs:] loop. *)
Fixpoint write_frames (h w : nat) (vw : VideoWriter) (imgs : list frame)
  : VideoWriter * result unit :=
  match imgs with
  | [] => (vw, Ok tt)
  | frame :: rest =>
      if decide (take 2 (shape frame) = [h; w])
      then write_frames h w (vw_write vw frame) rest
      else (vw, Raise (AssertionError frames_msg))
  end.

(** [images2video(imgs, fps, outpath)].  [tmp] is [const.Dir.tmp].  The
    result is the writer (if one was created) as the call leaves it, and
    the outcome. *)
Definition images2video (tmp : string) (imgs : list frame) (fps : Z)
    (outpath : option string) : option VideoWriter * result unit :=
  let outpath := default (path_join tmp "images2video.avi") outpath in
  match imgs with
  | [] => (None, Raise IndexError)
  | first :: _ =>
      match take 2 (shape first) with
      | [h; w] =>
          let vw := {| vw_path := outpath; vw_fourcc := "MP42"; vw_fps := fps;
                       vw_size := (w, h); vw_frames := [];
                       vw_released := false |} in
          match write_frames h w vw imgs with
          | (vw, Ok _) => (Some (vw_release vw), Ok tt)
          | (vw, Raise e) => (Some vw, Raise e)
          end
      | _ => (None, Raise ValueError)
      end
  end.

(** ** [blender/light.py] *)

Abbreviation vec3 := (Qc * Qc * Qc)%type.

(** A lamp object of the host scene, with the fields the helpers touch.
    [name = None] is the name the host picks itself; [emission] is
    [data.node_tree.nodes['Emission'].inputs[1].default_value]. *)
Record lamp := {
  lamp_type : string;
  location : vec3;
  rotation : vec3;
  name : option string;
  shadow_soft_size : option Qc;
  size : option Qc;
  emission : option Qc
}.

(** The part of [bpy.context] and [bpy.data] the helpers read and write:
    the objects of the scene, the active one and the render engine. *)
Record scene := {
  objects : list lamp;
  active : option nat;
  engine : string
}.

(** Host calls run against the scene and may raise. *)
Definition bpy (A : Type) : Type := scene → scene * result A.

Global Instance bpy_ret : MRet bpy := λ A a s, (s, Ok a).
Global Instance bpy_bind : MBind bpy := λ A B f m s,
  match m s with
  | (s', Ok a) => f a s'
  | (s', Raise e) => (s', Raise e)
  end.

(** [bpy.ops.object.lamp_add(type=..., location=..., rotation=...)]: the
    new lamp joins the scene and becomes the active object. *)
Definition lamp_add (type : string) (loc rot : vec3) : bpy unit := λ s,
  let l := {| lamp_type := type; location := loc; rotation := rot;
              name := None; shadow_soft_size := None; size := None;
              emission := None |} in
  ({| objects := objects s ++ [l];
      active := Some (length (objects s));
      engine := engine s |}, Ok tt).

(** [bpy.context.active_object], as a handle on the object. *)
Definition active_object : bpy nat := λ s,
  match active s with
  | Some i => (s, Ok i)
  | None => (s, Raise TypeError)
  end.

(** Field assignment through a handle. *)
Definition update (i : nat) (f : lamp → lamp) : bpy unit := λ s,
  ({| objects := alter f i (objects s); active := active s;
      engine := engine s |}, Ok tt).

Definition set_name (n : string) (l : lamp) : lamp :=
  {| lamp_type := lamp_type l; location := location l; rotation := rotation l;
     name := Some n; shadow_soft_size := shadow_soft_size l; size := size l;
     emission := emission l |}.

Definition set_shadow_soft_size (x : Qc) (l : lamp) : lamp :=
  {| lamp_type := lamp_type l; location := location l; rotation := rotation l;
     name := name l; shadow_soft_size := Some x; size := size l;
     emission := emission l |}.

Definition set_size (x : Qc) (l : lamp) : lamp :=
  {| lamp_type := lamp_type l; location := location l; rotation := rotation l;
     name := name l; shadow_soft_size := shadow_soft_size l; size := Some x;
     emission := emission l |}.

Definition set_emission (x : Qc) (l : lamp) : lamp :=
  {| lamp_type := lamp_type l; location := location l; rotation := rotation l;
     name := name l; shadow_soft_size := shadow_soft_size l; size := size l;
     emission := Some x |}.

(** [bpy.context.scene.render.engine] *)
Definition render_engine : bpy string := λ s, (s, Ok (engine s)).

Definition raise {A} (e : exn) : bpy A := λ s, (s, Raise e).

(** The [# Strength] block shared by the three helpers. *)
Definition set_strength (obj : nat) (energy : Qc) : bpy unit :=
  engine ← render_engine;
  if bool_decide (engine = "CYCLES") then update obj (set_emission energy)
  else raise (NotImplementedError engine).

(** [add_light_sun(xyz, rot_vec_rad, name, energy, size)] *)
Definition add_light_sun (xyz rot_vec_rad : vec3) (name : option string)
    (energy size : Qc) : bpy nat :=
  lamp_add "SUN" xyz rot_vec_rad;;
  sun ← active_object;
  match name with
  | Some n => update sun (set_name n)
  | None => mret tt
  end;;
  update sun (set_shadow_soft_size size);;
  set_strength sun energy;;
  mret sun.

(** [add_light_area(xyz, rot_vec_rad, name, energy, size)]; the warning
    about rotations beyond two pi only goes to the logger. *)
Definition add_light_area (xyz rot_vec_rad : vec3) (name : option string)
    (energy size : Qc) : bpy nat :=
  lamp_add "AREA" xyz rot_vec_rad;;
  area ← active_object;
  match name with
  | Some n => update area (set_name n)
  | None => mret tt
  end;;
  update area (set_size size);;
  set_strength area energy;;
  mret area.

(** [add_light_point(xyz, name, energy)]; without a rotation argument the
    host uses its default, no rotation. *)
Definition add_light_point (xyz : vec3) (name : option string) (energy : Qc)
  : bpy nat :=
  lamp_add "POINT" xyz (0, 0, 0);;
  point ← active_object;
  match name with
  | Some n => update point (set_name n)
  | None => mret tt
  end;;
  update point (set_shadow_soft_size 0);;
  set_strength point energy;;
  mret point.

(** ** Vocabulary of the statements *)

(** [np.dstack] accepts arrays that agree on height and width. *)
Definition stackable (h w : nat) (b : ndarray) : Prop :=
  shape2 h w (atleast_3d b).

(** The sum of the values in a list, as [np.sum] adds them up. *)
Definition total (xs : list Qc) : Qc := foldr Qcplus 0 xs.

(** The value of channel [ch] of pass [comp] at a pixel. *)
Definition pass_px (data : gmap string raster) (comp ch : string) (i j : nat)
  : option Qc :=
  data !! ((comp +:+ ".") +:+ ch) ≫= λ r, px2 r i j.

(** The sum over the passes [comps] of channel [ch] at a pixel. *)
Definition sum_px (data : gmap string raster) (comps : list string)
    (ch : string) (i j : nat) : Qc :=
  total ((λ comp, default 0 (pass_px data comp ch i j)) <$> comps).

(** Synthetic lighting passes: both colour passes are [C], the four
    direct and indirect passes are [S], the composite is [K], and all of
    them carry the alpha channel [A]. *)
Definition flat_pass (name : string) (rgb alpha : raster)
  : list (string * raster) :=
  [(name +:+ ".R", rgb); (name +:+ ".G", rgb); (name +:+ ".B", rgb);
   (name +:+ ".A", alpha)].

Definition synthetic (C S K A : raster) : gmap string raster :=
  list_to_map (flat_pass "diffuse_color" C A ++ flat_pass "glossy_color" C A ++
               flat_pass "diffuse_direct" S A ++ flat_pass "diffuse_indirect" S A ++
               flat_pass "glossy_direct" S A ++ flat_pass "glossy_indirect" S A ++
               flat_pass "composite" K A).

(** A raster of one pixel. *)
Definition dot (x : Qc) : raster := [[x]].

(** The six passes that [extract_intrinsic_images_from_lighting_passes]
    combines, and what it takes for them to be well formed: every colour
    channel present with shape (h, w), and one alpha channel for all. *)
Definition colour_passes : list string := ["diffuse_color"; "glossy_color"].
Definition shading_passes : list string := ["diffuse_indirect"; "diffuse_direct"].
Definition specular_passes : list string := ["glossy_indirect"; "glossy_direct"].

Definition passes_shaped (data : gmap string raster) (h w : nat)
    (alpha : raster) (comps : list string) : Prop :=
  (∀ comp ch, comp ∈ comps → ch ∈ ["R"; "G"; "B"] →
     ∃ r, data !! ((comp +:+ ".") +:+ ch) = Some r ∧ shape2 h w r) ∧
  (∀ comp, comp ∈ comps → data !! (comp +:+ ".A") = Some alpha).

(** All colour channels of the passes [comps] are the raster [X]. *)
Definition passes_are (data : gmap string raster) (comps : list string)
    (X : raster) : Prop :=
  ∀ comp ch, comp ∈ comps → ch ∈ ["R"; "G"; "B"] →
    data !! ((comp +:+ ".") +:+ ch) = Some X.

Definition four : Qc := Qc_of_Z 4.

(** An RGBA normal map, as [EXR.load] returns it. *)
Definition normal_map (r g b a : raster) : gmap string raster :=
  list_to_map [("R", r); ("G", g); ("B", b); ("A", a)].

(** Channel [k] of a 3-D array as a raster, and what it means for the first
    three channels to be pixel-identical. *)
Definition chan (k : nat) (a : array3) : raster :=
  map (map (λ px, default 0 (px !! k))) a.

Definition channels_same (a : array3) : Prop :=
  ∀ i j px, px2 a i j = Some px →
    px !! 0%nat = px !! 1%nat ∧ px !! 1%nat = px !! 2%nat.

(** The two files [extract_depth] reads, and a pixel whose three channels
    agree. *)
Definition depth_files (alpha depth : array3) : gmap string array3 :=
  list_to_map [("alpha.exr", alpha); ("depth.exr", depth)].

Definition gray (x : Qc) : list Qc := [x; x; x].

(** A lamp as [lamp_add] leaves it, then named and sized by a helper;
    the scene with one more object, which is the active one. *)
Definition new_lamp (type : string) (loc rot : vec3) (name : option string)
    (shadow_soft_size size : option Qc) : lamp :=
  {| lamp_type := type; location := loc; rotation := rot; name := name;
     shadow_soft_size := shadow_soft_size; size := size; emission := None |}.

Definition with_lamp (s : scene) (l : lamp) : scene :=
  {| objects := objects s ++ [l]; active := Some (length (objects s));
     engine := engine s |}.

Definition empty_scene (engine : string) : scene :=
  {| objects := []; active := None; engine := engine |}.

(** ** [add_light_env]

    The function works on the world of the scene through host calls.  The
    model records the calls in the order the code makes them; [env] is a
    tuple or a [str], as documented. *)

Inductive env_arg :=
  | EnvTuple (c : list Qc)
  | EnvStr (path : string).

(** [env] once the first [if] has run: still a tuple, or the image
    [bpy.data.images[name]]. *)
Inductive env_val :=
  | Color (c : list Qc)
  | Image (name : string).

(** A node of the world's tree: the k-th one created by this call, or one
    looked up by name. *)
Inductive node_ref :=
  | Created (k : nat)
  | Existing (name : string).

Inductive value :=
  | Scalar (x : Qc)
  | Tuple (c : list Qc).

Inductive host_call :=
  | ImagesLoad (filepath : string) (check_existing : bool)
  | UseNodes (b : bool)
  | NodesNew (type : string)
  | LinksNew (src : node_ref) (output : string) (dst : node_ref) (input : string)
  | SetDefaultValue (n : node_ref) (input : string) (v : value)
  | SetImage (n : node_ref) (image : string)
  | SetRotation (n : node_ref) (v : vec3)
  | SetScale (n : node_ref) (v : vec3).

(** [os.path.basename]: what follows the last slash. *)
Fixpoint has_slash (p : string) : bool :=
  match p with
  | EmptyString => false
  | String c rest => bool_decide (String c EmptyString = "/") || has_slash rest
  end.

Fixpoint basename (p : string) : string :=
  match p with
  | EmptyString => EmptyString
  | String c rest =>
      if has_slash rest then basename rest
      else if bool_decide (String c EmptyString = "/") then rest else p
  end.

Definition engine_msg : string := "Rendering engine is not Cycles".
Definition env_msg : string := "If tuple, env must be of length 3 or 4".

(** The first [if]: an image is loaded and looked up under the base name of
    its path; a tuple of three gets a fourth component 1. *)
Definition resolve_env (env : env_arg) : list host_call * result env_val :=
  match env with
  | EnvStr path => ([ImagesLoad path true], Ok (Image (basename path)))
  | EnvTuple c =>
      let c := if bool_decide (length c = 3%nat) then c ++ [1] else c in
      ([], py_assert (bool_decide (length c = 4%nat)) env_msg;; Ok (Color c))
  end.

(** The nodes the call creates, in order: [bg_node], [texcoord_node],
    [env_node], [mapping_node]. *)
Definition bg_node : node_ref := Created 0.
Definition texcoord_node : node_ref := Created 1.
Definition env_node : node_ref := Created 2.
Definition mapping_node : node_ref := Created 3.

(** [add_light_env(env, strength, rot_vec_rad, scale)] in the scene [s]:
    the host calls made, and the outcome. *)
Definition add_light_env (s : scene) (env : env_arg) (strength : Qc)
    (rot_vec_rad scale : vec3) : list host_call * result unit :=
  if bool_decide (engine s = "CYCLES") then
    match resolve_env env with
    | (loads, Raise e) => (loads, Raise e)
    | (loads, Ok env) =>
        (loads ++
         [UseNodes true;
          NodesNew "ShaderNodeBackground";
          LinksNew bg_node "Background" (Existing "World Output") "Surface"] ++
         match env with
         | Color c => [SetDefaultValue bg_node "Color" (Tuple c)]
         | Image name =>
             [NodesNew "ShaderNodeTexCoord";
              NodesNew "ShaderNodeTexEnvironment";
              SetImage env_node name;
              NodesNew "ShaderNodeMapping";
              SetRotation mapping_node rot_vec_rad;
              SetScale mapping_node scale;
              LinksNew texcoord_node "Generated" mapping_node "Vector";
              LinksNew mapping_node "Vector" env_node "Vector";
              LinksNew env_node "Color" bg_node "Color"]
         end ++
         [SetDefaultValue bg_node "Strength" (Scalar strength)],
         Ok tt)
    end
  else ([], Raise (AssertionError engine_msg)).

(** * Properties *)

(** ** The helpers on small inputs *)

Example npy_path_adds : npy_path "depth" = "depth.npy".
Proof. reflexivity. Qed.

Example npy_path_keeps : npy_path "depth.npy" = "depth.npy".
Proof. reflexivity. Qed.

Example png_path_swaps : png_path (npy_path "depth") = "depth.png".
Proof. reflexivity. Qed.

Example path_join_slash :
  path_join "out" "albedo.npy" = "out/albedo.npy" ∧
  path_join "out/" "albedo.npy" = "out/albedo.npy".
Proof. split; reflexivity. Qed.

Example bcast_stretches :
  bcast (λ x y : Z, Ok (x + y)%Z) [10%Z] [1%Z; 2%Z; 3%Z]
  = Ok [11%Z; 12%Z; 13%Z].
Proof. reflexivity. Qed.

Example bcast_rejects :
  bcast (λ x y : Z, Ok (x + y)%Z) [10%Z; 20%Z] [1%Z; 2%Z; 3%Z]
  = Raise ValueError.
Proof. reflexivity. Qed.

Example astype_uint8_truncates :
  astype_uint8 (Q2Qc (255 # 2)) = 127%Z ∧ astype_uint8 (Qc_of_Z 256) = 0%Z.
Proof. split; reflexivity. Qed.

Example collapse_passes_missing_pass :
  collapse_passes (synthetic (dot 1) (dot 1) (dot 1) (dot 1)) ["glossy"]
  = Raise (KeyError "glossy.R").
Proof. vm_compute. reflexivity. Qed.

(** ** Traversals *)

Lemma bind_Ok {A B} (a : A) (f : A → result B) : Ok a ≫= f = f a.
Proof. done. Qed.

Lemma bind_Raise {A B} (e : exn) (f : A → result B) : Raise e ≫= f = Raise e.
Proof. done. Qed.

Section mapR.
Context {A B : Type}.

Lemma mapR_ok (f : A → result B) (g : A → B) xs :
  Forall (λ x, f x = Ok (g x)) xs → mapR f xs = Ok (g <$> xs).
Proof.
  induction 1 as [|x xs Hx _ IH]; [done|].
  cbn. by rewrite Hx, IH.
Qed.

(** Only [ValueError] comes out of a traversal whose step can raise
    nothing else. *)
Lemma mapR_raise (f : A → result B) xs e :
  (∀ x e', f x = Raise e' → e' = ValueError) →
  mapR f xs = Raise e → e = ValueError.
Proof.
  intros Hf. induction xs as [|x xs IH]; [done|]. cbn.
  destruct (f x) eqn:Hx; cbn; [|intros [= <-]; eauto].
  destruct (mapR f xs); cbn; [done|]. intros [= <-]. by apply IH.
Qed.
End mapR.

Section zipR.
Context {A B C : Type}.

Lemma zipR_ok (f : A → B → result C) (g : A → B → C) xs ys :
  Forall2 (λ x y, f x y = Ok (g x y)) xs ys →
  zipR f xs ys = Ok (zip_with g xs ys).
Proof.
  induction 1 as [|x y xs ys Hxy _ IH]; [done|].
  cbn. by rewrite Hxy, IH.
Qed.

Lemma zipR_pure (g : A → B → C) xs ys :
  length xs = length ys →
  zipR (λ x y, Ok (g x y)) xs ys = Ok (zip_with g xs ys).
Proof.
  intros Hlen. apply zipR_ok.
  apply Forall2_same_length_lookup_2; [done|]. done.
Qed.

Lemma bcast_same_length (f : A → B → result C) xs ys :
  length xs = length ys → bcast f xs ys = zipR f xs ys.
Proof. intros Hlen. unfold bcast. by rewrite decide_True. Qed.

Lemma bcast_to_same_length (f : A → B → result A) xs ys :
  length xs = length ys → bcast_to f xs ys = zipR f xs ys.
Proof. intros Hlen. unfold bcast_to. by rewrite decide_True. Qed.

Lemma zipR_raise (f : A → B → result C) xs ys e :
  (∀ x y e', f x y = Raise e' → e' = ValueError) →
  zipR f xs ys = Raise e → e = ValueError.
Proof.
  intros Hf. revert ys. induction xs as [|x xs IH]; intros [|y ys]; cbn;
    try done; try by intros [= <-].
  destruct (f x y) eqn:Hxy; cbn; [|intros [= <-]; eauto].
  destruct (zipR f xs ys) eqn:Hz; cbn; [done|]. intros [= <-]. eauto.
Qed.

Lemma bcast_raise (f : A → B → result C) xs ys e :
  (∀ x y e', f x y = Raise e' → e' = ValueError) →
  bcast f xs ys = Raise e → e = ValueError.
Proof.
  intros Hf. unfold bcast. case_decide; [by apply zipR_raise|].
  destruct xs as [|x [|??]], ys as [|y [|??]]; try by intros [= <-].
  all: try (apply mapR_raise; eauto).
Qed.
End zipR.

(** ** Shapes and pixels *)

Section shapes.
Context {A B C : Type}.

Lemma shape2_lookup h w (r : list (list A)) i row :
  shape2 h w r → r !! i = Some row → length row = w.
Proof. intros [_ Hr] Hi. by eapply (Forall_lookup_1 _ _ _ _ Hr Hi). Qed.

Lemma shape2_px h w (r : list (list A)) i j :
  shape2 h w r → (i < h)%nat → (j < w)%nat → is_Some (px2 r i j).
Proof.
  intros [Hh Hr] Hi Hj. unfold px2.
  destruct (lookup_lt_is_Some_2 r i) as [row Hrow]; [lia|].
  rewrite Hrow. cbn. apply lookup_lt_is_Some_2.
  rewrite (Forall_lookup_1 _ _ _ _ Hr Hrow). done.
Qed.

Lemma px2_lt h w (r : list (list A)) i j x :
  shape2 h w r → px2 r i j = Some x → (i < h)%nat ∧ (j < w)%nat.
Proof.
  intros [Hh Hr]. unfold px2. destruct (r !! i) as [row|] eqn:Hrow; [|done].
  cbn. intros Hj. split.
  - rewrite <-Hh. by eapply lookup_lt_Some.
  - rewrite <-(Forall_lookup_1 _ _ _ _ Hr Hrow). by eapply lookup_lt_Some.
Qed.

Lemma shape2_zip_with h w (g : A → B → C) a b :
  shape2 h w a → shape2 h w b → shape2 h w (zip_with (zip_with g) a b).
Proof.
  intros [Ha Hra] [Hb Hrb]. split.
  - rewrite length_zip_with. lia.
  - apply Forall_lookup_2. intros i row.
    intros (ra & rb & -> & Hia & Hib)%lookup_zip_with_Some.
    rewrite length_zip_with.
    rewrite (Forall_lookup_1 _ _ _ _ Hra Hia), (Forall_lookup_1 _ _ _ _ Hrb Hib).
    lia.
Qed.

Lemma shape2_map h w (g : A → B) a :
  shape2 h w a → shape2 h w (map (map g) a).
Proof.
  intros [Ha Hra]. split; [by rewrite length_map|].
  apply Forall_map. eapply Forall_impl; [done|]. intros row <-. cbn.
  by rewrite length_map.
Qed.

Lemma px2_map (g : A → B) a i j :
  px2 (map (map g) a) i j = g <$> px2 a i j.
Proof.
  unfold px2. rewrite list_lookup_fmap. destruct (a !! i); [|done].
  cbn. by rewrite list_lookup_fmap.
Qed.

Lemma px2_zip_with (g : A → B → C) a b i j :
  px2 (zip_with (zip_with g) a b) i j
  = x ← px2 a i j; y ← px2 b i j; Some (g x y).
Proof.
  unfold px2. rewrite lookup_zip_with.
  destruct (a !! i) as [ra|]; [|done]. cbn.
  destruct (b !! i) as [rb|]; cbn.
  - by rewrite lookup_zip_with.
  - by destruct (ra !! j).
Qed.

(** Two arrays of one shape: the broadcasting operation is the pointwise
    one. *)
Lemma bcast2_shape h w (g : A → B → C) a b :
  shape2 h w a → shape2 h w b →
  bcast (bcast (λ x y, Ok (g x y))) a b = Ok (zip_with (zip_with g) a b).
Proof.
  intros [Ha Hra] [Hb Hrb].
  rewrite bcast_same_length by lia. apply zipR_ok.
  apply Forall2_same_length_lookup_2; [lia|]. intros i ra rb Hia Hib.
  assert (length ra = length rb) as Hlen.
  { rewrite (Forall_lookup_1 _ _ _ _ Hra Hia).
    by rewrite (Forall_lookup_1 _ _ _ _ Hrb Hib). }
  rewrite bcast_same_length by done. by apply zipR_pure.
Qed.
End shapes.

Section shapes3.
Context {A B C : Type}.

Lemma zipR2_shape h w (g : A → B → C) a b :
  shape2 h w a → shape2 h w b →
  zipR (zipR (λ x y, Ok (g x y))) a b = Ok (zip_with (zip_with g) a b).
Proof.
  intros [Ha Hra] [Hb Hrb]. apply zipR_ok.
  apply Forall2_same_length_lookup_2; [lia|]. intros i ra rb Hia Hib.
  apply zipR_pure.
  rewrite (Forall_lookup_1 _ _ _ _ Hra Hia).
  by rewrite (Forall_lookup_1 _ _ _ _ Hrb Hib).
Qed.

Lemma shape3_px h w c (a : list (list (list A))) i j px :
  shape3 h w c a → px2 a i j = Some px → length px = c.
Proof.
  intros [_ Hc]. unfold px2.
  destruct (a !! i) as [row|] eqn:Hrow; [|done]. cbn. intros Hj.
  pose proof (Forall_lookup_1 _ _ _ _ Hc Hrow) as Hpx.
  by apply (Forall_lookup_1 _ _ _ _ Hpx Hj).
Qed.

Lemma shape3_intro h w c (a : list (list (list A))) :
  shape2 h w a → (∀ i j px, px2 a i j = Some px → length px = c) →
  shape3 h w c a.
Proof.
  intros Ha Hpx. split; [done|].
  apply Forall_lookup_2. intros i row Hrow.
  apply Forall_lookup_2. intros j px Hj.
  apply (Hpx i j). unfold px2. by rewrite Hrow.
Qed.

Lemma bcast3_shape h w c (g : A → B → C) a b :
  shape3 h w c a → shape3 h w c b →
  bcast (bcast (bcast (λ x y, Ok (g x y)))) a b
  = Ok (zip_with (zip_with (zip_with g)) a b).
Proof.
  intros [[Ha Hra] Hca] [[Hb Hrb] Hcb].
  rewrite bcast_same_length by lia. apply zipR_ok.
  apply Forall2_same_length_lookup_2; [lia|]. intros i ra rb Hia Hib.
  pose proof (Forall_lookup_1 _ _ _ _ Hra Hia) as Hla.
  pose proof (Forall_lookup_1 _ _ _ _ Hrb Hib) as Hlb.
  pose proof (Forall_lookup_1 _ _ _ _ Hca Hia) as Hpa.
  pose proof (Forall_lookup_1 _ _ _ _ Hcb Hib) as Hpb.
  cbn beta in Hla, Hlb.
  rewrite bcast_same_length by lia. apply zipR_ok.
  apply Forall2_same_length_lookup_2; [lia|]. intros j pa pb Hja Hjb.
  rewrite bcast_same_length; [apply zipR_pure|].
  all: rewrite (Forall_lookup_1 _ _ _ _ Hpa Hja);
    by rewrite (Forall_lookup_1 _ _ _ _ Hpb Hjb).
Qed.
End shapes3.

(** ** Comparing, summing and stacking rasters *)

Lemma forallb_zip_with_true {A B C} (p : C → bool) (g : A → B → C)
    (R : A → B → Prop) xs ys :
  Forall2 (λ x y, p (g x y) = true ↔ R x y) xs ys →
  forallb p (zip_with g xs ys) = true ↔ Forall2 R xs ys.
Proof.
  induction 1 as [|x y xs ys Hxy _ IH]; cbn.
  - split; [constructor|done].
  - rewrite andb_true_iff, Hxy, IH. split.
    + intros [??]. by constructor.
    + by intros [??]%Forall2_cons.
Qed.

Lemma eq_all_shape h w (a b : raster) :
  shape2 h w a → shape2 h w b → eq_all a b = Ok (bool_decide (a = b)).
Proof.
  intros Ha Hb. unfold eq_all. rewrite (bcast2_shape h w) by done. cbn.
  f_equal. apply eq_iff_eq_true. rewrite bool_decide_eq_true.
  rewrite list_eq_Forall2.
  apply forallb_zip_with_true.
  destruct Ha as [Ha Hra], Hb as [Hb Hrb].
  apply Forall2_same_length_lookup_2; [lia|]. intros i ra rb Hia Hib.
  rewrite list_eq_Forall2. apply forallb_zip_with_true.
  apply Forall2_same_length_lookup_2.
  { rewrite (Forall_lookup_1 _ _ _ _ Hra Hia).
    by rewrite (Forall_lookup_1 _ _ _ _ Hrb Hib). }
  intros j x y _ _. unfold id. by rewrite bool_decide_eq_true.
Qed.

Lemma raster_add_shape h w (a b : raster) :
  shape2 h w a → shape2 h w b →
  raster_add a b = Ok (zip_with (zip_with Qcplus) a b).
Proof. apply zipR2_shape. Qed.

Lemma foldR_raster_add h w (rs : list raster) (acc : raster) :
  shape2 h w acc → Forall (shape2 h w) rs →
  ∃ s, foldR raster_add acc rs = Ok s ∧ shape2 h w s ∧
       ∀ i j x, px2 acc i j = Some x →
         px2 s i j = Some (x + total ((λ r, default 0 (px2 r i j)) <$> rs)).
Proof.
  intros Hacc Hrs. revert acc Hacc.
  induction Hrs as [|r rs Hr _ IH]; intros acc Hacc.
  - exists acc. split_and!; [done..|]. intros i j x ->. cbn.
    by rewrite Qcplus_0_r.
  - cbn. rewrite (raster_add_shape h w) by done. cbn.
    destruct (IH (zip_with (zip_with Qcplus) acc r)) as (s & Hs & Hsh & Hpx).
    { by apply shape2_zip_with. }
    exists s. split_and!; [done..|]. intros i j x Hx.
    destruct (px2_lt h w acc i j x Hacc Hx) as [Hi Hj].
    destruct (shape2_px h w r i j Hr Hi Hj) as [y Hy].
    rewrite (Hpx i j (x + y)).
    + rewrite Hy. cbn. f_equal. unfold total. cbn. ring.
    + rewrite px2_zip_with, Hx, Hy. done.
Qed.

Lemma concat_channels_shape h w (a b : array3) :
  shape2 h w a → shape2 h w b →
  concat_channels a b = Ok (zip_with (zip_with app) a b).
Proof. apply zipR2_shape. Qed.

Lemma foldR_concat_channels h w (acc : array3) (rest : list ndarray) :
  shape2 h w acc → Forall (stackable h w) rest →
  ∃ arr, foldR (λ acc b, concat_channels acc (atleast_3d b)) acc rest = Ok arr ∧
         shape2 h w arr ∧
         ∀ i j p, px2 acc i j = Some p →
           px2 arr i j
           = Some (p ++ concat ((λ b, default [] (px2 (atleast_3d b) i j)) <$> rest)).
Proof.
  intros Hacc Hrest. revert acc Hacc.
  induction Hrest as [|b rest Hb _ IH]; intros acc Hacc.
  - exists acc. split_and!; [done..|]. intros i j p ->. cbn.
    by rewrite app_nil_r.
  - cbn. rewrite (concat_channels_shape h w) by done. cbn.
    destruct (IH (zip_with (zip_with app) acc (atleast_3d b)))
      as (arr & Harr & Hsh & Hpx).
    { by apply shape2_zip_with. }
    exists arr. split_and!; [done..|]. intros i j p Hp.
    destruct (px2_lt h w acc i j p Hacc Hp) as [Hi Hj].
    destruct (shape2_px h w (atleast_3d b) i j Hb Hi Hj) as [q Hq].
    rewrite (Hpx i j (p ++ q)).
    + rewrite Hq. cbn. by rewrite <-(assoc_L app).
    + by rewrite px2_zip_with, Hp, Hq.
Qed.

Lemma np_dstack_shape h w (a : ndarray) (rest : list ndarray) :
  stackable h w a → Forall (stackable h w) rest →
  ∃ arr, np_dstack (a :: rest) = Ok arr ∧ shape2 h w arr ∧
         ∀ i j, (i < h)%nat → (j < w)%nat →
           px2 arr i j
           = Some (concat ((λ b, default [] (px2 (atleast_3d b) i j)) <$> a :: rest)).
Proof.
  intros Ha Hrest. cbn.
  destruct (foldR_concat_channels h w (atleast_3d a) rest Ha Hrest)
    as (arr & Harr & Hsh & Hpx).
  exists arr. split_and!; [done..|]. intros i j Hi Hj.
  destruct (shape2_px h w (atleast_3d a) i j Ha Hi Hj) as [p Hp].
  rewrite (Hpx i j p Hp). by rewrite Hp.
Qed.

Lemma stackable_A2 h w (r : raster) : shape2 h w r → stackable h w (A2 r).
Proof. intros Hr. by apply shape2_map. Qed.

Lemma px2_atleast_3d_A2 (r : raster) i j :
  px2 (atleast_3d (A2 r)) i j = (λ x, [x]) <$> px2 r i j.
Proof. apply px2_map. Qed.

(** ** [collapse_passes] *)

Lemma sum_passes (data : gmap string raster) comps ch h w :
  comps ≠ [] →
  (∀ comp, comp ∈ comps →
     ∃ r, data !! ((comp +:+ ".") +:+ ch) = Some r ∧ shape2 h w r) →
  ∃ s, (comp_arrs ← mapR (λ comp : string,
                      dict_get data ((comp +:+ ".") +:+ ch)) comps;
        np_sum_axis0 comp_arrs) = Ok (A2 s) ∧
       shape2 h w s ∧
       ∀ i j, (i < h)%nat → (j < w)%nat →
         px2 s i j = Some (sum_px data comps ch i j).
Proof.
  intros Hne Hall.
  set (g := λ comp : string, default [] (data !! ((comp +:+ ".") +:+ ch))).
  rewrite (mapR_ok _ g).
  2:{ apply Forall_forall. intros comp Hin.
      destruct (Hall comp Hin) as (r & Hr & _).
      unfold dict_get, g. by rewrite Hr. }
  assert (Forall (shape2 h w) (g <$> comps)) as Hsh.
  { apply Forall_fmap, Forall_forall. intros comp Hin.
    destruct (Hall comp Hin) as (r & Hr & Hshape). unfold g. cbn.
    by rewrite Hr. }
  destruct comps as [|c0 cs]; [done|].
  rewrite fmap_cons in Hsh |- *. apply Forall_cons in Hsh as [Hc0 Hcs].
  destruct (foldR_raster_add h w (g <$> cs) (g c0) Hc0 Hcs)
    as (s & Hs & Hshape & Hpx).
  rewrite bind_Ok. unfold np_sum_axis0. rewrite Hs, bind_Ok.
  exists s. split_and!; [done..|]. intros i j Hi Hj.
  destruct (shape2_px h w (g c0) i j Hc0 Hi Hj) as [x Hx].
  rewrite (Hpx i j x Hx). f_equal.
  unfold sum_px, total. rewrite fmap_cons. cbn [foldr]. f_equal.
  - unfold pass_px, g in *. destruct (data !! _); cbn in *; [by rewrite Hx|done].
  - rewrite <-list_fmap_compose. f_equal. apply list_fmap_ext.
    intros _ comp _. cbn. unfold pass_px, g. by destruct (data !! _).
Qed.

Lemma dict_get_Some {V} (d : gmap string V) key v :
  d !! key = Some v → dict_get d key = Ok v.
Proof. unfold dict_get. by intros ->. Qed.

(** The first loop of [collapse_passes]: one summed raster per colour
    channel. *)
Lemma collapse_sums (data : gmap string raster) comps h w :
  comps ≠ [] →
  (∀ comp ch, comp ∈ comps → ch ∈ ["R"; "G"; "B"] →
     ∃ r, data !! ((comp +:+ ".") +:+ ch) = Some r ∧ shape2 h w r) →
  ∃ sr sg sb,
    mapR (λ ch : string,
            comp_arrs ← mapR (λ comp : string,
                           dict_get data ((comp +:+ ".") +:+ ch)) comps;
            np_sum_axis0 comp_arrs) ["R"; "G"; "B"]
    = Ok [A2 sr; A2 sg; A2 sb] ∧
    shape2 h w sr ∧ shape2 h w sg ∧ shape2 h w sb ∧
    ∀ i j, (i < h)%nat → (j < w)%nat →
      px2 sr i j = Some (sum_px data comps "R" i j) ∧
      px2 sg i j = Some (sum_px data comps "G" i j) ∧
      px2 sb i j = Some (sum_px data comps "B" i j).
Proof.
  intros Hne Hall.
  destruct (sum_passes data comps "R" h w Hne) as (sr & Hr & Hshr & Hpr).
  { intros comp Hin. apply Hall; [done|repeat constructor]. }
  destruct (sum_passes data comps "G" h w Hne) as (sg & Hg & Hshg & Hpg).
  { intros comp Hin. apply Hall; [done|repeat constructor]. }
  destruct (sum_passes data comps "B" h w Hne) as (sb & Hb & Hshb & Hpb).
  { intros comp Hin. apply Hall; [done|repeat constructor]. }
  exists sr, sg, sb. split_and!; [|done..|by auto].
  cbn [mapR]. by rewrite Hr, bind_Ok, Hg, bind_Ok, Hb.
Qed.

Lemma collapse_passes_ok (data : gmap string raster) comps h w alpha :
  comps ≠ [] →
  (∀ comp ch, comp ∈ comps → ch ∈ ["R"; "G"; "B"] →
     ∃ r, data !! ((comp +:+ ".") +:+ ch) = Some r ∧ shape2 h w r) →
  (∀ comp, comp ∈ comps → data !! (comp +:+ ".A") = Some alpha) →
  shape2 h w alpha →
  ∃ arr, collapse_passes data comps = Ok arr ∧ shape3 h w 4 arr ∧
    ∀ i j a, px2 alpha i j = Some a →
      px2 arr i j = Some [sum_px data comps "R" i j; sum_px data comps "G" i j;
                          sum_px data comps "B" i j; a].
Proof.
  intros Hne Hall Halpha Hsh.
  destruct (collapse_sums data comps h w Hne Hall)
    as (sr & sg & sb & Hsums & Hshr & Hshg & Hshb & Hpx).
  destruct (np_dstack_shape h w (A2 sr) [A2 sg; A2 sb; A2 alpha])
    as (arr & Harr & Hsharr & Hparr).
  { by apply stackable_A2. }
  { repeat apply Forall_cons_2; [by apply stackable_A2..|done]. }
  assert (∀ i j a, px2 alpha i j = Some a →
    px2 arr i j = Some [sum_px data comps "R" i j; sum_px data comps "G" i j;
                        sum_px data comps "B" i j; a]) as Hpixels.
  { intros i j a Ha.
    destruct (px2_lt h w alpha i j a Hsh Ha) as [Hi Hj].
    rewrite (Hparr i j Hi Hj). destruct (Hpx i j Hi Hj) as (Hr & Hg & Hb).
    cbn [fmap list_fmap concat]. rewrite !px2_atleast_3d_A2, Hr, Hg, Hb, Ha.
    done. }
  exists arr. split_and!; [|apply shape3_intro; [done|]|done].
  - unfold collapse_passes. rewrite Hsums, bind_Ok.
    destruct comps as [|c0 cs]; [done|].
    change ((c0 :: cs) !! 0%nat) with (Some c0). cbv iota.
    rewrite bind_Ok, (dict_get_Some _ _ alpha), bind_Ok
      by (apply Halpha; constructor).
    change (drop 1 (c0 :: cs)) with cs.
    rewrite (mapR_ok _ (λ _, tt)).
    + by rewrite bind_Ok.
    + apply Forall_forall. intros comp Hin.
      rewrite (dict_get_Some _ _ alpha) by (apply Halpha; by constructor).
      rewrite bind_Ok, (eq_all_shape h w) by done.
      by rewrite bind_Ok, bool_decide_eq_true_2.
  - intros i j px Hpx'.
    destruct (px2_lt h w arr i j px Hsharr Hpx') as [Hi Hj].
    destruct (shape2_px h w alpha i j Hsh Hi Hj) as [a Ha].
    rewrite (Hpixels i j a Ha) in Hpx'. by injection Hpx' as <-.
Qed.

Lemma mapR_assert_fail {A} (f : A → result unit) xs msg x :
  (∀ y, y ∈ xs → f y = Ok tt ∨ f y = Raise (AssertionError msg)) →
  x ∈ xs → f x = Raise (AssertionError msg) →
  mapR f xs = Raise (AssertionError msg).
Proof.
  intros Hf Hin Hx. induction xs as [|y xs IH]; [by apply elem_of_nil in Hin|].
  cbn [mapR]. destruct (Hf y) as [Hy|Hy]; [constructor|..]; rewrite Hy; [|done].
  rewrite bind_Ok. apply elem_of_cons in Hin as [->|Hin]; [congruence|].
  rewrite IH; [done| |done]. intros z Hz. apply Hf. by constructor.
Qed.

(** The alpha check of one pass against the first pass. *)
Lemma alpha_check (data : gmap string raster) h w first_alpha comp a :
  shape2 h w first_alpha → data !! (comp +:+ ".A") = Some a → shape2 h w a →
  (other ← dict_get data (comp +:+ ".A");
   same ← eq_all first_alpha other;
   py_assert same alpha_msg)
  = if bool_decide (first_alpha = a) then Ok tt
    else Raise (AssertionError alpha_msg).
Proof.
  intros Hf Ha Hsh. rewrite (dict_get_Some _ _ a), bind_Ok by done.
  by rewrite (eq_all_shape h w), bind_Ok by done.
Qed.

(** Without any pass there is no first alpha channel to take. *)
Lemma collapse_passes_empty (data : gmap string raster) :
  collapse_passes data [] = Raise IndexError.
Proof. reflexivity. Qed.

(** C3. For a non-empty list of passes whose channels all have one shape
    (h, w) and whose alpha channels are all the same raster,
    [collapse_passes] returns an (h, w, 4) array; at every pixel its first
    three channels are the sums over the passes of their R, G and B values,
    in that order, and its fourth channel is the shared alpha. *)
Theorem collapse_passes_sums (data : gmap string raster) (comps : list string)
    (h w : nat) (alpha : raster) :
  comps ≠ [] →
  (∀ comp ch, comp ∈ comps → ch ∈ ["R"; "G"; "B"] →
     ∃ r, data !! ((comp +:+ ".") +:+ ch) = Some r ∧ shape2 h w r) →
  (∀ comp, comp ∈ comps → data !! (comp +:+ ".A") = Some alpha) →
  shape2 h w alpha →
  ∃ arr, collapse_passes data comps = Ok arr ∧ shape3 h w 4 arr ∧
    ∀ i j, (i < h)%nat → (j < w)%nat →
      px3 arr i j 0 = Some (sum_px data comps "R" i j) ∧
      px3 arr i j 1 = Some (sum_px data comps "G" i j) ∧
      px3 arr i j 2 = Some (sum_px data comps "B" i j) ∧
      px3 arr i j 3 = px2 alpha i j.
Proof.
  intros Hne Hall Halpha Hsh.
  destruct (collapse_passes_ok data comps h w alpha Hne Hall Halpha Hsh)
    as (arr & Harr & Hshape & Hpx).
  exists arr. split_and!; [done..|]. intros i j Hi Hj.
  destruct (shape2_px h w alpha i j Hsh Hi Hj) as [a Ha].
  unfold px3. by rewrite (Hpx i j a Ha), Ha.
Qed.

(** C5. When two of the passes handed to [collapse_passes] have alpha
    channels that differ at some pixel, the routine raises the assertion
    error of its alpha check; in particular it returns no array. *)
Theorem collapse_passes_alpha_mismatch (data : gmap string raster)
    (comps : list string) (h w : nat) (c1 c2 : string) (a1 a2 : raster)
    (i j : nat) :
  (∀ comp ch, comp ∈ comps → ch ∈ ["R"; "G"; "B"] →
     ∃ r, data !! ((comp +:+ ".") +:+ ch) = Some r ∧ shape2 h w r) →
  (∀ comp, comp ∈ comps →
     ∃ a, data !! (comp +:+ ".A") = Some a ∧ shape2 h w a) →
  c1 ∈ comps → c2 ∈ comps →
  data !! (c1 +:+ ".A") = Some a1 → data !! (c2 +:+ ".A") = Some a2 →
  px2 a1 i j ≠ px2 a2 i j →
  collapse_passes data comps = Raise (AssertionError alpha_msg) ∧
  is_ok (collapse_passes data comps) = false.
Proof.
  intros Hall Halpha Hc1 Hc2 Ha1 Ha2 Hdiff.
  assert (collapse_passes data comps = Raise (AssertionError alpha_msg)) as ->;
    [|done].
  destruct comps as [|c0 cs]; [by apply elem_of_nil in Hc1|].
  destruct (collapse_sums data (c0 :: cs) h w) as (sr & sg & sb & Hsums & _);
    [done..|].
  destruct (Halpha c0) as (a0 & Ha0 & Hsh0); [constructor|].
  unfold collapse_passes. rewrite Hsums, bind_Ok.
  change ((c0 :: cs) !! 0%nat) with (Some c0). cbv iota.
  rewrite bind_Ok, (dict_get_Some _ _ a0), bind_Ok by done.
  change (drop 1 (c0 :: cs)) with cs.
  assert (∃ c a, c ∈ cs ∧ data !! (c +:+ ".A") = Some a ∧ a0 ≠ a)
    as (c & a & Hc & Ha & Hne).
  { destruct (decide (a0 = a1)) as [->|Hne1].
    - exists c2, a2. split_and!; [|done|congruence].
      apply elem_of_cons in Hc2 as [->|]; [congruence|done].
    - exists c1, a1. split_and!; [|done..].
      apply elem_of_cons in Hc1 as [->|]; [congruence|done]. }
  rewrite (mapR_assert_fail _ cs alpha_msg c); [done| |done|].
  - intros y Hy. destruct (Halpha y) as (ay & Hay & Hshy); [by constructor|].
    rewrite (alpha_check data h w a0 y ay) by done. case_bool_decide; auto.
  - destruct (Halpha c) as (a' & Ha' & Hsh'); [by constructor|].
    rewrite (alpha_check data h w a0 c a') by done.
    rewrite bool_decide_eq_false_2; [done|congruence].
Qed.

(** Membership in a list given by its elements. *)
Ltac elems H :=
  repeat (apply elem_of_cons in H as [->|H]);
  try (by apply elem_of_nil in H).

Lemma shape2_dot (x : Qc) : shape2 1 1 (dot x).
Proof. split; [done|]. by repeat constructor. Qed.

Lemma collapse_passes_sums_witness :
  ∃ arr : array3, collapse_passes (synthetic (dot 1) (dot 2) (dot (Qc_of_Z 3)) (dot 1))
           ["diffuse_color"; "glossy_color"] = Ok arr ∧
    shape3 1 1 4 arr ∧
    ∀ i j, (i < 1)%nat → (j < 1)%nat →
      px3 arr i j 0
      = Some (sum_px (synthetic (dot 1) (dot 2) (dot (Qc_of_Z 3)) (dot 1))
                ["diffuse_color"; "glossy_color"] "R" i j) ∧
      px3 arr i j 1
      = Some (sum_px (synthetic (dot 1) (dot 2) (dot (Qc_of_Z 3)) (dot 1))
                ["diffuse_color"; "glossy_color"] "G" i j) ∧
      px3 arr i j 2
      = Some (sum_px (synthetic (dot 1) (dot 2) (dot (Qc_of_Z 3)) (dot 1))
                ["diffuse_color"; "glossy_color"] "B" i j) ∧
      px3 arr i j 3 = px2 (dot 1) i j.
Proof.
  apply (collapse_passes_sums _ _ 1 1 (dot 1)).
  - discriminate.
  - intros comp ch Hc Hch. exists (dot 1). split; [|apply shape2_dot].
    elems Hc; elems Hch; vm_compute; reflexivity.
  - intros comp Hc. elems Hc; vm_compute; reflexivity.
  - apply shape2_dot.
Defined.

Lemma collapse_passes_alpha_mismatch_witness :
  collapse_passes (<["glossy_color.A" := dot 0]>
                     (synthetic (dot 1) (dot 2) (dot (Qc_of_Z 3)) (dot 1)))
    ["diffuse_color"; "glossy_color"] = Raise (AssertionError alpha_msg) ∧
  is_ok (collapse_passes (<["glossy_color.A" := dot 0]>
                            (synthetic (dot 1) (dot 2) (dot (Qc_of_Z 3)) (dot 1)))
           ["diffuse_color"; "glossy_color"]) = false.
Proof.
  apply (collapse_passes_alpha_mismatch _ _ 1 1 "diffuse_color" "glossy_color"
           (dot 1) (dot 0) 0 0).
  - intros comp ch Hc Hch. exists (dot 1). split; [|apply shape2_dot].
    elems Hc; elems Hch; vm_compute; reflexivity.
  - intros comp Hc. elems Hc.
    + exists (dot 1). split; [vm_compute; reflexivity|apply shape2_dot].
    + exists (dot 0). split; [vm_compute; reflexivity|apply shape2_dot].
  - repeat constructor.
  - repeat constructor.
  - vm_compute; reflexivity.
  - vm_compute; reflexivity.
  - discriminate.
Defined.

(** ** The reconstruction *)

Lemma channel_ok h w c k (a : array3) :
  shape3 h w c a → (k < c)%nat →
  channel k a = Ok (map (map (λ px, default 0 (px !! k))) a).
Proof.
  intros [_ Hc] Hk. unfold channel.
  apply (mapR_ok _ (map (λ px, default 0 (px !! k)))).
  eapply Forall_impl; [exact Hc|]. intros row Hrow. cbn beta.
  apply (mapR_ok _ (λ px, default 0 (px !! k))).
  eapply Forall_impl; [exact Hrow|]. intros px Hpx. cbn beta in *.
  destruct (lookup_lt_is_Some_2 px k) as [x ->]; [lia|done].
Qed.

Lemma set_channel_ok h w c k (dst : array3) (src : raster) :
  shape3 h w c dst → shape2 h w src → (k < c)%nat →
  set_channel k dst src
  = Ok (zip_with (zip_with (λ (px : list Qc) x, <[k:=x]> px)) dst src).
Proof.
  intros [[Hd Hrd] Hcd] [Hs Hrs] Hk. unfold set_channel.
  rewrite bcast_to_same_length by lia. apply zipR_ok.
  apply Forall2_same_length_lookup_2; [lia|]. intros i rd rs Hid His.
  pose proof (Forall_lookup_1 _ _ _ _ Hrd Hid) as Hld.
  pose proof (Forall_lookup_1 _ _ _ _ Hrs His) as Hls.
  pose proof (Forall_lookup_1 _ _ _ _ Hcd Hid) as Hpd.
  cbn beta in Hld, Hls.
  rewrite bcast_to_same_length by lia. apply zipR_ok.
  apply Forall2_same_length_lookup_2; [lia|]. intros j px x Hpx _.
  pose proof (Forall_lookup_1 _ _ _ _ Hpd Hpx) as Hlen. cbn beta in Hlen.
  rewrite decide_True by lia. done.
Qed.

Lemma shape3_shape2 {A} h w c (a : list (list (list A))) :
  shape3 h w c a → shape2 h w a.
Proof. by intros [? _]. Qed.

Lemma pixel4 (px : list Qc) :
  length px = 4%nat → ∃ x0 x1 x2 x3, px = [x0; x1; x2; x3].
Proof.
  destruct px as [|x0 [|x1 [|x2 [|x3 [|??]]]]]; try done. eauto.
Qed.

Lemma reconstruct_ok h w (albedo shading specularity : array3) :
  shape3 h w 4 albedo → shape3 h w 4 shading → shape3 h w 4 specularity →
  ∃ recon, reconstruct albedo shading specularity = Ok recon ∧
    shape2 h w recon ∧
    ∀ i j a0 a1 a2 a3 s0 s1 s2 s3 p0 p1 p2 p3,
      px2 albedo i j = Some [a0; a1; a2; a3] →
      px2 shading i j = Some [s0; s1; s2; s3] →
      px2 specularity i j = Some [p0; p1; p2; p3] →
      px2 recon i j = Some [a0 * s0 + p0; a1 * s1 + p1; a2 * s2 + p2; a3].
Proof.
  intros Ha Hs Hp. unfold reconstruct, np_multiply, np_add.
  set (prod := zip_with (zip_with (zip_with Qcmult)) albedo shading).
  set (sum := zip_with (zip_with (zip_with Qcplus)) prod specularity).
  assert (shape2 h w prod) as Hprod2
    by (apply shape2_zip_with; by eapply shape3_shape2).
  assert (shape2 h w sum) as Hsum2
    by (apply shape2_zip_with; [done|by eapply shape3_shape2]).
  assert (∀ i j a0 a1 a2 a3 s0 s1 s2 s3 p0 p1 p2 p3,
      px2 albedo i j = Some [a0; a1; a2; a3] →
      px2 shading i j = Some [s0; s1; s2; s3] →
      px2 specularity i j = Some [p0; p1; p2; p3] →
      px2 sum i j
      = Some [a0 * s0 + p0; a1 * s1 + p1; a2 * s2 + p2; a3 * s3 + p3])
    as Hsumpx.
  { intros i j ???? ???? ???? Hia His Hip. unfold sum, prod.
    by rewrite !px2_zip_with, Hia, His, Hip. }
  assert (∀ i j px, px2 sum i j = Some px → length px = 4%nat) as Hlen.
  { intros i j px Hpx.
    destruct (px2_lt h w sum i j px Hsum2 Hpx) as [Hi Hj].
    destruct (shape2_px h w albedo i j) as [pa Hpa]; [by eapply shape3_shape2|done..|].
    destruct (shape2_px h w shading i j) as [ps Hps]; [by eapply shape3_shape2|done..|].
    destruct (shape2_px h w specularity i j) as [pp Hpp]; [by eapply shape3_shape2|done..|].
    destruct (pixel4 pa) as (?&?&?&?&->); [by apply (shape3_px h w 4 albedo i j)|].
    destruct (pixel4 ps) as (?&?&?&?&->); [by apply (shape3_px h w 4 shading i j)|].
    destruct (pixel4 pp) as (?&?&?&?&->); [by apply (shape3_px h w 4 specularity i j)|].
    erewrite Hsumpx in Hpx by done. by injection Hpx as <-. }
  assert (shape3 h w 4 prod) as Hprod3.
  { apply shape3_intro; [done|]. intros i j px Hpx. unfold prod in Hpx.
    rewrite px2_zip_with in Hpx.
    destruct (px2 albedo i j) as [pa|] eqn:Hpa; [|done].
    destruct (px2 shading i j) as [ps|] eqn:Hps; [|done].
    injection Hpx as <-. rewrite length_zip_with.
    rewrite (shape3_px h w 4 albedo i j pa), (shape3_px h w 4 shading i j ps);
      done. }
  rewrite (bcast3_shape h w 4), bind_Ok by done. fold prod.
  rewrite (bcast3_shape h w 4), bind_Ok by done. fold sum.
  rewrite (channel_ok h w 4), bind_Ok by (done || lia).
  rewrite (set_channel_ok h w 4);
    [|by apply shape3_intro|by apply shape2_map, (shape3_shape2 h w 4)|lia].
  eexists. split_and!; [done| |].
  - apply shape2_zip_with; [done|]. by apply shape2_map, (shape3_shape2 h w 4).
  - intros i j ???? ???? ???? Hia His Hip.
    rewrite px2_zip_with, (Hsumpx i j _ _ _ _ _ _ _ _ _ _ _ _ Hia His Hip).
    rewrite px2_map, Hia. done.
Qed.

Lemma intrinsic_saved (data : gmap string raster) outdir_exists outdir vis
    albedo shading specularity recon :
  collapse_passes data ["diffuse_color"; "glossy_color"] = Ok albedo →
  collapse_passes data ["diffuse_indirect"; "diffuse_direct"] = Ok shading →
  collapse_passes data ["glossy_indirect"; "glossy_direct"] = Ok specularity →
  reconstruct albedo shading specularity = Ok recon →
  saved (events (extract_intrinsic_images_from_lighting_passes
                   data outdir_exists outdir vis))
  = [(path_join outdir "albedo.npy", albedo);
     (path_join outdir "shading.npy", shading);
     (path_join outdir "specularity.npy", specularity);
     (path_join outdir "recon.npy", recon)]
    ++ match collapse_passes data ["composite"] with
       | Ok composite => [(path_join outdir "composite.npy", composite)]
       | Raise _ => []
       end.
Proof.
  intros Ha Hs Hp Hr. unfold extract_intrinsic_images_from_lighting_passes.
  destruct outdir_exists, vis;
    cbv [mbind io_bind lift emit when negb mret io_ret];
    rewrite Ha; cbv beta iota; rewrite Hs; cbv beta iota;
    rewrite Hp; cbv beta iota; rewrite Hr; cbv beta iota;
    by destruct (collapse_passes data ["composite"]).
Qed.

Lemma four_eq : four = 2 * 2.
Proof. by apply Qc_is_canon. Qed.

Lemma sum_px_pair (data : gmap string raster) c1 c2 ch X i j x :
  passes_are data [c1; c2] X → ch ∈ ["R"; "G"; "B"] → px2 X i j = Some x →
  sum_px data [c1; c2] ch i j = 2 * x.
Proof.
  intros HX Hch Hx. unfold sum_px, total, pass_px. cbn [fmap list_fmap foldr].
  rewrite !HX by first [done | repeat constructor]. cbn [mbind option_bind].
  rewrite Hx. cbn [default]. unfold id. ring.
Qed.

(** C1 (amended). For well-formed passes the four arrays are saved in the
    order albedo, shading, specularity, reconstruction; the colour channels
    of the reconstruction are albedo times shading plus specularity,
    channel by channel, and its alpha channel is the one of the albedo.
    When both colour passes are C and the four light passes are S, the
    albedo is 2C, shading and specularity are 2S, and the reconstruction is
    4CS + 2S, each with the shared alpha. *)
Theorem intrinsic_reconstruction (data : gmap string raster)
    (outdir_exists : bool) (outdir : string) (vis : bool) (h w : nat)
    (alpha : raster) :
  passes_shaped data h w alpha colour_passes →
  passes_shaped data h w alpha shading_passes →
  passes_shaped data h w alpha specular_passes →
  shape2 h w alpha →
  ∃ albedo shading specularity recon rest,
    saved (events (extract_intrinsic_images_from_lighting_passes
                     data outdir_exists outdir vis))
    = (path_join outdir "albedo.npy", albedo)
      :: (path_join outdir "shading.npy", shading)
      :: (path_join outdir "specularity.npy", specularity)
      :: (path_join outdir "recon.npy", recon) :: rest ∧
    (∀ i j k, (i < h)%nat → (j < w)%nat → (k < 3)%nat →
       ∃ a s p, px3 albedo i j k = Some a ∧ px3 shading i j k = Some s ∧
                px3 specularity i j k = Some p ∧
                px3 recon i j k = Some (a * s + p)) ∧
    (∀ i j, (i < h)%nat → (j < w)%nat →
       px3 recon i j 3 = px3 albedo i j 3 ∧ px3 albedo i j 3 = px2 alpha i j) ∧
    (∀ C S,
       passes_are data colour_passes C →
       passes_are data shading_passes S →
       passes_are data specular_passes S →
       ∀ i j c s a,
         px2 C i j = Some c → px2 S i j = Some s → px2 alpha i j = Some a →
         px2 albedo i j = Some [2 * c; 2 * c; 2 * c; a] ∧
         px2 shading i j = Some [2 * s; 2 * s; 2 * s; a] ∧
         px2 specularity i j = Some [2 * s; 2 * s; 2 * s; a] ∧
         px2 recon i j
         = Some [four * c * s + 2 * s; four * c * s + 2 * s;
                 four * c * s + 2 * s; a]).
Proof.
  intros [HC HCa] [HS HSa] [HP HPa] Halpha.
  destruct (collapse_passes_ok data colour_passes h w alpha)
    as (albedo & Ha & Hsha & Hpxa); [done..|].
  destruct (collapse_passes_ok data shading_passes h w alpha)
    as (shading & Hs & Hshs & Hpxs); [done..|].
  destruct (collapse_passes_ok data specular_passes h w alpha)
    as (specularity & Hp & Hshp & Hpxp); [done..|].
  destruct (reconstruct_ok h w albedo shading specularity)
    as (recon & Hr & Hshr & Hpxr); [done..|].
  eexists albedo, shading, specularity, recon, _. split_and!.
  - by apply intrinsic_saved.
  - intros i j k Hi Hj Hk.
    destruct (shape2_px h w alpha i j Halpha Hi Hj) as [a Hpa].
    pose proof (Hpxr i j _ _ _ _ _ _ _ _ _ _ _ _
                  (Hpxa i j a Hpa) (Hpxs i j a Hpa) (Hpxp i j a Hpa)) as Hrec.
    unfold px3. rewrite (Hpxa i j a Hpa), (Hpxs i j a Hpa), (Hpxp i j a Hpa), Hrec.
    destruct k as [|[|[|k]]];
      [cbn; eexists _, _, _; split_and!; reflexivity..|lia].
  - intros i j Hi Hj.
    destruct (shape2_px h w alpha i j Halpha Hi Hj) as [a Hpa].
    pose proof (Hpxr i j _ _ _ _ _ _ _ _ _ _ _ _
                  (Hpxa i j a Hpa) (Hpxs i j a Hpa) (Hpxp i j a Hpa)) as Hrec.
    unfold px3. by rewrite (Hpxa i j a Hpa), Hrec, Hpa.
  - intros C S HCC HSS HPS i j c s a Hc Hs' Hpa.
    pose proof (Hpxr i j _ _ _ _ _ _ _ _ _ _ _ _
                  (Hpxa i j a Hpa) (Hpxs i j a Hpa) (Hpxp i j a Hpa)) as Hrec.
    rewrite Hrec, (Hpxa i j a Hpa), (Hpxs i j a Hpa), (Hpxp i j a Hpa).
    unfold colour_passes, shading_passes, specular_passes in *.
    rewrite !(sum_px_pair data _ _ _ C i j c) by first [done | repeat constructor].
    rewrite !(sum_px_pair data _ _ _ S i j s) by first [done | repeat constructor].
    split_and!; [done..|]. rewrite four_eq.
    assert (2 * c * (2 * s) + 2 * s = 2 * 2 * c * s + 2 * s) as -> by ring.
    done.
Qed.

(** Closed decidable facts are settled by evaluation. *)
Ltac by_compute :=
  lazymatch goal with
  | |- ?P => apply (bool_decide_eq_true_1 P); vm_compute; reflexivity
  end.

Lemma intrinsic_reconstruction_witness :
  ∃ albedo shading specularity recon rest,
    saved (events (extract_intrinsic_images_from_lighting_passes
                     (synthetic (dot 1) (dot 2) (dot 1) (dot 1))
                     true "out" false))
    = (path_join "out" "albedo.npy", albedo)
      :: (path_join "out" "shading.npy", shading)
      :: (path_join "out" "specularity.npy", specularity)
      :: (path_join "out" "recon.npy", recon) :: rest ∧
    (∀ i j k, (i < 1)%nat → (j < 1)%nat → (k < 3)%nat →
       ∃ a s p, px3 albedo i j k = Some a ∧ px3 shading i j k = Some s ∧
                px3 specularity i j k = Some p ∧
                px3 recon i j k = Some (a * s + p)) ∧
    (∀ i j, (i < 1)%nat → (j < 1)%nat →
       px3 recon i j 3 = px3 albedo i j 3 ∧
       px3 albedo i j 3 = px2 (dot 1) i j) ∧
    (∀ C S,
       passes_are (synthetic (dot 1) (dot 2) (dot 1) (dot 1)) colour_passes C →
       passes_are (synthetic (dot 1) (dot 2) (dot 1) (dot 1)) shading_passes S →
       passes_are (synthetic (dot 1) (dot 2) (dot 1) (dot 1)) specular_passes S →
       ∀ i j c s a,
         px2 C i j = Some c → px2 S i j = Some s → px2 (dot 1) i j = Some a →
         px2 albedo i j = Some [2 * c; 2 * c; 2 * c; a] ∧
         px2 shading i j = Some [2 * s; 2 * s; 2 * s; a] ∧
         px2 specularity i j = Some [2 * s; 2 * s; 2 * s; a] ∧
         px2 recon i j
         = Some [four * c * s + 2 * s; four * c * s + 2 * s;
                 four * c * s + 2 * s; a]).
Proof.
  apply (intrinsic_reconstruction _ true "out" false 1 1 (dot 1)).
  - split.
    + intros comp ch Hc Hch. exists (dot 1). split; [|apply shape2_dot].
      elems Hc; elems Hch; vm_compute; reflexivity.
    + intros comp Hc. elems Hc; vm_compute; reflexivity.
  - split.
    + intros comp ch Hc Hch. exists (dot 2). split; [|apply shape2_dot].
      elems Hc; elems Hch; vm_compute; reflexivity.
    + intros comp Hc. elems Hc; vm_compute; reflexivity.
  - split.
    + intros comp ch Hc Hch. exists (dot 2). split; [|apply shape2_dot].
      elems Hc; elems Hch; vm_compute; reflexivity.
    + intros comp Hc. elems Hc; vm_compute; reflexivity.
  - apply shape2_dot.
Defined.

(** C1, as stated, fails: with C = S = 1 on a single pixel the saved
    reconstruction holds 4CS + 2S = 6 in its red channel, not 4CS = 4. *)
Lemma reconstruction_is_not_4CS :
  ∃ recon,
    saved_at (path_join "out" "recon.npy")
      (events (extract_intrinsic_images_from_lighting_passes
                 (synthetic (dot 1) (dot 1) (dot 1) (dot 1))
                 true "out" false))
    = Some recon ∧
    px3 recon 0 0 0 = Some (four * 1 * 1 + 2 * 1) ∧
    px3 recon 0 0 0 ≠ Some (four * 1 * 1).
Proof.
  exists [[[four + 2; four + 2; four + 2; 1]]]. split_and!.
  - by_compute.
  - by_compute.
  - intros [=].
Qed.

(** ** Normals *)

Section shape3_ops.
Context {A B C : Type}.

Lemma shape3_map h w c (g : A → B) (a : list (list (list A))) :
  shape3 h w c a → shape3 h w c (map (map (map g)) a).
Proof.
  intros Ha. apply shape3_intro.
  - apply shape2_map. by destruct Ha.
  - intros i j px. rewrite px2_map.
    destruct (px2 a i j) as [p|] eqn:Hp; [|done]. intros [= <-].
    rewrite length_map. by apply (shape3_px h w c a i j).
Qed.

Lemma shape3_zip_with h w c (g : A → B → C) a b :
  shape3 h w c a → shape3 h w c b →
  shape3 h w c (zip_with (zip_with (zip_with g)) a b).
Proof.
  intros Ha Hb. apply shape3_intro.
  - apply shape2_zip_with; by eapply shape3_shape2.
  - intros i j px. rewrite px2_zip_with.
    destruct (px2 a i j) as [p|] eqn:Hp; [|done].
    destruct (px2 b i j) as [q|] eqn:Hq; [|done]. intros [= <-].
    rewrite length_zip_with.
    rewrite (shape3_px h w c a i j p), (shape3_px h w c b i j q); [lia|done..].
Qed.
End shape3_ops.

Lemma composite3_ok h w c (alpha im bg : array3) :
  shape3 h w c alpha → shape3 h w c im → shape3 h w c bg →
  composite3 alpha im bg
  = Ok (zip_with (zip_with (zip_with Qcplus))
          (zip_with (zip_with (zip_with Qcmult)) alpha im)
          (zip_with (zip_with (zip_with Qcmult))
             (map (map (map (λ a, 1 - a))) alpha) bg)).
Proof.
  intros Ha Him Hbg. unfold composite3, np_multiply, np_add.
  assert (shape3 h w c (map (map (map (λ a, 1 - a))) alpha)) as Ha'
    by by apply shape3_map.
  rewrite (bcast3_shape h w c _ alpha im), bind_Ok by done.
  rewrite (bcast3_shape h w c _ (map _ alpha) bg), bind_Ok by done.
  rewrite (bcast3_shape h w c); [done|by apply shape3_zip_with..].
Qed.

(** The three stacks built by [extract_normal]. *)
Lemma dstack_rgb h w (r g b : raster) :
  shape2 h w r → shape2 h w g → shape2 h w b →
  ∃ arr, np_dstack [A2 r; A2 g; A2 b] = Ok arr ∧ shape3 h w 3 arr ∧
    ∀ i j x y z, px2 r i j = Some x → px2 g i j = Some y → px2 b i j = Some z →
      px2 arr i j = Some [x; y; z].
Proof.
  intros Hr Hg Hb.
  destruct (np_dstack_shape h w (A2 r) [A2 g; A2 b])
    as (arr & Harr & Hsh & Hpx).
  { by apply stackable_A2. }
  { repeat apply Forall_cons_2; [by apply stackable_A2..|done]. }
  assert (∀ i j x y z,
    px2 r i j = Some x → px2 g i j = Some y → px2 b i j = Some z →
    px2 arr i j = Some [x; y; z]) as Hpixels.
  { intros i j x y z Hx Hy Hz.
    destruct (px2_lt h w r i j x Hr Hx) as [Hi Hj]. rewrite (Hpx i j Hi Hj).
    cbn [fmap list_fmap concat]. by rewrite !px2_atleast_3d_A2, Hx, Hy, Hz. }
  exists arr. split_and!; [done| |done].
  apply shape3_intro; [done|]. intros i j px Hp.
  destruct (px2_lt h w arr i j px Hsh Hp) as [Hi Hj].
  destruct (shape2_px h w r i j Hr Hi Hj) as [x Hx].
  destruct (shape2_px h w g i j Hg Hi Hj) as [y Hy].
  destruct (shape2_px h w b i j Hb Hi Hj) as [z Hz].
  rewrite (Hpixels i j x y z Hx Hy Hz) in Hp. by injection Hp as <-.
Qed.

Lemma dstack_with_alpha h w (arr : array3) (alpha : raster) :
  shape2 h w arr → shape2 h w alpha →
  ∃ out, np_dstack [A3 arr; A2 alpha] = Ok out ∧ shape2 h w out ∧
    ∀ i j px a, px2 arr i j = Some px → px2 alpha i j = Some a →
      px2 out i j = Some (px ++ [a]).
Proof.
  intros Harr Halpha.
  destruct (np_dstack_shape h w (A3 arr) [A2 alpha])
    as (out & Hout & Hsh & Hpx).
  { done. }
  { apply Forall_cons_2; [by apply stackable_A2|done]. }
  exists out. split_and!; [done..|]. intros i j px a Hp Ha.
  destruct (px2_lt h w arr i j px Harr Hp) as [Hi Hj]. rewrite (Hpx i j Hi Hj).
  cbn [fmap list_fmap concat atleast_3d].
  rewrite Hp. change (px2 (map (map (λ x, [x])) alpha) i j)
    with (px2 (atleast_3d (A2 alpha)) i j).
  by rewrite px2_atleast_3d_A2, Ha.
Qed.

(** C4. [extract_normal] saves the stack of R, G, B and alpha in that
    order.  With [vis] it also writes an image whose pixel is, channel by
    channel, the byte cast of alpha * ((1 - (n/2 + 0.5)) * 255) +
    (1 - alpha) * 0 for the normal component n, with the channels in the
    reversed order B, G, R. *)
Theorem extract_normal_visualization (data : gmap string raster)
    (outpath : string) (h w : nat) (r g b alpha : raster) :
  data !! "R" = Some r → data !! "G" = Some g → data !! "B" = Some b →
  data !! "A" = Some alpha →
  shape2 h w r → shape2 h w g → shape2 h w b → shape2 h w alpha →
  ∃ out img,
    events (extract_normal data outpath true)
    = [NpSave (npy_path outpath) out;
       ImWriteColor (png_path (npy_path outpath)) img] ∧
    events (extract_normal data outpath false)
    = [NpSave (npy_path outpath) out] ∧
    ∀ i j nr ng nb a,
      px2 r i j = Some nr → px2 g i j = Some ng → px2 b i j = Some nb →
      px2 alpha i j = Some a →
      px2 out i j = Some [nr; ng; nb; a] ∧
      px2 img i j
      = Some [astype_uint8 (a * ((1 - (nb / 2 + half)) * dtype_max) + (1 - a) * 0);
              astype_uint8 (a * ((1 - (ng / 2 + half)) * dtype_max) + (1 - a) * 0);
              astype_uint8 (a * ((1 - (nr / 2 + half)) * dtype_max) + (1 - a) * 0)].
Proof.
  intros HR HG HB HA Hr Hg Hb Halpha.
  destruct (dstack_rgb h w r g b Hr Hg Hb) as (arr & Harr & Hsharr & Hpxarr).
  destruct (dstack_with_alpha h w arr alpha) as (out & Hout & Hshout & Hpxout);
    [by eapply shape3_shape2|done|].
  destruct (dstack_rgb h w alpha alpha alpha) as (al3 & Hal3 & Hshal3 & Hpxal3);
    [done..|].
  set (im := map (map (map normal_to_color)) arr).
  set (bg := map (map (map (λ _ : Qc, 0))) im).
  assert (shape3 h w 3 im) as Him by by apply shape3_map.
  assert (shape3 h w 3 bg) as Hbg by by apply shape3_map.
  pose proof (composite3_ok h w 3 al3 im bg Hshal3 Him Hbg) as Hcomp.
  eexists out, _. split_and!.
  - unfold extract_normal.
    cbv [mbind io_bind lift emit when mret io_ret events].
    rewrite (dict_get_Some _ _ r), (dict_get_Some _ _ g),
      (dict_get_Some _ _ b) by done.
    rewrite Harr, (dict_get_Some _ _ alpha) by done. cbv beta iota.
    rewrite Hout. cbv beta iota. rewrite Hal3. fold im. fold bg.
    rewrite Hcomp. reflexivity.
  - unfold extract_normal.
    cbv [mbind io_bind lift emit when mret io_ret events].
    rewrite (dict_get_Some _ _ r), (dict_get_Some _ _ g),
      (dict_get_Some _ _ b) by done.
    rewrite Harr, (dict_get_Some _ _ alpha) by done. cbv beta iota.
    rewrite Hout. reflexivity.
  - intros i j nr ng nb a Hnr Hng Hnb Ha.
    pose proof (Hpxarr i j nr ng nb Hnr Hng Hnb) as Hparr.
    pose proof (Hpxal3 i j a a a Ha Ha Ha) as Hpal.
    split; [by rewrite (Hpxout i j _ a Hparr Ha)|].
    rewrite px2_map, !px2_zip_with. unfold bg, im.
    rewrite !px2_map, Hpal, Hparr. reflexivity.
Qed.

Lemma extract_normal_visualization_witness :
  ∃ out img,
    events (extract_normal (normal_map (dot 1) (dot 0) (dot (- 1)) (dot 1))
              "normal" true)
    = [NpSave (npy_path "normal") out;
       ImWriteColor (png_path (npy_path "normal")) img] ∧
    events (extract_normal (normal_map (dot 1) (dot 0) (dot (- 1)) (dot 1))
              "normal" false)
    = [NpSave (npy_path "normal") out] ∧
    ∀ i j nr ng nb a,
      px2 (dot 1) i j = Some nr → px2 (dot 0) i j = Some ng →
      px2 (dot (- 1)) i j = Some nb → px2 (dot 1) i j = Some a →
      px2 out i j = Some [nr; ng; nb; a] ∧
      px2 img i j
      = Some [astype_uint8 (a * ((1 - (nb / 2 + half)) * dtype_max) + (1 - a) * 0);
              astype_uint8 (a * ((1 - (ng / 2 + half)) * dtype_max) + (1 - a) * 0);
              astype_uint8 (a * ((1 - (nr / 2 + half)) * dtype_max) + (1 - a) * 0)].
Proof.
  apply (extract_normal_visualization _ "normal" 1 1);
    first [apply shape2_dot | vm_compute; reflexivity].
Defined.

(** ** Depth: the input checks *)

Lemma map2_ext_px {A B} (f g : A → B) (a : list (list A)) :
  (∀ i j x, px2 a i j = Some x → f x = g x) →
  map (map f) a = map (map g) a.
Proof.
  intros Hfg. apply list_eq. intros i. rewrite !list_lookup_fmap.
  destruct (a !! i) as [row|] eqn:Hrow; [|done]. cbn. f_equal.
  apply list_eq. intros j. rewrite !list_lookup_fmap.
  destruct (row !! j) as [x|] eqn:Hx; [|done]. cbn. f_equal.
  apply (Hfg i j). unfold px2. by rewrite Hrow.
Qed.

Lemma chan_eq_iff h w (a : array3) k l :
  shape3 h w 3 a → (k < 3)%nat → (l < 3)%nat →
  chan k a = chan l a ↔ ∀ i j px, px2 a i j = Some px → px !! k = px !! l.
Proof.
  intros Ha Hk Hl. split.
  - intros Heq i j px Hpx.
    assert (px2 (chan k a) i j = px2 (chan l a) i j) as Hp by by rewrite Heq.
    unfold chan in Hp. rewrite !px2_map, Hpx in Hp. cbn in Hp.
    pose proof (shape3_px h w 3 a i j px Ha Hpx) as Hlen.
    destruct (lookup_lt_is_Some_2 px k) as [x Hx]; [lia|].
    destruct (lookup_lt_is_Some_2 px l) as [y Hy]; [lia|].
    rewrite Hx, Hy in Hp |- *. cbn in Hp. congruence.
  - intros Hpx. apply map2_ext_px. intros i j px Hp.
    by rewrite (Hpx i j px Hp).
Qed.

Lemma channels_same_iff h w (a : array3) :
  shape3 h w 3 a →
  channels_same a ↔ chan 0 a = chan 1 a ∧ chan 1 a = chan 2 a.
Proof.
  intros Ha. rewrite !(chan_eq_iff h w) by (done || lia).
  unfold channels_same. split.
  - intros Hsame. split; intros i j px Hpx; by destruct (Hsame i j px Hpx).
  - intros [H01 H12] i j px Hpx. split; [by apply (H01 i j)|by apply (H12 i j)].
Qed.

Lemma shape2_chan h w c k (a : array3) : shape3 h w c a → shape2 h w (chan k a).
Proof. intros [Ha _]. by apply shape2_map. Qed.

Lemma channels_identical_ok h w (a : array3) :
  shape3 h w 3 a →
  channels_identical (Some a)
  = Ok (bool_decide (chan 0 a = chan 1 a) && bool_decide (chan 1 a = chan 2 a)).
Proof.
  intros Ha. unfold channels_identical, subscript. rewrite bind_Ok.
  rewrite !(channel_ok h w 3) by (done || lia). fold (chan 0 a) (chan 1 a) (chan 2 a).
  rewrite !bind_Ok.
  rewrite (eq_all_shape h w (chan 0 a) (chan 1 a)), bind_Ok
    by by eapply shape2_chan.
  destruct (bool_decide (chan 0 a = chan 1 a)); [|done]. cbn [andb].
  by rewrite (eq_all_shape h w) by by eapply shape2_chan.
Qed.

Lemma channels_identical_same h w (a : array3) :
  shape3 h w 3 a → channels_same a → channels_identical (Some a) = Ok true.
Proof.
  intros Ha [H01 H12]%(channels_same_iff h w); [|done].
  rewrite (channels_identical_ok h w) by done.
  by rewrite !bool_decide_eq_true_2.
Qed.

Lemma channels_identical_differ h w (a : array3) :
  shape3 h w 3 a → ¬ channels_same a → channels_identical (Some a) = Ok false.
Proof.
  intros Ha Hn. rewrite (channels_identical_ok h w) by done.
  rewrite (channels_same_iff h w) in Hn by done.
  repeat case_bool_decide; naive_solver.
Qed.

Lemma channels_same_dec h w (a : array3) :
  shape3 h w 3 a → channels_same a ∨ ¬ channels_same a.
Proof.
  intros Ha. rewrite (channels_same_iff h w) by done.
  destruct (decide (chan 0 a = chan 1 a ∧ chan 1 a = chan 2 a)); auto.
Qed.

(** ** Depth: which errors can come out *)

Lemma foldR_raise {A B} (f : B → A → result B) (acc : B) xs e :
  (∀ b x e', f b x = Raise e' → e' = ValueError) →
  foldR f acc xs = Raise e → e = ValueError.
Proof.
  intros Hf. revert acc. induction xs as [|x xs IH]; intros acc; [done|].
  cbn [foldR]. destruct (f acc x) eqn:Hx.
  - rewrite bind_Ok. apply IH.
  - rewrite bind_Raise. intros [= <-]. eauto.
Qed.

Lemma np_dstack_raise arrs e : np_dstack arrs = Raise e → e = ValueError.
Proof.
  destruct arrs as [|a rest]; [by intros [= <-]|]. cbn [np_dstack].
  apply foldR_raise. intros b x e'. unfold concat_channels.
  apply zipR_raise. intros ra rb e''. apply zipR_raise. done.
Qed.

Lemma np_max_raise xs e : np_max xs = Raise e → e = ValueError.
Proof. destruct xs; [by intros [= <-]|done]. Qed.

Lemma np_min_raise xs e : np_min xs = Raise e → e = ValueError.
Proof. destruct xs; [by intros [= <-]|done]. Qed.

Lemma composite2_raise alpha im bg e :
  composite2 alpha im bg = Raise e → e = ValueError.
Proof.
  unfold composite2.
  destruct (bcast _ alpha im) as [fg|e1] eqn:H1.
  2:{ rewrite bind_Raise. intros [= <-]. revert H1.
      apply bcast_raise. intros ???. by apply bcast_raise. }
  rewrite bind_Ok.
  destruct (bcast _ _ bg) as [rest|e2] eqn:H2.
  2:{ rewrite bind_Raise. intros [= <-]. revert H2.
      apply bcast_raise. intros ???. by apply bcast_raise. }
  rewrite bind_Ok. apply bcast_raise. intros ???. by apply bcast_raise.
Qed.

Lemma visualize_depth_cases (alpha depth : raster) (outpath : string) :
  (∃ img, visualize_depth alpha depth outpath
          = ([ImWriteGray (png_path outpath) img], Ok tt)) ∨
  visualize_depth alpha depth outpath = ([], Raise ValueError).
Proof.
  unfold visualize_depth. cbv [mbind io_bind lift emit mret io_ret].
  destruct (np_max (concat depth)) as [dmax|e] eqn:Hdmax.
  2:{ right. by rewrite (np_max_raise _ _ Hdmax). }
  destruct (np_max (filter _ _)) as [max_val|e] eqn:Hmax.
  2:{ right. by rewrite (np_max_raise _ _ Hmax). }
  destruct (np_min _) as [min_val|e] eqn:Hmin.
  2:{ right. by rewrite (np_min_raise _ _ Hmin). }
  destruct (composite2 _ _ _) as [im|e] eqn:Him.
  2:{ right. by rewrite (composite2_raise _ _ _ _ Him). }
  left. eauto.
Qed.

Lemma saved_visualize_depth (alpha depth : raster) (outpath : string) :
  saved (events (visualize_depth alpha depth outpath)) = [].
Proof.
  by destruct (visualize_depth_cases alpha depth outpath) as [[img ->]| ->].
Qed.

Lemma extract_depth_alpha_fail fs exr_f alpha_exr outpath vis_raw :
  channels_identical (imread fs alpha_exr) = Ok false →
  extract_depth fs exr_f alpha_exr outpath vis_raw
  = ([], Raise (AssertionError alpha_map_msg)).
Proof. intros H. unfold extract_depth. by rewrite H. Qed.

Lemma extract_depth_depth_fail h w fs exr_f alpha_exr outpath vis_raw a :
  fs !! alpha_exr = Some a → shape3 h w 3 a → channels_same a →
  channels_identical (imread fs exr_f) = Ok false →
  extract_depth fs exr_f alpha_exr outpath vis_raw
  = ([], Raise (AssertionError depth_map_msg)).
Proof.
  intros Ha Hsh Hsame H. unfold extract_depth, imread. rewrite Ha.
  rewrite (channels_identical_same h w) by done.
  cbv [mbind io_bind lift py_assert subscript]. cbv [mbind result_bind].
  rewrite (channel_ok h w 3) by (done || lia).
  unfold imread in H. rewrite H. reflexivity.
Qed.

(** Once both checks have passed: the stack is saved, then the
    visualization runs. *)
Lemma extract_depth_checked ha wa hd wd fs exr_f alpha_exr outpath vis_raw a d :
  fs !! alpha_exr = Some a → fs !! exr_f = Some d →
  shape3 ha wa 3 a → shape3 hd wd 3 d →
  channels_same a → channels_same d →
  extract_depth fs exr_f alpha_exr outpath vis_raw
  = match np_dstack [A3 d; A2 (chan 0 a)] with
    | Ok out =>
        let v := when vis_raw
                   (visualize_depth (chan 0 a) (chan 0 d) (npy_path outpath)) in
        (NpSave (npy_path outpath) out :: events v, outcome v)
    | Raise e => ([], Raise e)
    end.
Proof.
  intros Ha Hd Hsha Hshd Hsa Hsd. unfold extract_depth, imread.
  rewrite Ha, Hd.
  rewrite (channels_identical_same ha wa a), (channels_identical_same hd wd d)
    by done.
  cbv [mbind io_bind lift py_assert subscript]. cbv [mbind result_bind].
  rewrite (channel_ok ha wa 3 0 a), (channel_ok hd wd 3 0 d) by (done || lia).
  fold (chan 0 a) (chan 0 d).
  destruct (np_dstack _) as [out|e]; [|done].
  cbv [emit events outcome].
  by destruct (when vis_raw _).
Qed.

Lemma extract_depth_saved_any fs exr_f alpha_exr outpath :
  saved (events (extract_depth fs exr_f alpha_exr outpath true))
  = saved (events (extract_depth fs exr_f alpha_exr outpath false)).
Proof.
  unfold extract_depth.
  cbv [mbind io_bind lift emit when mret io_ret events].
  destruct (channels_identical (imread fs alpha_exr)) as [ok|e]; [|done].
  destruct (py_assert ok alpha_map_msg); [|done].
  destruct (result_bind _ _ _ _) as [alpha|]; [|done].
  destruct (channels_identical (imread fs exr_f)) as [ok'|]; [|done].
  destruct (py_assert ok' _); [|done].
  destruct (subscript (imread fs exr_f)) as [arr|]; [|done].
  destruct (channel 0 arr) as [depth|]; [|done].
  destruct (np_dstack _) as [out|]; [|done].
  pose proof (saved_visualize_depth alpha depth (npy_path outpath)) as Hv.
  destruct (visualize_depth _ _ _) as [log r]. cbn in Hv |- *.
  by rewrite Hv.
Qed.

(** C10. The array saved by [extract_depth] does not depend on [vis_raw].
    For valid inputs it is the stack of the depth file's own pixels, as
    read, with the alpha raster: no clamped or rescaled value enters it. *)
Theorem extract_depth_saves_raw (fs : gmap string array3)
    (exr_f alpha_exr outpath : string) :
  saved (events (extract_depth fs exr_f alpha_exr outpath true))
  = saved (events (extract_depth fs exr_f alpha_exr outpath false)) ∧
  ∀ vis_raw h w a d,
    fs !! alpha_exr = Some a → fs !! exr_f = Some d →
    shape3 h w 3 a → shape3 h w 3 d → channels_same a → channels_same d →
    ∃ out,
      saved (events (extract_depth fs exr_f alpha_exr outpath vis_raw))
      = [(npy_path outpath, out)] ∧
      ∀ i j px pa, px2 d i j = Some px → px2 a i j = Some pa →
        px2 out i j = Some (px ++ [default 0 (pa !! 0%nat)]).
Proof.
  split; [apply extract_depth_saved_any|].
  intros vis_raw h w a d Ha Hd Hsha Hshd Hsa Hsd.
  rewrite (extract_depth_checked h w h w _ _ _ _ _ a d) by done.
  destruct (dstack_with_alpha h w d (chan 0 a)) as (out & Hout & _ & Hpx).
  { by eapply shape3_shape2. }
  { by eapply shape2_chan. }
  rewrite Hout. exists out. split.
  - destruct vis_raw; cbn [when]; [|done].
    pose proof (saved_visualize_depth (chan 0 a) (chan 0 d) (npy_path outpath))
      as Hv.
    destruct (visualize_depth _ _ _) as [log r]. cbn in Hv |- *.
    by rewrite Hv.
  - intros i j px pa Hp Hpa. apply Hpx; [done|].
    unfold chan. by rewrite px2_map, Hpa.
Qed.

(** C9. For three-channel inputs, [extract_depth] ends in an assertion
    error exactly when the channels of the alpha raster or those of the
    depth raster are not pixel-identical, and then nothing has been
    written. *)
Theorem extract_depth_assertion_iff (fs : gmap string array3)
    (exr_f alpha_exr outpath : string) (vis_raw : bool)
    (ha wa hd wd : nat) (a d : array3) :
  fs !! alpha_exr = Some a → fs !! exr_f = Some d →
  shape3 ha wa 3 a → shape3 hd wd 3 d →
  ((∃ msg, outcome (extract_depth fs exr_f alpha_exr outpath vis_raw)
           = Raise (AssertionError msg))
   ↔ ¬ channels_same a ∨ ¬ channels_same d) ∧
  ((∃ msg, outcome (extract_depth fs exr_f alpha_exr outpath vis_raw)
           = Raise (AssertionError msg))
   → events (extract_depth fs exr_f alpha_exr outpath vis_raw) = []).
Proof.
  intros Ha Hd Hsha Hshd.
  destruct (channels_same_dec ha wa a Hsha) as [Hsa|Hna].
  2:{ rewrite extract_depth_alpha_fail.
      - split; [|done]. split; [by left|]. intros _. by eexists.
      - unfold imread. rewrite Ha. by apply (channels_identical_differ ha wa). }
  destruct (channels_same_dec hd wd d Hshd) as [Hsd|Hnd].
  2:{ rewrite (extract_depth_depth_fail ha wa _ _ _ _ _ a) by
        (try done; unfold imread; rewrite Hd;
         by apply (channels_identical_differ hd wd)).
      split; [|done]. split; [by right|]. intros _. by eexists. }
  assert (¬ ∃ msg, outcome (extract_depth fs exr_f alpha_exr outpath vis_raw)
                   = Raise (AssertionError msg)) as Hno.
  { rewrite (extract_depth_checked ha wa hd wd _ _ _ _ _ a d) by done.
    intros [msg Hmsg].
    destruct (np_dstack _) as [out|e] eqn:Hout.
    - destruct vis_raw; cbv [when outcome mret io_ret] in Hmsg;
        cbn [snd] in Hmsg; [|done].
      by destruct (visualize_depth_cases (chan 0 a) (chan 0 d) (npy_path outpath))
        as [[img Hv]|Hv]; rewrite Hv in Hmsg.
    - by rewrite (np_dstack_raise _ _ Hout) in Hmsg. }
  split; [|by intros ?]. split; [by intros ?|]. intros [?|?]; done.
Qed.

(** Shapes of arrays given by their entries. *)
Ltac shapes :=
  repeat first [split | apply Forall_nil_2 | apply Forall_cons_2 | reflexivity].

Lemma extract_depth_saves_raw_witness :
  saved (events (extract_depth
                   (depth_files [[gray 1; gray 0]] [[gray 1; gray (Qc_of_Z 5)]])
                   "depth.exr" "alpha.exr" "out" true))
  = saved (events (extract_depth
                     (depth_files [[gray 1; gray 0]] [[gray 1; gray (Qc_of_Z 5)]])
                     "depth.exr" "alpha.exr" "out" false)) ∧
  ∃ out,
    saved (events (extract_depth
                     (depth_files [[gray 1; gray 0]] [[gray 1; gray (Qc_of_Z 5)]])
                     "depth.exr" "alpha.exr" "out" true))
    = [(npy_path "out", out)] ∧
    ∀ i j px pa,
      px2 [[gray 1; gray (Qc_of_Z 5)]] i j = Some px →
      px2 [[gray 1; gray 0]] i j = Some pa →
      px2 out i j = Some (px ++ [default 0 (pa !! 0%nat)]).
Proof.
  destruct (extract_depth_saves_raw
              (depth_files [[gray 1; gray 0]] [[gray 1; gray (Qc_of_Z 5)]])
              "depth.exr" "alpha.exr" "out") as [Hsame Hraw].
  split; [exact Hsame|].
  apply (Hraw true 1%nat 2%nat).
  - vm_compute; reflexivity.
  - vm_compute; reflexivity.
  - shapes.
  - shapes.
  - apply (channels_same_iff 1 2); [shapes|]. split; by_compute.
  - apply (channels_same_iff 1 2); [shapes|]. split; by_compute.
Defined.

Lemma extract_depth_assertion_iff_witness :
  ((∃ msg, outcome (extract_depth
                      (depth_files [[[1; 0; 1]]] [[gray 1]])
                      "depth.exr" "alpha.exr" "out" true)
           = Raise (AssertionError msg))
   ↔ ¬ channels_same [[[1; 0; 1]]] ∨ ¬ channels_same [[gray 1]]) ∧
  ((∃ msg, outcome (extract_depth
                      (depth_files [[[1; 0; 1]]] [[gray 1]])
                      "depth.exr" "alpha.exr" "out" true)
           = Raise (AssertionError msg))
   → events (extract_depth
               (depth_files [[[1; 0; 1]]] [[gray 1]])
               "depth.exr" "alpha.exr" "out" true) = []).
Proof.
  apply (extract_depth_assertion_iff _ _ _ _ _ 1 1 1 1).
  - vm_compute; reflexivity.
  - vm_compute; reflexivity.
  - shapes.
  - shapes.
Defined.

(** ** Depth: maxima, minima and the rescaling *)

Lemma qmax_spec x y : (qmax x y = x ∨ qmax x y = y) ∧ x ≤ qmax x y ∧ y ≤ qmax x y.
Proof.
  unfold qmax. case_bool_decide as H.
  - split_and!; [by right|by apply Qclt_le_weak|done].
  - split_and!; [by left|done|by apply Qcnot_lt_le].
Qed.

Lemma qmin_spec x y : (qmin x y = x ∨ qmin x y = y) ∧ qmin x y ≤ x ∧ qmin x y ≤ y.
Proof.
  unfold qmin. case_bool_decide as H.
  - split_and!; [by right|by apply Qclt_le_weak|done].
  - split_and!; [by left|done|by apply Qcnot_lt_le].
Qed.

Lemma foldl_qmax x xs :
  foldl qmax x xs ∈ x :: xs ∧ ∀ y, y ∈ x :: xs → y ≤ foldl qmax x xs.
Proof.
  revert x. induction xs as [|z xs IH]; intros x; cbn [foldl].
  - split; [constructor|]. by intros y ->%list_elem_of_singleton.
  - destruct (IH (qmax x z)) as [Hin Hle].
    destruct (qmax_spec x z) as (Hm & Hx & Hz). split.
    + revert Hin. rewrite !elem_of_cons. destruct Hm as [-> | ->]; tauto.
    + intros y [->|[->|Hy]%elem_of_cons]%elem_of_cons.
      * etrans; [exact Hx|]. apply Hle. constructor.
      * etrans; [exact Hz|]. apply Hle. constructor.
      * apply Hle. by constructor.
Qed.

Lemma foldl_qmin x xs :
  foldl qmin x xs ∈ x :: xs ∧ ∀ y, y ∈ x :: xs → foldl qmin x xs ≤ y.
Proof.
  revert x. induction xs as [|z xs IH]; intros x; cbn [foldl].
  - split; [constructor|]. by intros y ->%list_elem_of_singleton.
  - destruct (IH (qmin x z)) as [Hin Hle].
    destruct (qmin_spec x z) as (Hm & Hx & Hz). split.
    + revert Hin. rewrite !elem_of_cons. destruct Hm as [-> | ->]; tauto.
    + intros y [->|[->|Hy]%elem_of_cons]%elem_of_cons.
      * etrans; [|exact Hx]. apply Hle. constructor.
      * etrans; [|exact Hz]. apply Hle. constructor.
      * apply Hle. by constructor.
Qed.

Lemma np_max_spec xs x :
  x ∈ xs → ∃ m, np_max xs = Ok m ∧ m ∈ xs ∧ ∀ y, y ∈ xs → y ≤ m.
Proof.
  destruct xs as [|z xs]; [by intros ?%elem_of_nil|]. intros _.
  exists (foldl qmax z xs). split; [done|]. apply foldl_qmax.
Qed.

Lemma np_min_spec xs x :
  x ∈ xs → ∃ m, np_min xs = Ok m ∧ m ∈ xs ∧ ∀ y, y ∈ xs → m ≤ y.
Proof.
  destruct xs as [|z xs]; [by intros ?%elem_of_nil|]. intros _.
  exists (foldl qmin z xs). split; [done|]. apply foldl_qmin.
Qed.

Lemma elem_of_concat_px {A} (r : list (list A)) x :
  x ∈ concat r ↔ ∃ i j, px2 r i j = Some x.
Proof.
  rewrite list_elem_of_In, in_concat. split.
  - intros (row & [i Hi]%list_elem_of_In%list_elem_of_lookup
              & [j Hj]%list_elem_of_In%list_elem_of_lookup).
    exists i, j. unfold px2. by rewrite Hi.
  - intros (i & j & Hx). unfold px2 in Hx.
    destruct (r !! i) as [row|] eqn:Hrow; [|done]. exists row.
    split; apply list_elem_of_In; by eapply list_elem_of_lookup_2.
Qed.

Lemma dtype_max_pos : 0 < dtype_max.
Proof. done. Qed.

(** The rescaling of a clamped depth: finite and within the byte range once
    the foreground spans two different depths. *)
Lemma rescale_range (max_val min_val v : Qc) :
  min_val < max_val → min_val ≤ v → v ≤ max_val →
  ∃ q, fdiv (dtype_max * (max_val - v)) (max_val - min_val) = Some q ∧
       0 ≤ q ∧ q ≤ dtype_max.
Proof.
  intros Hlt Hmin Hmax.
  assert (0 < max_val - min_val) as Hd.
  { unfold Qcminus. by apply (proj1 (Qclt_minus_iff _ _)). }
  assert (0 ≤ max_val - v) as Hn.
  { unfold Qcminus. by apply (proj1 (Qcle_minus_iff _ _)). }
  assert (max_val - v ≤ max_val - min_val) as Hnd.
  { unfold Qcminus. apply (proj1 (Qcplus_le_mono_l _ _ _)). by apply Qcopp_le_compat. }
  unfold fdiv. rewrite bool_decide_eq_false_2.
  2:{ intros Heq. rewrite Heq in Hd. by apply Qclt_not_eq in Hd. }
  eexists. split; [done|]. unfold Qcdiv.
  pose proof (Qcinv_pos _ Hd) as Hinv. split.
  - apply Qcmult_nonneg_nonneg; [|by apply Qclt_le_weak].
    apply Qcmult_nonneg_nonneg; [by apply Qclt_le_weak, dtype_max_pos|done].
  - rewrite <-(Qcmult_1_r dtype_max) at 2.
    rewrite <-(Qcmult_inv_r (max_val - min_val)).
    2:{ intros Heq. rewrite Heq in Hd. by apply Qclt_not_eq in Hd. }
    rewrite <-Qcmult_assoc.
    apply Qcmult_le_mono_nonneg_l; [by apply Qclt_le_weak, dtype_max_pos|].
    apply Qcmult_le_mono_nonneg_r; [by apply Qclt_le_weak|done].
Qed.

(** Alpha compositing against black keeps a byte-range value in range, and
    a transparent pixel is black. *)
Lemma composite_range (a q : Qc) :
  0 ≤ a → a ≤ 1 → 0 ≤ q → q ≤ dtype_max →
  0 ≤ a * q + (1 - a) * 0 ∧ a * q + (1 - a) * 0 ≤ dtype_max.
Proof.
  intros Ha0 Ha1 Hq0 Hq.
  assert (a * q + (1 - a) * 0 = a * q) as -> by ring. split.
  - by apply Qcmult_nonneg_nonneg.
  - etrans; [apply Qcmult_le_mono_nonneg_r; [done|exact Ha1]|].
    by rewrite Qcmult_1_l.
Qed.

(** The byte cast of a value within the byte range does not wrap: it is the
    integer part of the value. *)
Lemma astype_uint8_range (x : Qc) :
  0 ≤ x → x ≤ dtype_max →
  astype_uint8 x = Qfloor x ∧ (0 ≤ astype_uint8 x ≤ 255)%Z.
Proof.
  unfold Qcle, Qle, astype_uint8. destruct x as [[n d] Hc]. cbn.
  intros H0 H255.
  change (Qnum (Qred 0)) with 0%Z in H0.
  change (QDen (Qred 0)) with 1%Z in H0.
  assert (0 ≤ n)%Z as Hn by lia.
  assert (n ≤ 255 * Z.pos d)%Z as Hn' by lia.
  rewrite Z.quot_div_nonneg by lia.
  assert (0 ≤ n `div` Z.pos d)%Z by (apply Z.div_pos; lia).
  assert (n `div` Z.pos d ≤ 255)%Z.
  { apply Z.div_le_upper_bound; lia. }
  rewrite Z.mod_small by lia. lia.
Qed.

Lemma composite2_ok h w (alpha : raster) (im : list (list (option Qc)))
    (bg : raster) :
  shape2 h w alpha → shape2 h w im → shape2 h w bg →
  composite2 alpha im bg
  = Ok (zip_with (zip_with (λ (x : option Qc) (r : Qc), (λ v, v + r) <$> x))
          (zip_with (zip_with (λ (a : Qc) (x : option Qc), (λ v, a * v) <$> x))
             alpha im)
          (zip_with (zip_with Qcmult) (map (map (λ a, 1 - a)) alpha) bg)).
Proof.
  intros Ha Him Hbg. unfold composite2.
  assert (shape2 h w (map (map (λ a, 1 - a)) alpha)) as Ha'
    by by apply shape2_map.
  rewrite (bcast2_shape h w _ alpha im), bind_Ok by done.
  rewrite (bcast2_shape h w _ (map _ alpha) bg), bind_Ok by done.
  rewrite (bcast2_shape h w); [done|by apply shape2_zip_with..].
Qed.

Lemma concat_clamp max_val (depth : raster) :
  concat (clamp max_val depth)
  = map (λ x, if bool_decide (max_val < x) then max_val else x) (concat depth).
Proof. unfold clamp. by rewrite concat_map. Qed.


Lemma px2_chan h w (a : array3) k i j v :
  shape3 h w 3 a → (k < 3)%nat →
  px3 a i j k = Some v → px2 (chan k a) i j = Some v.
Proof.
  intros Ha Hk. unfold px3, chan. rewrite px2_map.
  destruct (px2 a i j) as [px|]; [|done]. cbn. by intros ->.
Qed.

Lemma chan_px3 h w (a : array3) k i j v :
  shape3 h w 3 a → (k < 3)%nat →
  px2 (chan k a) i j = Some v → px3 a i j k = Some v.
Proof.
  intros Ha Hk. unfold px3, chan. rewrite px2_map.
  destruct (px2 a i j) as [px|] eqn:Hpx; [|done]. cbn.
  pose proof (shape3_px h w 3 a i j px Ha Hpx) as Hlen.
  destruct (lookup_lt_is_Some_2 px k) as [u Hu]; [lia|].
  rewrite Hu. cbn. congruence.
Qed.

(** The two ends of the rescaling in exact arithmetic, when the foreground
    spans two different depths: its maximum goes to 0 and its minimum to the
    largest byte (in the code, up to the rounding of the quotient). *)
Lemma rescale_endpoints (max_val min_val : Qc) :
  min_val < max_val →
  fdiv (dtype_max * (max_val - max_val)) (max_val - min_val) = Some 0 ∧
  fdiv (dtype_max * (max_val - min_val)) (max_val - min_val) = Some dtype_max.
Proof.
  intros Hlt.
  assert (max_val - min_val ≠ 0) as Hne.
  { intros Heq. apply (proj1 (Qclt_minus_iff _ _)) in Hlt.
    unfold Qcminus in Heq. rewrite Heq in Hlt. by apply Qclt_not_eq in Hlt. }
  unfold fdiv. rewrite !bool_decide_eq_false_2 by done. split; f_equal.
  - by field.
  - by field.
Qed.

(** With a single foreground depth the divisor is zero: no pixel gets a
    finite value. *)
Lemma rescale_flat (m : Qc) (depth : raster) i j v :
  px2 depth i j = Some v → px2 (rescale m m depth) i j = Some None.
Proof.
  intros Hv. unfold rescale. rewrite px2_map, Hv. cbn. unfold fdiv.
  rewrite bool_decide_eq_true_2; [done|ring].
Qed.


(** The [if vis_raw:] block on a depth raster whose foreground has one
    single depth [v0] below the background sentinel [s]: the clamped
    raster is flat, the divisor is zero, and no pixel is finite. *)
Lemma visualize_depth_flat h w (alpha depth : raster) (outpath : string)
    (v0 s : Qc) :
  shape2 h w alpha → shape2 h w depth →
  v0 ∈ concat depth → s ∈ concat depth → v0 < s →
  (∀ v, v ∈ concat depth → v = v0 ∨ v = s) →
  ∃ img, visualize_depth alpha depth outpath
         = ([ImWriteGray (png_path outpath) img], Ok tt) ∧
    ∀ i j, (i < h)%nat → (j < w)%nat → px2 img i j = Some None.
Proof.
  intros Halpha Hdepth Hv0 Hs Hlt Honly.
  destruct (np_max_spec (concat depth) s Hs) as (dmax & Hdmax & Hdin & Hdle).
  assert (dmax = s) as ->.
  { destruct (Honly dmax Hdin) as [->|]; [|done].
    apply Hdle in Hs. by apply Qcle_not_lt in Hs. }
  assert (v0 ∈ filter (λ v, v < s) (concat depth)) as Hfg
    by by apply list_elem_of_filter.
  destruct (np_max_spec _ v0 Hfg) as (max_val & Hmax & Hmin' & _).
  assert (max_val = v0) as ->.
  { apply list_elem_of_filter in Hmin' as [Hms Hmin'].
    destruct (Honly max_val Hmin') as [ | -> ]; [done|].
    by apply Qclt_not_eq in Hms. }
  set (cl := λ v, if bool_decide (v0 < v) then v0 else v).
  assert (∀ v, v ∈ concat depth → cl v = v0) as Hcl.
  { intros v [->| ->]%Honly; unfold cl.
    - rewrite bool_decide_eq_false_2; [done|]. apply Qcle_not_lt, Qcle_refl.
    - by rewrite bool_decide_eq_true_2. }
  assert (v0 ∈ concat (clamp v0 depth)) as Hv0c.
  { rewrite concat_clamp. apply list_elem_of_In, in_map_iff. exists v0.
    split; [exact (Hcl v0 Hv0)|by apply list_elem_of_In]. }
  destruct (np_min_spec _ v0 Hv0c) as (min_val & Hmin & Hminin & _).
  assert (min_val = v0) as ->.
  { rewrite concat_clamp in Hminin.
    apply list_elem_of_In, in_map_iff in Hminin as (v & <- & Hv).
    by apply Hcl, list_elem_of_In. }
  set (im := rescale v0 v0 (clamp v0 depth)).
  set (bg := map (map (λ _ : option Qc, 0)) im).
  assert (shape2 h w im) as Him by by do 2 apply shape2_map.
  assert (shape2 h w bg) as Hbg by by apply shape2_map.
  eexists. split.
  - unfold visualize_depth. cbv [mbind io_bind lift emit mret io_ret].
    rewrite Hdmax, Hmax, Hmin. fold im. fold bg.
    rewrite (composite2_ok h w) by done. reflexivity.
  - intros i j Hi Hj.
    destruct (shape2_px h w alpha i j Halpha Hi Hj) as [a Ha].
    destruct (shape2_px h w depth i j Hdepth Hi Hj) as [v Hv].
    rewrite px2_map, !px2_zip_with. unfold bg.
    rewrite !px2_map, Ha. unfold im.
    rewrite (rescale_flat v0 (clamp v0 depth) i j (cl v)); [done|].
    unfold clamp. by rewrite px2_map, Hv.
Qed.

(** C2 fails on a flat foreground.  When every foreground pixel has the one
    depth [v0], below the background sentinel [s], the clamped raster is
    flat, the rescaling divides by zero, and no pixel of the written image
    has a finite value: the foreground minimum is not mapped to 255. *)
Theorem flat_foreground_is_not_rescaled (fs : gmap string array3)
    (exr_f alpha_exr outpath : string) (h w : nat) (a d : array3)
    (i1 j1 i2 j2 : nat) (v0 s : Qc) :
  fs !! alpha_exr = Some a → fs !! exr_f = Some d →
  shape3 h w 3 a → shape3 h w 3 d → channels_same a → channels_same d →
  px3 d i1 j1 0 = Some v0 → px3 d i2 j2 0 = Some s → v0 < s →
  (∀ i j v, px3 d i j 0 = Some v → v = v0 ∨ v = s) →
  ∃ out img,
    extract_depth fs exr_f alpha_exr outpath true
    = ([NpSave (npy_path outpath) out;
        ImWriteGray (png_path (npy_path outpath)) img], Ok tt) ∧
    ∀ i j, (i < h)%nat → (j < w)%nat → px2 img i j = Some None.
Proof.
  intros Ha Hd Hsha Hshd Hsa Hsd Hv0 Hs Hlt Honly.
  destruct (dstack_with_alpha h w d (chan 0 a)) as (out & Hout & _ & _).
  { by eapply shape3_shape2. }
  { by eapply shape2_chan. }
  destruct (visualize_depth_flat h w (chan 0 a) (chan 0 d) (npy_path outpath) v0 s)
    as (img & Hvis & Hpx); try done.
  { by eapply shape2_chan. }
  { by eapply shape2_chan. }
  { apply elem_of_concat_px. exists i1, j1. apply (px2_chan h w); [done|lia|done]. }
  { apply elem_of_concat_px. exists i2, j2. apply (px2_chan h w); [done|lia|done]. }
  { intros v (i & j & Hv)%elem_of_concat_px. apply (Honly i j).
    apply (chan_px3 h w); [done|lia|done]. }
  exists out, img. split; [|done].
  rewrite (extract_depth_checked h w h w _ _ _ _ _ a d) by done.
  rewrite Hout. cbn [when]. by rewrite Hvis.
Qed.

Lemma flat_foreground_is_not_rescaled_witness :
  ∃ out img,
    extract_depth (depth_files [[gray 1; gray 0]] [[gray 1; gray (Qc_of_Z 5)]])
      "depth.exr" "alpha.exr" "out" true
    = ([NpSave (npy_path "out") out;
        ImWriteGray (png_path (npy_path "out")) img], Ok tt) ∧
    ∀ i j, (i < 1)%nat → (j < 2)%nat → px2 img i j = Some None.
Proof.
  apply (flat_foreground_is_not_rescaled _ _ _ _ 1 2
           [[gray 1; gray 0]] [[gray 1; gray (Qc_of_Z 5)]]
           0 0 0 1 1 (Qc_of_Z 5)).
  - vm_compute; reflexivity.
  - vm_compute; reflexivity.
  - shapes.
  - shapes.
  - apply (channels_same_iff 1 2); [shapes|]. split; by_compute.
  - apply (channels_same_iff 1 2); [shapes|]. split; by_compute.
  - reflexivity.
  - reflexivity.
  - by_compute.
  - intros [|i] [|[|j]] v; cbn; intros [= <-]; auto.
Defined.

(** The same input, evaluated: depth 1 in the foreground, sentinel 5 in the
    background. *)
Example flat_foreground_example :
  extract_depth (depth_files [[gray 1; gray 0]] [[gray 1; gray (Qc_of_Z 5)]])
    "depth.exr" "alpha.exr" "out" true
  = ([NpSave "out.npy" [[[1; 1; 1; 1]; [Qc_of_Z 5; Qc_of_Z 5; Qc_of_Z 5; 0]]];
      ImWriteGray "out.png" [[None; None]]], Ok tt).
Proof. vm_compute. reflexivity. Qed.

(** ** Video assembly *)







(** ** Lights *)

Lemma alter_last {A} (f : A → A) (l : list A) (x : A) :
  alter f (length l) (l ++ [x]) = l ++ [f x].
Proof.
  rewrite <-(Nat.add_0_r (length l)) at 1. by rewrite alter_app_r.
Qed.

(** The common shape of the three helpers under an unsupported engine: the
    lamp is added, named and sized, then the strength block raises. *)
Lemma add_then_fail (s : scene) (type : string) (loc rot : vec3)
    (name : option string) (resize : lamp → lamp) (energy : Qc) :
  engine s ≠ "CYCLES" →
  (lamp_add type loc rot;;
   obj ← active_object;
   match name with
   | Some n => update obj (set_name n)
   | None => mret tt
   end;;
   update obj resize;;
   set_strength obj energy;;
   mret obj) s
  = (with_lamp s (resize (new_lamp type loc rot name None None)),
     Raise (NotImplementedError (engine s))).
Proof.
  intros Hengine.
  cbv [mbind bpy_bind lamp_add active_object active set_strength
       render_engine raise mret bpy_ret].
  destruct name as [n|];
    cbv [update objects engine active];
    rewrite bool_decide_eq_false_2 by done;
    rewrite ?alter_last; reflexivity.
Qed.

(** C6 (amended). Under any engine other than CYCLES each of the three
    helpers raises NotImplementedError carrying the engine's name, and the
    energy is not set; by then the new lamp, with its name and its size,
    has been added to the scene and made active, and it stays there. *)
Theorem add_light_unsupported_engine (s : scene) (xyz rot_vec_rad : vec3)
    (name : option string) (energy size : Qc) :
  engine s ≠ "CYCLES" →
  add_light_sun xyz rot_vec_rad name energy size s
  = (with_lamp s (new_lamp "SUN" xyz rot_vec_rad name (Some size) None),
     Raise (NotImplementedError (engine s))) ∧
  add_light_area xyz rot_vec_rad name energy size s
  = (with_lamp s (new_lamp "AREA" xyz rot_vec_rad name None (Some size)),
     Raise (NotImplementedError (engine s))) ∧
  add_light_point xyz name energy s
  = (with_lamp s (new_lamp "POINT" xyz (0, 0, 0) name (Some 0) None),
     Raise (NotImplementedError (engine s))).
Proof.
  intros Hengine. unfold add_light_sun, add_light_area, add_light_point.
  by rewrite !add_then_fail.
Qed.

Lemma add_light_unsupported_engine_witness :
  add_light_sun (0, 0, 0) (0, 0, 0) (Some "key") 1 1
    (empty_scene "BLENDER_RENDER")
  = (with_lamp (empty_scene "BLENDER_RENDER")
       (new_lamp "SUN" (0, 0, 0) (0, 0, 0) (Some "key") (Some 1) None),
     Raise (NotImplementedError (engine (empty_scene "BLENDER_RENDER")))) ∧
  add_light_area (0, 0, 0) (0, 0, 0) (Some "key") 1 1
    (empty_scene "BLENDER_RENDER")
  = (with_lamp (empty_scene "BLENDER_RENDER")
       (new_lamp "AREA" (0, 0, 0) (0, 0, 0) (Some "key") None (Some 1)),
     Raise (NotImplementedError (engine (empty_scene "BLENDER_RENDER")))) ∧
  add_light_point (0, 0, 0) (Some "key") 1 (empty_scene "BLENDER_RENDER")
  = (with_lamp (empty_scene "BLENDER_RENDER")
       (new_lamp "POINT" (0, 0, 0) (0, 0, 0) (Some "key") (Some 0) None),
     Raise (NotImplementedError (engine (empty_scene "BLENDER_RENDER")))).
Proof.
  apply (add_light_unsupported_engine (empty_scene "BLENDER_RENDER")).
  discriminate.
Defined.

(** C6, as stated, fails: under another engine [add_light_sun] raises, but
    the scene is not what it was; the lamp it added is still in it. *)
Lemma add_light_sun_leaves_lamp :
  (add_light_sun (0, 0, 0) (0, 0, 0) None 1 1 (empty_scene "BLENDER_RENDER")).2
  = Raise (NotImplementedError "BLENDER_RENDER") ∧
  (add_light_sun (0, 0, 0) (0, 0, 0) None 1 1 (empty_scene "BLENDER_RENDER")).1
  ≠ empty_scene "BLENDER_RENDER" ∧
  length (objects (add_light_sun (0, 0, 0) (0, 0, 0) None 1 1
                     (empty_scene "BLENDER_RENDER")).1) = 1%nat.
Proof.
  split_and!; [reflexivity| |reflexivity].
  intros H. by apply (f_equal (λ s, length (objects s))) in H.
Qed.

(** Under CYCLES the same helper succeeds and sets the energy. *)
Lemma add_light_sun_cycles (s : scene) (xyz rot_vec_rad : vec3)
    (name : option string) (energy size : Qc) :
  engine s = "CYCLES" →
  add_light_sun xyz rot_vec_rad name energy size s
  = (with_lamp s (set_emission energy
       (new_lamp "SUN" xyz rot_vec_rad name (Some size) None)),
     Ok (length (objects s))).
Proof.
  intros Hengine. unfold add_light_sun.
  cbv [mbind bpy_bind lamp_add active_object active set_strength
       render_engine raise mret bpy_ret].
  destruct name as [n|];
    cbv [update objects engine active];
    rewrite bool_decide_eq_true_2 by done;
    rewrite ?alter_last; cbv [update objects engine active];
    rewrite ?alter_last; reflexivity.
Qed.

(** * Further properties *)

(** ** [collapse_passes] and the intrinsic images: errors and effects *)

Lemma mapR_first_fail {A B} (f : A → result B) pre x post e :
  Forall (λ y, is_ok (f y) = true) pre → f x = Raise e →
  mapR f (pre ++ x :: post) = Raise e.
Proof.
  intros Hpre Hx. induction Hpre as [|y pre Hy _ IH]; cbn [app mapR].
  - by rewrite Hx.
  - destruct (f y); [|done]. by rewrite bind_Ok, IH.
Qed.

(** X1. A single pass is neither summed nor compared with anything:
    [collapse_passes] returns the stack of its own four channels, so the
    saved composite has the pass's R, G, B and alpha at every pixel. *)
Theorem collapse_passes_single (data : gmap string raster) (comp : string)
    (h w : nat) (r g b a : raster) :
  data !! ((comp +:+ ".") +:+ "R") = Some r →
  data !! ((comp +:+ ".") +:+ "G") = Some g →
  data !! ((comp +:+ ".") +:+ "B") = Some b →
  data !! (comp +:+ ".A") = Some a →
  shape2 h w r → shape2 h w g → shape2 h w b → shape2 h w a →
  ∃ arr, collapse_passes data [comp] = Ok arr ∧ shape3 h w 4 arr ∧
    ∀ i j x y z t,
      px2 r i j = Some x → px2 g i j = Some y → px2 b i j = Some z →
      px2 a i j = Some t → px2 arr i j = Some [x; y; z; t].
Proof.
  intros HR HG HB HA Hr Hg Hb Ha.
  destruct (collapse_passes_ok data [comp] h w a) as (arr & Harr & Hsh & Hpx);
    [done| |by intros c ->%list_elem_of_singleton|done|].
  { intros c ch ->%list_elem_of_singleton Hch. elems Hch; eauto. }
  exists arr. split_and!; [done..|]. intros i j x y z t Hx Hy Hz Ht.
  rewrite (Hpx i j t Ht). unfold sum_px, total, pass_px.
  cbn [fmap list_fmap foldr]. rewrite HR, HG, HB. cbn [mbind option_bind].
  rewrite Hx, Hy, Hz. cbn [default]. unfold id.
  by rewrite !Qcplus_0_r.
Qed.

(** X2. A pass whose red channel is absent from the container stops
    [collapse_passes] with the [KeyError] of that channel, whatever follows
    it in the list; the passes before it have been read, nothing is
    returned. *)
Theorem collapse_passes_missing_channel (data : gmap string raster)
    (pre post : list string) (comp : string) :
  Forall (λ c, is_Some (data !! ((c +:+ ".") +:+ "R"))) pre →
  data !! ((comp +:+ ".") +:+ "R") = None →
  collapse_passes data (pre ++ comp :: post)
  = Raise (KeyError ((comp +:+ ".") +:+ "R")).
Proof.
  intros Hpre Hnone. unfold collapse_passes. cbn [mapR].
  rewrite (mapR_first_fail
             (λ c : string, dict_get data ((c +:+ ".") +:+ "R"))
             pre comp post (KeyError ((comp +:+ ".") +:+ "R"))).
  - reflexivity.
  - eapply Forall_impl; [exact Hpre|]. intros c [x Hx]. unfold dict_get.
    by rewrite Hx.
  - unfold dict_get. by rewrite Hnone.
Qed.

(** An event list with no directory creation in it. *)
Ltac no_makedirs :=
  let d := fresh "d" in let Hin := fresh "Hin" in
  intros d Hin;
  repeat (apply elem_of_cons in Hin as [Hin|Hin]; [discriminate Hin|]);
  by apply elem_of_nil in Hin.

(** X4. The output directory is created exactly when it is missing, and
    before any pass is read: whatever happens afterwards, the log starts
    with that creation and holds no other. *)
Theorem intrinsic_makedirs_first (data : gmap string raster)
    (outdir_exists : bool) (outdir : string) (vis : bool) :
  ∃ rest,
    events (extract_intrinsic_images_from_lighting_passes
              data outdir_exists outdir vis)
    = (if outdir_exists then [] else [Makedirs outdir]) ++ rest ∧
    ∀ d, Makedirs d ∉ rest.
Proof.
  unfold extract_intrinsic_images_from_lighting_passes.
  destruct outdir_exists, vis;
    cbv [mbind io_bind lift emit when negb mret io_ret events];
    (destruct (collapse_passes data ["diffuse_color"; "glossy_color"])
       as [albedo|]; [|exists []; split; [done|no_makedirs]]);
    (destruct (collapse_passes data ["diffuse_indirect"; "diffuse_direct"])
       as [shading|]; [|eexists; split; [reflexivity|no_makedirs]]);
    (destruct (collapse_passes data ["glossy_indirect"; "glossy_direct"])
       as [specularity|]; [|eexists; split; [reflexivity|no_makedirs]]);
    (destruct (reconstruct albedo shading specularity) as [recon|];
       [|eexists; split; [reflexivity|no_makedirs]]);
    destruct (collapse_passes data ["composite"]);
    eexists; (split; [reflexivity|no_makedirs]).
Qed.

Lemma intrinsic_outcome (data : gmap string raster) outdir_exists outdir vis
    albedo shading specularity recon :
  collapse_passes data ["diffuse_color"; "glossy_color"] = Ok albedo →
  collapse_passes data ["diffuse_indirect"; "diffuse_direct"] = Ok shading →
  collapse_passes data ["glossy_indirect"; "glossy_direct"] = Ok specularity →
  reconstruct albedo shading specularity = Ok recon →
  outcome (extract_intrinsic_images_from_lighting_passes
             data outdir_exists outdir vis)
  = (collapse_passes data ["composite"];; Ok tt).
Proof.
  intros Ha Hs Hp Hr. unfold extract_intrinsic_images_from_lighting_passes.
  destruct outdir_exists, vis;
    cbv [mbind io_bind lift emit when negb mret io_ret outcome];
    rewrite Ha; cbv beta iota; rewrite Hs; cbv beta iota;
    rewrite Hp; cbv beta iota; rewrite Hr; cbv beta iota;
    by destruct (collapse_passes data ["composite"]).
Qed.

(** X5. A container without the composite pass still yields the four
    decomposed arrays on disk; only then does the call stop, with the
    [KeyError] of the composite's red channel. *)
Theorem intrinsic_without_composite (data : gmap string raster)
    (outdir_exists : bool) (outdir : string) (vis : bool) (h w : nat)
    (alpha : raster) :
  passes_shaped data h w alpha colour_passes →
  passes_shaped data h w alpha shading_passes →
  passes_shaped data h w alpha specular_passes →
  shape2 h w alpha →
  data !! "composite.R" = None →
  ∃ albedo shading specularity recon,
    saved (events (extract_intrinsic_images_from_lighting_passes
                     data outdir_exists outdir vis))
    = [(path_join outdir "albedo.npy", albedo);
       (path_join outdir "shading.npy", shading);
       (path_join outdir "specularity.npy", specularity);
       (path_join outdir "recon.npy", recon)] ∧
    outcome (extract_intrinsic_images_from_lighting_passes
               data outdir_exists outdir vis)
    = Raise (KeyError "composite.R").
Proof.
  intros [HC HCa] [HS HSa] [HP HPa] Halpha Hnone.
  destruct (collapse_passes_ok data colour_passes h w alpha)
    as (albedo & Ha & Hsha & _); [done..|].
  destruct (collapse_passes_ok data shading_passes h w alpha)
    as (shading & Hs & Hshs & _); [done..|].
  destruct (collapse_passes_ok data specular_passes h w alpha)
    as (specularity & Hp & Hshp & _); [done..|].
  destruct (reconstruct_ok h w albedo shading specularity)
    as (recon & Hr & _); [done..|].
  assert (collapse_passes data ["composite"] = Raise (KeyError "composite.R"))
    as Hcomp.
  { assert (dict_get data (("composite" +:+ ".") +:+ "R")
            = Raise (KeyError "composite.R")) as Hget.
    { unfold dict_get. change (("composite" +:+ ".") +:+ "R") with "composite.R".
      by rewrite Hnone. }
    unfold collapse_passes. cbn [mapR]. by rewrite Hget. }
  exists albedo, shading, specularity, recon. split.
  - rewrite (intrinsic_saved _ _ _ _ albedo shading specularity recon) by done.
    by rewrite Hcomp.
  - rewrite (intrinsic_outcome _ _ _ _ albedo shading specularity recon) by done.
    by rewrite Hcomp.
Qed.

(** X6. The alpha channel of the reconstruction is the one of the albedo
    even when the shading and the specular passes carry other alpha
    channels: those are neither multiplied in nor added. *)
Theorem intrinsic_alpha_from_albedo (data : gmap string raster)
    (outdir_exists : bool) (outdir : string) (vis : bool) (h w : nat)
    (alpha_c alpha_s alpha_p : raster) :
  passes_shaped data h w alpha_c colour_passes →
  passes_shaped data h w alpha_s shading_passes →
  passes_shaped data h w alpha_p specular_passes →
  shape2 h w alpha_c → shape2 h w alpha_s → shape2 h w alpha_p →
  ∃ recon,
    (path_join outdir "recon.npy", recon)
    ∈ saved (events (extract_intrinsic_images_from_lighting_passes
                       data outdir_exists outdir vis)) ∧
    ∀ i j, (i < h)%nat → (j < w)%nat → px3 recon i j 3 = px2 alpha_c i j.
Proof.
  intros [HC HCa] [HS HSa] [HP HPa] Hac Has Hap.
  destruct (collapse_passes_ok data colour_passes h w alpha_c)
    as (albedo & Ha & Hsha & Hpxa); [done..|].
  destruct (collapse_passes_ok data shading_passes h w alpha_s)
    as (shading & Hs & Hshs & Hpxs); [done..|].
  destruct (collapse_passes_ok data specular_passes h w alpha_p)
    as (specularity & Hp & Hshp & Hpxp); [done..|].
  destruct (reconstruct_ok h w albedo shading specularity)
    as (recon & Hr & _ & Hpxr); [done..|].
  exists recon. split.
  - rewrite (intrinsic_saved _ _ _ _ albedo shading specularity recon) by done.
    apply elem_of_app. left. by repeat constructor.
  - intros i j Hi Hj.
    destruct (shape2_px h w alpha_c i j Hac Hi Hj) as [a Hpa].
    destruct (shape2_px h w alpha_s i j Has Hi Hj) as [s Hps].
    destruct (shape2_px h w alpha_p i j Hap Hi Hj) as [p Hpp].
    unfold px3.
    by rewrite (Hpxr i j _ _ _ _ _ _ _ _ _ _ _ _
                  (Hpxa i j a Hpa) (Hpxs i j s Hps) (Hpxp i j p Hpp)), Hpa.
Qed.

Lemma reconstruct_shape h w (albedo shading specularity recon : array3) :
  shape3 h w 4 albedo → shape3 h w 4 shading → shape3 h w 4 specularity →
  reconstruct albedo shading specularity = Ok recon →
  shape3 h w 4 recon.
Proof.
  intros Ha Hs Hp Hrecon.
  destruct (reconstruct_ok h w albedo shading specularity Ha Hs Hp)
    as (recon' & Hr & Hsh & Hpx).
  rewrite Hrecon in Hr. injection Hr as <-.
  apply shape3_intro; [done|]. intros i j px Hpix.
  destruct (px2_lt h w recon i j px Hsh Hpix) as [Hi Hj].
  destruct (shape2_px h w albedo i j) as [pa Hpa]; [by eapply shape3_shape2|done..|].
  destruct (shape2_px h w shading i j) as [ps Hps]; [by eapply shape3_shape2|done..|].
  destruct (shape2_px h w specularity i j) as [pp Hpp];
    [by eapply shape3_shape2|done..|].
  destruct (pixel4 pa) as (?&?&?&?&->); [by apply (shape3_px h w 4 albedo i j)|].
  destruct (pixel4 ps) as (?&?&?&?&->); [by apply (shape3_px h w 4 shading i j)|].
  destruct (pixel4 pp) as (?&?&?&?&->);
    [by apply (shape3_px h w 4 specularity i j)|].
  erewrite Hpx in Hpix by done. by injection Hpix as <-.
Qed.

(** X7. With all seven passes well formed the call succeeds.  Its log is the
    creation of the output directory if that is missing, then, in this
    order, albedo, shading, specularity, reconstruction and composite, each
    saved and, with [vis], drawn right after its save (every drawing call
    being taken to return); all five saved arrays have the height and width
    of the passes and four channels. *)
Theorem intrinsic_full_run (data : gmap string raster) (outdir_exists : bool)
    (outdir : string) (vis : bool) (h w : nat) (alpha alpha_k : raster) :
  passes_shaped data h w alpha colour_passes →
  passes_shaped data h w alpha shading_passes →
  passes_shaped data h w alpha specular_passes →
  passes_shaped data h w alpha_k ["composite"] →
  shape2 h w alpha → shape2 h w alpha_k →
  ∃ albedo shading specularity recon composite,
    extract_intrinsic_images_from_lighting_passes data outdir_exists outdir vis
    = ((if outdir_exists then [] else [Makedirs outdir]) ++
       NpSave (path_join outdir "albedo.npy") albedo ::
       (if vis then [MatrixAsImage albedo (path_join outdir "albedo.png")]
        else []) ++
       NpSave (path_join outdir "shading.npy") shading ::
       (if vis then [MatrixAsImage shading (path_join outdir "shading.png")]
        else []) ++
       NpSave (path_join outdir "specularity.npy") specularity ::
       (if vis
        then [MatrixAsImage specularity (path_join outdir "specularity.png")]
        else []) ++
       NpSave (path_join outdir "recon.npy") recon ::
       (if vis then [MatrixAsImage recon (path_join outdir "recon.png")]
        else []) ++
       NpSave (path_join outdir "composite.npy") composite ::
       (if vis
        then [MatrixAsImage composite (path_join outdir "composite.png")]
        else []),
       Ok tt) ∧
    shape3 h w 4 albedo ∧ shape3 h w 4 shading ∧ shape3 h w 4 specularity ∧
    shape3 h w 4 recon ∧ shape3 h w 4 composite.
Proof.
  intros [HC HCa] [HS HSa] [HP HPa] [HK HKa] Halpha Halphak.
  destruct (collapse_passes_ok data colour_passes h w alpha)
    as (albedo & Ha & Hsha & _); [done..|].
  destruct (collapse_passes_ok data shading_passes h w alpha)
    as (shading & Hs & Hshs & _); [done..|].
  destruct (collapse_passes_ok data specular_passes h w alpha)
    as (specularity & Hp & Hshp & _); [done..|].
  destruct (reconstruct_ok h w albedo shading specularity)
    as (recon & Hr & _ & _); [done..|].
  destruct (collapse_passes_ok data ["composite"] h w alpha_k)
    as (composite & Hk & Hshk & _); [done..|].
  exists albedo, shading, specularity, recon, composite.
  split_and!; [|done|done|done| |done].
  2:{ exact (reconstruct_shape h w albedo shading specularity recon
               Hsha Hshs Hshp Hr). }
  unfold extract_intrinsic_images_from_lighting_passes.
  unfold colour_passes, shading_passes, specular_passes in *.
  destruct outdir_exists, vis;
    cbv [mbind io_bind lift emit when negb mret io_ret];
    rewrite Ha; cbv beta iota; rewrite Hs; cbv beta iota;
    rewrite Hp; cbv beta iota; rewrite Hr; cbv beta iota;
    by rewrite Hk.
Qed.

(** Well-formedness of one-pixel passes, by evaluation. *)
Ltac passes_dot x :=
  let comp := fresh "comp" in let ch := fresh "ch" in
  let Hc := fresh "Hc" in let Hch := fresh "Hch" in
  split;
  [ intros comp ch Hc Hch; exists (dot x); split; [|apply shape2_dot];
    elems Hc; elems Hch; vm_compute; reflexivity
  | intros comp Hc; elems Hc; vm_compute; reflexivity ].

Lemma collapse_passes_single_witness :
  ∃ arr : array3,
    collapse_passes (synthetic (dot 1) (dot 2) (dot 0) (dot 1)) ["composite"]
    = Ok arr ∧ shape3 1 1 4 arr ∧
    ∀ i j x y z t,
      px2 (dot 0) i j = Some x → px2 (dot 0) i j = Some y →
      px2 (dot 0) i j = Some z → px2 (dot 1) i j = Some t →
      px2 arr i j = Some [x; y; z; t].
Proof.
  apply (collapse_passes_single _ "composite" 1 1);
    first [apply shape2_dot | vm_compute; reflexivity].
Defined.

Lemma collapse_passes_missing_channel_witness :
  collapse_passes (synthetic (dot 1) (dot 2) (dot 0) (dot 1))
    (["diffuse_color"] ++ "glossy" :: ["glossy_color"])
  = Raise (KeyError (("glossy" +:+ ".") +:+ "R")).
Proof.
  apply collapse_passes_missing_channel.
  - apply Forall_cons_2; [|constructor]. exists (dot 1). vm_compute; reflexivity.
  - vm_compute; reflexivity.
Defined.

Lemma intrinsic_without_composite_witness :
  ∃ albedo shading specularity recon,
    saved (events (extract_intrinsic_images_from_lighting_passes
                     (delete "composite.R"
                        (synthetic (dot 1) (dot 2) (dot 0) (dot 1)))
                     false "out" true))
    = [(path_join "out" "albedo.npy", albedo);
       (path_join "out" "shading.npy", shading);
       (path_join "out" "specularity.npy", specularity);
       (path_join "out" "recon.npy", recon)] ∧
    outcome (extract_intrinsic_images_from_lighting_passes
               (delete "composite.R"
                  (synthetic (dot 1) (dot 2) (dot 0) (dot 1)))
               false "out" true)
    = Raise (KeyError "composite.R").
Proof.
  apply (intrinsic_without_composite _ false "out" true 1 1 (dot 1)).
  - passes_dot 1.
  - passes_dot 2.
  - passes_dot 2.
  - apply shape2_dot.
  - vm_compute; reflexivity.
Defined.

Lemma intrinsic_alpha_from_albedo_witness :
  ∃ recon,
    (path_join "out" "recon.npy", recon)
    ∈ saved (events (extract_intrinsic_images_from_lighting_passes
                       (<["diffuse_indirect.A" := dot 0]>
                          (<["diffuse_direct.A" := dot 0]>
                             (synthetic (dot 1) (dot 2) (dot 0) (dot 1))))
                       true "out" false)) ∧
    ∀ i j, (i < 1)%nat → (j < 1)%nat → px3 recon i j 3 = px2 (dot 1) i j.
Proof.
  apply (intrinsic_alpha_from_albedo _ true "out" false 1 1
           (dot 1) (dot 0) (dot 1)).
  - passes_dot 1.
  - passes_dot 2.
  - passes_dot 2.
  - apply shape2_dot.
  - apply shape2_dot.
  - apply shape2_dot.
Defined.

Lemma intrinsic_full_run_witness :
  ∃ albedo shading specularity recon composite,
    extract_intrinsic_images_from_lighting_passes
      (synthetic (dot 1) (dot 2) (dot 0) (dot 1)) false "out" true
    = ((if false then [] else [Makedirs "out"]) ++
       NpSave (path_join "out" "albedo.npy") albedo ::
       (if true then [MatrixAsImage albedo (path_join "out" "albedo.png")]
        else []) ++
       NpSave (path_join "out" "shading.npy") shading ::
       (if true then [MatrixAsImage shading (path_join "out" "shading.png")]
        else []) ++
       NpSave (path_join "out" "specularity.npy") specularity ::
       (if true
        then [MatrixAsImage specularity (path_join "out" "specularity.png")]
        else []) ++
       NpSave (path_join "out" "recon.npy") recon ::
       (if true then [MatrixAsImage recon (path_join "out" "recon.png")]
        else []) ++
       NpSave (path_join "out" "composite.npy") composite ::
       (if true
        then [MatrixAsImage composite (path_join "out" "composite.png")]
        else []),
       Ok tt) ∧
    shape3 1 1 4 albedo ∧ shape3 1 1 4 shading ∧ shape3 1 1 4 specularity ∧
    shape3 1 1 4 recon ∧ shape3 1 1 4 composite.
Proof.
  apply (intrinsic_full_run _ false "out" true 1 1 (dot 1) (dot 1)).
  - passes_dot 1.
  - passes_dot 2.
  - passes_dot 2.
  - passes_dot 0.
  - apply shape2_dot.
  - apply shape2_dot.
Defined.

(** ** Normals: errors, effects and the colour range *)

(** X8. The channels are read in the order R, G, B: the first one absent
    from the container stops [extract_normal] with its [KeyError], before
    anything is written. *)
Theorem extract_normal_missing_channel (data : gmap string raster)
    (outpath : string) (vis : bool) (present absent : list string)
    (key : string) :
  ["R"; "G"; "B"] = present ++ key :: absent →
  Forall (λ k, is_Some (data !! k)) present →
  data !! key = None →
  extract_normal data outpath vis = ([], Raise (KeyError key)).
Proof.
  intros Hsplit Hpresent Hnone. unfold extract_normal.
  destruct present as [|k1 [|k2 [|k3 present]]]; simplify_eq/=.
  - unfold dict_get. by rewrite Hnone.
  - apply Forall_cons in Hpresent as [[r Hr] _].
    unfold dict_get. by rewrite Hr, Hnone.
  - apply Forall_cons in Hpresent as [[r Hr] [[g Hg] _]%Forall_cons].
    unfold dict_get. by rewrite Hr, Hg, Hnone.
  - by destruct present.
Qed.

(** X9. Whether or not the normals are visualized, the same array is saved
    under the same name. *)
Theorem extract_normal_vis_frame (data : gmap string raster)
    (outpath : string) :
  saved (events (extract_normal data outpath true))
  = saved (events (extract_normal data outpath false)).
Proof.
  unfold extract_normal.
  cbv [mbind io_bind lift emit when mret io_ret events].
  destruct (dict_get data "R") as [r|]; [|done].
  destruct (dict_get data "G") as [g|]; [|done].
  destruct (dict_get data "B") as [b|]; [|done].
  destruct (np_dstack [A2 r; A2 g; A2 b]) as [arr|]; [|done].
  destruct (dict_get data "A") as [alpha|]; [|done].
  destruct (np_dstack [A3 arr; A2 alpha]) as [out|]; [|done].
  destruct (np_dstack [A2 alpha; A2 alpha; A2 alpha]) as [alpha3|]; [|done].
  by destruct (composite3 _ _ _).
Qed.

(** The run of [extract_normal] with [vis], pixel by pixel. *)
Lemma extract_normal_pixels (data : gmap string raster) (outpath : string)
    (h w : nat) (r g b alpha : raster) :
  data !! "R" = Some r → data !! "G" = Some g → data !! "B" = Some b →
  data !! "A" = Some alpha →
  shape2 h w r → shape2 h w g → shape2 h w b → shape2 h w alpha →
  ∃ out img,
    extract_normal data outpath true
    = ([NpSave (npy_path outpath) out;
        ImWriteColor (png_path (npy_path outpath)) img], Ok tt) ∧
    shape2 h w img ∧
    ∀ i j nr ng nb a,
      px2 r i j = Some nr → px2 g i j = Some ng → px2 b i j = Some nb →
      px2 alpha i j = Some a →
      px2 img i j
      = Some [astype_uint8 (a * normal_to_color nb + (1 - a) * 0);
              astype_uint8 (a * normal_to_color ng + (1 - a) * 0);
              astype_uint8 (a * normal_to_color nr + (1 - a) * 0)].
Proof.
  intros HR HG HB HA Hr Hg Hb Halpha.
  destruct (dstack_rgb h w r g b Hr Hg Hb) as (arr & Harr & Hsharr & Hpxarr).
  destruct (dstack_with_alpha h w arr alpha) as (out & Hout & _);
    [by eapply shape3_shape2|done|].
  destruct (dstack_rgb h w alpha alpha alpha) as (al3 & Hal3 & Hshal3 & Hpxal3);
    [done..|].
  set (im := map (map (map normal_to_color)) arr).
  set (bg := map (map (map (λ _ : Qc, 0))) im).
  assert (shape3 h w 3 im) as Him by by apply shape3_map.
  assert (shape3 h w 3 bg) as Hbg by by apply shape3_map.
  pose proof (composite3_ok h w 3 al3 im bg Hshal3 Him Hbg) as Hcomp.
  eexists out, _. split_and!.
  - unfold extract_normal.
    cbv [mbind io_bind lift emit when mret io_ret].
    rewrite (dict_get_Some _ _ r), (dict_get_Some _ _ g),
      (dict_get_Some _ _ b) by done.
    rewrite Harr, (dict_get_Some _ _ alpha) by done. cbv beta iota.
    rewrite Hout. cbv beta iota. rewrite Hal3. fold im. fold bg.
    rewrite Hcomp. reflexivity.
  - apply shape2_map.
    repeat apply shape2_zip_with; try apply shape2_map;
      by eapply shape3_shape2.
  - intros i j nr ng nb a Hnr Hng Hnb Ha.
    pose proof (Hpxarr i j nr ng nb Hnr Hng Hnb) as Hparr.
    pose proof (Hpxal3 i j a a a Ha Ha Ha) as Hpal.
    rewrite px2_map, !px2_zip_with. unfold bg, im.
    rewrite !px2_map, Hpal, Hparr. reflexivity.
Qed.





(** X11. Wherever the normal is (0, 0, 1), facing the viewer, and the pixel
    is opaque, the image holds the colour (B, G, R) = (0, 127, 127). *)
Theorem extract_normal_facing_viewer (data : gmap string raster)
    (outpath : string) (h w : nat) (r g b alpha : raster) (i j : nat) :
  data !! "R" = Some r → data !! "G" = Some g → data !! "B" = Some b →
  data !! "A" = Some alpha →
  shape2 h w r → shape2 h w g → shape2 h w b → shape2 h w alpha →
  px2 r i j = Some 0 → px2 g i j = Some 0 → px2 b i j = Some 1 →
  px2 alpha i j = Some 1 →
  ∃ out img,
    extract_normal data outpath true
    = ([NpSave (npy_path outpath) out;
        ImWriteColor (png_path (npy_path outpath)) img], Ok tt) ∧
    px2 img i j = Some [0; 127; 127]%Z.
Proof.
  intros HR HG HB HA Hr Hg Hb Halpha Hnr Hng Hnb Hpa.
  destruct (extract_normal_pixels data outpath h w r g b alpha)
    as (out & img & Hrun & _ & Hpx); [done..|].
  exists out, img. split; [done|].
  by rewrite (Hpx i j 0 0 1 1).
Qed.


Lemma extract_normal_missing_channel_witness :
  extract_normal (delete "G" (normal_map (dot 0) (dot 0) (dot 1) (dot 1)))
    "normal" true
  = ([], Raise (KeyError "G")).
Proof.
  apply (extract_normal_missing_channel _ _ _ ["R"] ["B"]).
  - reflexivity.
  - apply Forall_cons_2; [|constructor]. exists (dot 0). vm_compute; reflexivity.
  - vm_compute; reflexivity.
Defined.


Lemma extract_normal_facing_viewer_witness :
  ∃ out img,
    extract_normal (normal_map (dot 0) (dot 0) (dot 1) (dot 1)) "normal" true
    = ([NpSave (npy_path "normal") out;
        ImWriteColor (png_path (npy_path "normal")) img], Ok tt) ∧
    px2 img 0 0 = Some [0; 127; 127]%Z.
Proof.
  apply (extract_normal_facing_viewer _ "normal" 1 1
           (dot 0) (dot 0) (dot 1) (dot 1));
    first [apply shape2_dot | vm_compute; reflexivity].
Defined.

(** ** Depth: unreadable files, shapes, flat rasters *)

(** X12. A file that cannot be read makes [extract_depth] fail with a
    [TypeError] at the first subscript, before anything is written: at once
    for the alpha file, and after the alpha checks for the depth file. *)
Theorem extract_depth_unreadable (fs : gmap string array3)
    (exr_f alpha_exr outpath : string) (vis_raw : bool) (h w : nat)
    (a : array3) :
  (fs !! alpha_exr = None →
   extract_depth fs exr_f alpha_exr outpath vis_raw = ([], Raise TypeError)) ∧
  (fs !! alpha_exr = Some a → shape3 h w 3 a → channels_same a →
   fs !! exr_f = None →
   extract_depth fs exr_f alpha_exr outpath vis_raw = ([], Raise TypeError)).
Proof.
  split.
  - intros Hnone. unfold extract_depth, imread. by rewrite Hnone.
  - intros Ha Hsh Hsame Hnone. unfold extract_depth, imread.
    rewrite Ha, Hnone, (channels_identical_same h w) by done.
    cbv [mbind io_bind lift py_assert subscript]. cbv [mbind result_bind].
    by rewrite (channel_ok h w 3) by (done || lia).
Qed.

Lemma zipR_length_mismatch {A B C} (f : A → B → result C) xs ys :
  (∀ x y e, f x y = Raise e → e = ValueError) →
  length xs ≠ length ys → zipR f xs ys = Raise ValueError.
Proof.
  intros Hf. revert ys. induction xs as [|x xs IH]; intros [|y ys] Hlen;
    try done. cbn [zipR].
  destruct (f x y) as [z|e] eqn:Hxy.
  - rewrite bind_Ok, IH; [done|]. cbn in Hlen. lia.
  - by rewrite (Hf x y e Hxy).
Qed.

Lemma concat_channels_mismatch h w h' w' (a b : array3) :
  shape2 h w a → shape2 h' w' b →
  h ≠ h' ∨ (0 < h)%nat ∧ w ≠ w' →
  concat_channels a b = Raise ValueError.
Proof.
  intros [Ha Hra] [Hb Hrb] [Hh|[Hpos Hw]]; unfold concat_channels.
  - apply zipR_length_mismatch; [|lia].
    intros x y e. by apply zipR_raise.
  - destruct (decide (h = h')) as [<-|Hne].
    2:{ apply zipR_length_mismatch; [|lia].
        intros x y e. by apply zipR_raise. }
    destruct a as [|ra a]; [cbn in Ha; lia|].
    destruct b as [|rb b]; [cbn in Hb; lia|].
    apply Forall_cons in Hra as [Hla _]. apply Forall_cons in Hrb as [Hlb _].
    cbn [zipR]. rewrite (zipR_length_mismatch _ ra rb); [done|done|lia].
Qed.

(** X13. Alpha and depth files of different heights, or of different widths,
    cannot be stacked: [extract_depth] raises [ValueError] and nothing is
    saved, although both files passed their own checks. *)
Theorem extract_depth_shape_mismatch (fs : gmap string array3)
    (exr_f alpha_exr outpath : string) (vis_raw : bool)
    (ha wa hd wd : nat) (a d : array3) :
  fs !! alpha_exr = Some a → fs !! exr_f = Some d →
  shape3 ha wa 3 a → shape3 hd wd 3 d → channels_same a → channels_same d →
  hd ≠ ha ∨ (0 < hd)%nat ∧ wd ≠ wa →
  extract_depth fs exr_f alpha_exr outpath vis_raw = ([], Raise ValueError).
Proof.
  intros Ha Hd Hsha Hshd Hsa Hsd Hne.
  rewrite (extract_depth_checked ha wa hd wd _ _ _ _ _ a d) by done.
  cbn [np_dstack foldR].
  rewrite (concat_channels_mismatch hd wd ha wa); [done| | |done].
  - by eapply shape3_shape2.
  - apply stackable_A2. by eapply shape2_chan.
Qed.

Lemma visualize_depth_uniform (alpha depth : raster) (outpath : string) (v : Qc) :
  (∀ x, x ∈ concat depth → x = v) →
  visualize_depth alpha depth outpath = ([], Raise ValueError).
Proof.
  intros Hall. unfold visualize_depth.
  cbv [mbind io_bind lift emit mret io_ret].
  destruct (concat depth) as [|x0 xs] eqn:Hconcat; [done|].
  destruct (np_max_spec (x0 :: xs) x0) as (dmax & Hdmax & Hin & _);
    [constructor|].
  rewrite Hdmax. apply Hall in Hin as ->.
  assert (filter (λ x, x < v) (x0 :: xs) = []) as ->; [|done].
  apply elem_of_nil_inv. intros x [Hlt Hx]%list_elem_of_filter.
  apply Hall in Hx as ->. by apply Qclt_not_eq in Hlt.
Qed.

(** X14. A depth raster with one single value everywhere has no foreground:
    with [vis_raw] the array is saved, then the maximum over the empty
    foreground raises [ValueError] and no image is written. *)
Theorem extract_depth_no_foreground (fs : gmap string array3)
    (exr_f alpha_exr outpath : string) (h w : nat) (a d : array3) (v : Qc) :
  fs !! alpha_exr = Some a → fs !! exr_f = Some d →
  shape3 h w 3 a → shape3 h w 3 d → channels_same a → channels_same d →
  (∀ i j x, px3 d i j 0 = Some x → x = v) →
  ∃ out,
    extract_depth fs exr_f alpha_exr outpath true
    = ([NpSave (npy_path outpath) out], Raise ValueError).
Proof.
  intros Ha Hd Hsha Hshd Hsa Hsd Hflat.
  destruct (dstack_with_alpha h w d (chan 0 a)) as (out & Hout & _ & _).
  { by eapply shape3_shape2. }
  { by eapply shape2_chan. }
  exists out.
  rewrite (extract_depth_checked h w h w _ _ _ _ _ a d) by done.
  rewrite Hout. cbn [when].
  rewrite (visualize_depth_uniform _ _ _ v); [done|].
  intros x (i & j & Hx)%elem_of_concat_px. apply (Hflat i j).
  apply (chan_px3 h w); [done|lia|done].
Qed.

(** X15. For valid inputs and without [vis_raw], the call writes one file
    and returns: the saved array has four channels, the three of the depth
    file followed by the alpha. *)
Theorem extract_depth_saved_shape (fs : gmap string array3)
    (exr_f alpha_exr outpath : string) (h w : nat) (a d : array3) :
  fs !! alpha_exr = Some a → fs !! exr_f = Some d →
  shape3 h w 3 a → shape3 h w 3 d → channels_same a → channels_same d →
  ∃ out,
    extract_depth fs exr_f alpha_exr outpath false
    = ([NpSave (npy_path outpath) out], Ok tt) ∧
    shape3 h w 4 out ∧
    ∀ i j v, px3 a i j 0 = Some v → px3 out i j 3 = Some v.
Proof.
  intros Ha Hd Hsha Hshd Hsa Hsd.
  destruct (dstack_with_alpha h w d (chan 0 a)) as (out & Hout & Hshout & Hpx).
  { by eapply shape3_shape2. }
  { by eapply shape2_chan. }
  assert (∀ i j v, px3 a i j 0 = Some v →
            ∃ px, px2 d i j = Some px ∧ length px = 3%nat ∧
                  px2 out i j = Some (px ++ [v])) as Hpixel.
  { intros i j v Hv.
    assert (px2 (chan 0 a) i j = Some v) as Hc
      by (apply (px2_chan h w); [done|lia|done]).
    destruct (px2_lt h w (chan 0 a) i j v) as [Hi Hj];
      [by eapply shape2_chan|done|].
    destruct (shape2_px h w d i j) as [px Hp]; [by eapply shape3_shape2|done..|].
    exists px. split_and!; [done|by apply (shape3_px h w 3 d i j)|].
    by apply Hpx. }
  exists out. split_and!.
  - rewrite (extract_depth_checked h w h w _ _ _ _ _ a d) by done.
    by rewrite Hout.
  - apply shape3_intro; [done|]. intros i j px Hp.
    destruct (px2_lt h w out i j px Hshout Hp) as [Hi Hj].
    destruct (shape2_px h w (chan 0 a) i j) as [v Hv];
      [by eapply shape2_chan|done..|].
    destruct (Hpixel i j v) as (px' & _ & Hlen & Hout');
      [apply (chan_px3 h w); [done|lia|done]|].
    rewrite Hout' in Hp. injection Hp as <-. rewrite length_app, Hlen. done.
  - intros i j v Hv. destruct (Hpixel i j v Hv) as (px & _ & Hlen & Hout').
    unfold px3. rewrite Hout'. cbn.
    rewrite lookup_app_r by lia. by rewrite Hlen.
Qed.

(** ** Depth: what the visualization shows *)

(** The [if vis_raw:] block with its two bounds named: [hi] is the largest
    depth below the maximum, [lo] the smallest depth. *)
Lemma visualize_depth_values h w (alpha depth : raster) (outpath : string) x y z :
  shape2 h w alpha → shape2 h w depth →
  x ∈ concat depth → y ∈ concat depth → z ∈ concat depth → x < y → y < z →
  ∃ img lo hi,
    visualize_depth alpha depth outpath
    = ([ImWriteGray (png_path outpath) img], Ok tt) ∧
    lo < hi ∧
    lo ∈ concat depth ∧ (∀ u, u ∈ concat depth → lo ≤ u) ∧
    hi ∈ concat depth ∧ (∃ u, u ∈ concat depth ∧ hi < u) ∧
    (∀ u u', u ∈ concat depth → u' ∈ concat depth → u < u' → u ≤ hi) ∧
    ∀ i j a v, px2 alpha i j = Some a → px2 depth i j = Some v →
      px2 img i j
      = Some (Some (astype_uint8
                      (a * (dtype_max
                            * (hi - (if bool_decide (hi < v) then hi else v))
                            / (hi - lo))
                       + (1 - a) * 0))).
Proof.
  intros Halpha Hdepth Hx Hy Hz Hxy Hyz.
  destruct (np_max_spec (concat depth) z Hz) as (dmax & Hdmax & Hdin & Hdle).
  assert (y ∈ filter (λ v, v < dmax) (concat depth)) as Hyfg.
  { apply list_elem_of_filter. split; [|done].
    eapply Qclt_le_trans; [exact Hyz|]. by apply Hdle. }
  destruct (np_max_spec _ y Hyfg) as (hi & Hmax & Hhi & Hmle).
  apply list_elem_of_filter in Hhi as [Hhid Hhi].
  set (cl := λ v, if bool_decide (hi < v) then hi else v).
  assert (∀ v, cl v ≤ v) as Hcl.
  { intros v. unfold cl. case_bool_decide; [by apply Qclt_le_weak|done]. }
  assert (∀ u, u ∈ concat depth → u < dmax → u ≤ hi) as Hfg.
  { intros u Hu Hlt. apply Hmle, list_elem_of_filter. by split. }
  assert (cl x = x) as Hclx.
  { unfold cl. rewrite bool_decide_eq_false_2; [done|].
    apply Qcle_not_lt. etrans; [by apply Qclt_le_weak|]. by apply Hmle. }
  assert (x ∈ concat (clamp hi depth)) as Hxc.
  { rewrite concat_clamp, <-Hclx. apply list_elem_of_In, in_map.
    by apply list_elem_of_In. }
  destruct (np_min_spec _ x Hxc) as (lo & Hmin & Hlo & Hminle).
  assert (lo < hi) as Hlt.
  { apply (Qcle_lt_trans _ x); [by apply Hminle|].
    apply (Qclt_le_trans _ y); [exact Hxy|]. by apply Hmle. }
  set (im := rescale hi lo (clamp hi depth)).
  set (bg := map (map (λ _ : option Qc, 0)) im).
  assert (shape2 h w im) as Him by by do 2 apply shape2_map.
  assert (shape2 h w bg) as Hbg by by apply shape2_map.
  assert (hi - lo ≠ 0) as Hne.
  { intros Heq. apply (proj1 (Qclt_minus_iff _ _)) in Hlt.
    unfold Qcminus in Heq. rewrite Heq in Hlt. by apply Qclt_not_eq in Hlt. }
  eexists _, lo, hi. split_and!; [|done| | |done|by exists dmax| |].
  - unfold visualize_depth. cbv [mbind io_bind lift emit mret io_ret].
    rewrite Hdmax, Hmax, Hmin. fold im. fold bg.
    rewrite (composite2_ok h w) by done. reflexivity.
  - rewrite concat_clamp in Hlo.
    apply list_elem_of_In, in_map_iff in Hlo as (u & Hu & Hin).
    apply list_elem_of_In in Hin. fold (cl u) in Hu. unfold cl in Hu.
    case_bool_decide; [|by subst].
    subst. by apply Qclt_not_eq in Hlt.
  - intros u Hu. etrans; [|apply (Hcl u)]. apply Hminle.
    rewrite concat_clamp. apply list_elem_of_In, in_map_iff.
    exists u. split; [done|]. by apply list_elem_of_In.
  - intros u u' Hu Hu' Huu'. apply Hfg; [done|].
    eapply Qclt_le_trans; [exact Huu'|]. by apply Hdle.
  - intros i j a v Ha Hv.
    rewrite px2_map, !px2_zip_with. unfold bg, im, rescale, clamp.
    rewrite !px2_map, Ha, Hv. cbn. unfold fdiv.
    by rewrite bool_decide_eq_false_2.
Qed.

(** The same at the level of the files. *)
Lemma extract_depth_values (fs : gmap string array3)
    (exr_f alpha_exr outpath : string) (h w : nat) (a d : array3)
    (i1 j1 i2 j2 i3 j3 : nat) (x y z : Qc) :
  fs !! alpha_exr = Some a → fs !! exr_f = Some d →
  shape3 h w 3 a → shape3 h w 3 d → channels_same a → channels_same d →
  px3 d i1 j1 0 = Some x → px3 d i2 j2 0 = Some y → px3 d i3 j3 0 = Some z →
  x < y → y < z →
  ∃ out img lo hi,
    extract_depth fs exr_f alpha_exr outpath true
    = ([NpSave (npy_path outpath) out;
        ImWriteGray (png_path (npy_path outpath)) img], Ok tt) ∧
    lo < hi ∧
    (∃ i j, px3 d i j 0 = Some lo) ∧
    (∀ i j u, px3 d i j 0 = Some u → lo ≤ u) ∧
    (∃ i j, px3 d i j 0 = Some hi) ∧
    (∃ i j u, px3 d i j 0 = Some u ∧ hi < u) ∧
    (∀ i j u i' j' u', px3 d i j 0 = Some u → px3 d i' j' 0 = Some u' →
       u < u' → u ≤ hi) ∧
    ∀ i j al v, px3 a i j 0 = Some al → px3 d i j 0 = Some v →
      px2 img i j
      = Some (Some (astype_uint8
                      (al * (dtype_max
                             * (hi - (if bool_decide (hi < v) then hi else v))
                             / (hi - lo))
                       + (1 - al) * 0))).
Proof.
  intros Ha Hd Hsha Hshd Hsa Hsd Hx Hy Hz Hxy Hyz.
  destruct (dstack_with_alpha h w d (chan 0 a)) as (out & Hout & _ & _).
  { by eapply shape3_shape2. }
  { by eapply shape2_chan. }
  assert (∀ u, u ∈ concat (chan 0 d) ↔ ∃ i j, px3 d i j 0 = Some u) as Hmem.
  { intros u. rewrite elem_of_concat_px. split; intros (i & j & Hu); exists i, j.
    - apply (chan_px3 h w); [done|lia|done].
    - apply (px2_chan h w); [done|lia|done]. }
  destruct (visualize_depth_values h w (chan 0 a) (chan 0 d) (npy_path outpath) x y z)
    as (img & lo & hi & Hvis & Hlt & Hlo & Hlole & Hhi & (t & Ht & Hhit) & Hfg
        & Hpx); try done.
  { by eapply shape2_chan. }
  { by eapply shape2_chan. }
  { apply Hmem; eauto. }
  { apply Hmem; eauto. }
  { apply Hmem; eauto. }
  exists out, img, lo, hi.
  split_and!; [|done|by apply Hmem| |by apply Hmem| | |].
  - rewrite (extract_depth_checked h w h w _ _ _ _ _ a d) by done.
    rewrite Hout. cbn [when]. by rewrite Hvis.
  - intros i j u Hu. apply Hlole, Hmem. eauto.
  - apply Hmem in Ht as (i & j & Ht). by exists i, j, t.
  - intros i j u i' j' u' Hu Hu'. apply Hfg; apply Hmem; eauto.
  - intros i j al v Hal Hv. apply Hpx; apply (px2_chan h w); done || lia.
Qed.

(** X16. In the visualization, a pixel at least as deep as every depth
    below the maximum (the background, or the farthest point of the object)
    is black, whatever its alpha. *)
Theorem extract_depth_far_is_black (fs : gmap string array3)
    (exr_f alpha_exr outpath : string) (h w : nat) (a d : array3)
    (i1 j1 i2 j2 i3 j3 : nat) (x y z : Qc) :
  fs !! alpha_exr = Some a → fs !! exr_f = Some d →
  shape3 h w 3 a → shape3 h w 3 d → channels_same a → channels_same d →
  px3 d i1 j1 0 = Some x → px3 d i2 j2 0 = Some y → px3 d i3 j3 0 = Some z →
  x < y → y < z →
  ∃ out img,
    extract_depth fs exr_f alpha_exr outpath true
    = ([NpSave (npy_path outpath) out;
        ImWriteGray (png_path (npy_path outpath)) img], Ok tt) ∧
    ∀ i j al v, px3 a i j 0 = Some al → px3 d i j 0 = Some v →
      (∀ i' j' u i'' j'' u', px3 d i' j' 0 = Some u →
         px3 d i'' j'' 0 = Some u' → u < u' → u ≤ v) →
      px2 img i j = Some (Some 0%Z).
Proof.
  intros Ha Hd Hsha Hshd Hsa Hsd Hx Hy Hz Hxy Hyz.
  destruct (extract_depth_values fs exr_f alpha_exr outpath h w a d
              i1 j1 i2 j2 i3 j3 x y z)
    as (out & img & lo & hi & Hrun & Hlt & (il & jl & Hlo) & Hlole
        & (ih & jh & Hhi) & (it & jt & t & Ht & Hhit) & Hfg & Hpx); try done.
  assert (hi - lo ≠ 0) as Hne.
  { intros Heq. apply (proj1 (Qclt_minus_iff _ _)) in Hlt.
    unfold Qcminus in Heq. rewrite Heq in Hlt. by apply Qclt_not_eq in Hlt. }
  exists out, img. split; [done|].
  intros i j al v Hal Hv Hfar. rewrite (Hpx i j al v) by done.
  assert ((if bool_decide (hi < v) then hi else v) = hi) as ->.
  { case_bool_decide as Hcmp; [done|].
    apply Qcle_antisym; [by apply Qcnot_lt_le|].
    by apply (Hfar ih jh hi it jt t). }
  assert (al * (dtype_max * (hi - hi) / (hi - lo)) + (1 - al) * 0 = 0)
    as -> by by field.
  done.
Qed.

Lemma rescale_antitone (hi lo u u' : Qc) :
  lo < hi → u ≤ u' →
  dtype_max * (hi - u') / (hi - lo) ≤ dtype_max * (hi - u) / (hi - lo).
Proof.
  intros Hlt Hle.
  assert (0 < hi - lo) as Hd.
  { unfold Qcminus. by apply (proj1 (Qclt_minus_iff _ _)). }
  pose proof (Qcinv_pos _ Hd) as Hinv. unfold Qcdiv.
  apply Qcmult_le_mono_nonneg_r; [by apply Qclt_le_weak|].
  apply Qcmult_le_mono_nonneg_l; [by apply Qclt_le_weak, dtype_max_pos|].
  unfold Qcminus. apply (proj1 (Qcplus_le_mono_l _ _ _)).
  by apply Qcopp_le_compat.
Qed.

(** X17. Between two pixels of equal alpha (within [0, 1]), the one nearer
    to the camera is at least as bright in the visualization. *)
Theorem extract_depth_nearer_brighter (fs : gmap string array3)
    (exr_f alpha_exr outpath : string) (h w : nat) (a d : array3)
    (i1 j1 i2 j2 i3 j3 : nat) (x y z : Qc) :
  fs !! alpha_exr = Some a → fs !! exr_f = Some d →
  shape3 h w 3 a → shape3 h w 3 d → channels_same a → channels_same d →
  px3 d i1 j1 0 = Some x → px3 d i2 j2 0 = Some y → px3 d i3 j3 0 = Some z →
  x < y → y < z →
  ∃ out img,
    extract_depth fs exr_f alpha_exr outpath true
    = ([NpSave (npy_path outpath) out;
        ImWriteGray (png_path (npy_path outpath)) img], Ok tt) ∧
    ∀ i j i' j' al v v',
      px3 a i j 0 = Some al → px3 a i' j' 0 = Some al → 0 ≤ al → al ≤ 1 →
      px3 d i j 0 = Some v → px3 d i' j' 0 = Some v' → v ≤ v' →
      ∃ b b', px2 img i j = Some (Some b) ∧ px2 img i' j' = Some (Some b') ∧
              (b' ≤ b)%Z.
Proof.
  intros Ha Hd Hsha Hshd Hsa Hsd Hx Hy Hz Hxy Hyz.
  destruct (extract_depth_values fs exr_f alpha_exr outpath h w a d
              i1 j1 i2 j2 i3 j3 x y z)
    as (out & img & lo & hi & Hrun & Hlt & _ & Hlole & _ & _ & _ & Hpx);
    try done.
  exists out, img. split; [done|].
  intros i j i' j' al v v' Hal Hal' Hal0 Hal1 Hv Hv' Hvv'.
  set (cl := λ u : Qc, if bool_decide (hi < u) then hi else u).
  assert (∀ u, cl u ≤ hi) as Hclhi.
  { intros u. unfold cl. case_bool_decide; [done|by apply Qcnot_lt_le]. }
  assert (∀ u, lo ≤ u → lo ≤ cl u) as Hcllo.
  { intros u Hu. unfold cl. case_bool_decide; [by apply Qclt_le_weak|done]. }
  assert (cl v ≤ cl v') as Hmono.
  { unfold cl. repeat case_bool_decide; try done.
    - exfalso. apply H0. by apply (Qclt_le_trans _ v).
    - by apply Qcnot_lt_le. }
  assert (∀ u, lo ≤ u →
            0 ≤ al * (dtype_max * (hi - cl u) / (hi - lo)) + (1 - al) * 0
            ∧ al * (dtype_max * (hi - cl u) / (hi - lo)) + (1 - al) * 0
              ≤ dtype_max) as Hrange.
  { intros u Hu.
    destruct (rescale_range hi lo (cl u)) as (q & Hq & Hq0 & Hq255);
      [done|by apply Hcllo|done|].
    unfold fdiv in Hq. case_bool_decide; [done|]. injection Hq as <-.
    by apply composite_range. }
  pose proof (Hrange v (Hlole i j v Hv)) as [Hv0 Hv255].
  pose proof (Hrange v' (Hlole i' j' v' Hv')) as [Hv0' Hv255'].
  destruct (astype_uint8_range _ Hv0 Hv255) as [Hb _].
  destruct (astype_uint8_range _ Hv0' Hv255') as [Hb' _].
  eexists _, _. split_and!; [by apply Hpx..|].
  fold (cl v) (cl v'). rewrite Hb, Hb'. apply Qfloor_resp_le.
  change (al * (dtype_max * (hi - cl v') / (hi - lo)) + (1 - al) * 0
          ≤ al * (dtype_max * (hi - cl v) / (hi - lo)) + (1 - al) * 0).
  apply (proj1 (Qcplus_le_mono_r _ _ _)).
  apply Qcmult_le_mono_nonneg_l; [done|]. by apply rescale_antitone.
Qed.

Lemma extract_depth_unreadable_witness :
  extract_depth ∅ "depth.exr" "alpha.exr" "out" true = ([], Raise TypeError) ∧
  extract_depth {[ "alpha.exr" := [[gray 1]] ]} "depth.exr" "alpha.exr" "out" true
  = ([], Raise TypeError).
Proof.
  split.
  - apply (proj1 (extract_depth_unreadable ∅ "depth.exr" "alpha.exr" "out" true
                    0 0 [])).
    reflexivity.
  - apply (proj2 (extract_depth_unreadable {[ "alpha.exr" := [[gray 1]] ]}
                    "depth.exr" "alpha.exr" "out" true 1 1 [[gray 1]])).
    + vm_compute; reflexivity.
    + shapes.
    + apply (channels_same_iff 1 1); [shapes|]. split; by_compute.
    + vm_compute; reflexivity.
Defined.

Lemma extract_depth_shape_mismatch_witness :
  extract_depth (depth_files [[gray 1]] [[gray 1]; [gray (Qc_of_Z 5)]])
    "depth.exr" "alpha.exr" "out" true
  = ([], Raise ValueError).
Proof.
  apply (extract_depth_shape_mismatch _ _ _ _ _ 1 1 2 1
           [[gray 1]] [[gray 1]; [gray (Qc_of_Z 5)]]).
  - vm_compute; reflexivity.
  - vm_compute; reflexivity.
  - shapes.
  - shapes.
  - apply (channels_same_iff 1 1); [shapes|]. split; by_compute.
  - apply (channels_same_iff 2 1); [shapes|]. split; by_compute.
  - left. lia.
Defined.

Lemma extract_depth_no_foreground_witness :
  ∃ out,
    extract_depth
      (depth_files [[gray 1; gray 1]] [[gray (Qc_of_Z 5); gray (Qc_of_Z 5)]])
      "depth.exr" "alpha.exr" "out" true
    = ([NpSave (npy_path "out") out], Raise ValueError).
Proof.
  apply (extract_depth_no_foreground _ _ _ _ 1 2
           [[gray 1; gray 1]] [[gray (Qc_of_Z 5); gray (Qc_of_Z 5)]]
           (Qc_of_Z 5)).
  - vm_compute; reflexivity.
  - vm_compute; reflexivity.
  - shapes.
  - shapes.
  - apply (channels_same_iff 1 2); [shapes|]. split; by_compute.
  - apply (channels_same_iff 1 2); [shapes|]. split; by_compute.
  - intros [|i] [|[|j]] v; cbn; intros [= <-]; reflexivity.
Defined.

Lemma extract_depth_saved_shape_witness :
  ∃ out,
    extract_depth
      (depth_files [[gray 1; gray 0]] [[gray 1; gray (Qc_of_Z 5)]])
      "depth.exr" "alpha.exr" "out" false
    = ([NpSave (npy_path "out") out], Ok tt) ∧
    shape3 1 2 4 out ∧
    ∀ i j v, px3 [[gray 1; gray 0]] i j 0 = Some v → px3 out i j 3 = Some v.
Proof.
  apply (extract_depth_saved_shape _ _ _ _ 1 2
           [[gray 1; gray 0]] [[gray 1; gray (Qc_of_Z 5)]]).
  - vm_compute; reflexivity.
  - vm_compute; reflexivity.
  - shapes.
  - shapes.
  - apply (channels_same_iff 1 2); [shapes|]. split; by_compute.
  - apply (channels_same_iff 1 2); [shapes|]. split; by_compute.
Defined.

Lemma extract_depth_far_is_black_witness :
  ∃ out img,
    extract_depth
      (depth_files [[gray 1; gray 0; gray 1]]
                   [[gray 1; gray (Qc_of_Z 5); gray (Qc_of_Z 3)]])
      "depth.exr" "alpha.exr" "out" true
    = ([NpSave (npy_path "out") out;
        ImWriteGray (png_path (npy_path "out")) img], Ok tt) ∧
    ∀ i j al v, px3 [[gray 1; gray 0; gray 1]] i j 0 = Some al →
      px3 [[gray 1; gray (Qc_of_Z 5); gray (Qc_of_Z 3)]] i j 0 = Some v →
      (∀ i' j' u i'' j'' u',
         px3 [[gray 1; gray (Qc_of_Z 5); gray (Qc_of_Z 3)]] i' j' 0 = Some u →
         px3 [[gray 1; gray (Qc_of_Z 5); gray (Qc_of_Z 3)]] i'' j'' 0 = Some u' →
         u < u' → u ≤ v) →
      px2 img i j = Some (Some 0%Z).
Proof.
  apply (extract_depth_far_is_black _ _ _ _ 1 3
           [[gray 1; gray 0; gray 1]]
           [[gray 1; gray (Qc_of_Z 5); gray (Qc_of_Z 3)]]
           0 0 0 2 0 1 1 (Qc_of_Z 3) (Qc_of_Z 5)).
  - vm_compute; reflexivity.
  - vm_compute; reflexivity.
  - shapes.
  - shapes.
  - apply (channels_same_iff 1 3); [shapes|]. split; by_compute.
  - apply (channels_same_iff 1 3); [shapes|]. split; by_compute.
  - reflexivity.
  - reflexivity.
  - reflexivity.
  - by_compute.
  - by_compute.
Defined.

Lemma extract_depth_nearer_brighter_witness :
  ∃ out img,
    extract_depth
      (depth_files [[gray 1; gray 0; gray 1]]
                   [[gray 1; gray (Qc_of_Z 5); gray (Qc_of_Z 3)]])
      "depth.exr" "alpha.exr" "out" true
    = ([NpSave (npy_path "out") out;
        ImWriteGray (png_path (npy_path "out")) img], Ok tt) ∧
    ∀ i j i' j' al v v',
      px3 [[gray 1; gray 0; gray 1]] i j 0 = Some al →
      px3 [[gray 1; gray 0; gray 1]] i' j' 0 = Some al → 0 ≤ al → al ≤ 1 →
      px3 [[gray 1; gray (Qc_of_Z 5); gray (Qc_of_Z 3)]] i j 0 = Some v →
      px3 [[gray 1; gray (Qc_of_Z 5); gray (Qc_of_Z 3)]] i' j' 0 = Some v' →
      v ≤ v' →
      ∃ b b', px2 img i j = Some (Some b) ∧ px2 img i' j' = Some (Some b') ∧
              (b' ≤ b)%Z.
Proof.
  apply (extract_depth_nearer_brighter _ _ _ _ 1 3
           [[gray 1; gray 0; gray 1]]
           [[gray 1; gray (Qc_of_Z 5); gray (Qc_of_Z 3)]]
           0 0 0 2 0 1 1 (Qc_of_Z 3) (Qc_of_Z 5)).
  - vm_compute; reflexivity.
  - vm_compute; reflexivity.
  - shapes.
  - shapes.
  - apply (channels_same_iff 1 3); [shapes|]. split; by_compute.
  - apply (channels_same_iff 1 3); [shapes|]. split; by_compute.
  - reflexivity.
  - reflexivity.
  - reflexivity.
  - by_compute.
  - by_compute.
Defined.

(** * Further properties of the video assembly *)

Lemma write_frames_config h w vw imgs :
  let vw' := (write_frames h w vw imgs).1 in
  vw_path vw' = vw_path vw ∧ vw_fourcc vw' = vw_fourcc vw ∧
  vw_fps vw' = vw_fps vw ∧ vw_size vw' = vw_size vw.
Proof.
  revert vw. induction imgs as [|f imgs IH]; intros vw; [done|].
  cbn [write_frames]. case_decide; [|done].
  destruct (IH (vw_write vw f)) as (-> & -> & -> & ->). done.
Qed.

Lemma write_frames_ok_iff h w vw imgs :
  (write_frames h w vw imgs).2 = Ok tt
  ↔ Forall (λ f, take 2 (shape f) = [h; w]) imgs.
Proof.
  revert vw. induction imgs as [|f imgs IH]; intros vw.
  - by split.
  - cbn [write_frames]. case_decide as Hf.
    + rewrite IH. split; [by constructor|by intros [_ ?]%Forall_cons].
    + split; [done|by intros [? _]%Forall_cons].
Qed.

Lemma write_frames_outcome h w vw imgs :
  (write_frames h w vw imgs).2 = Ok tt ∨
  (write_frames h w vw imgs).2 = Raise (AssertionError frames_msg).
Proof.
  revert vw. induction imgs as [|f imgs IH]; intros vw; [by left|].
  cbn [write_frames]. case_decide; [apply IH|by right].
Qed.

Lemma take_2_short {A} (l : list A) :
  (length l < 2)%nat ↔ ∀ h w, take 2 l ≠ [h; w].
Proof.
  destruct l as [|a [|b l]]; cbn.
  - split; [done|lia].
  - split; [done|lia].
  - split; [lia|]. intros H. by destruct (H a b).
Qed.

(** X18. How [images2video] ends: with an [IndexError] exactly on the empty
    list, with a [ValueError] exactly when the first frame has fewer than
    two dimensions, and with success exactly when the list is not empty and
    all frames have one height and width. *)
Theorem images2video_outcome (tmp : string) (imgs : list frame) (fps : Z)
    (outpath : option string) :
  ((images2video tmp imgs fps outpath).2 = Raise IndexError ↔ imgs = []) ∧
  ((images2video tmp imgs fps outpath).2 = Raise ValueError
   ↔ ∃ first rest, imgs = first :: rest ∧ (length (shape first) < 2)%nat) ∧
  ((images2video tmp imgs fps outpath).2 = Ok tt
   ↔ imgs ≠ [] ∧ ∃ h w, Forall (λ f, take 2 (shape f) = [h; w]) imgs).
Proof.
  unfold images2video. destruct imgs as [|first rest].
  { split_and!; split; try done.
    - by intros (? & ? & ? & _).
    - by intros [? _]. }
  destruct (take 2 (shape first)) as [|h [|w [|? ?]]] eqn:Hfirst.
  - split_and!; split; try done.
    + intros _. exists first, rest. split; [done|].
      apply take_2_short. intros ??. by rewrite Hfirst.
    + intros [_ (h & w & [Hf _]%Forall_cons)]. by rewrite Hfirst in Hf.
  - split_and!; split; try done.
    + intros _. exists first, rest. split; [done|].
      apply take_2_short. intros ??. by rewrite Hfirst.
    + intros [_ (h' & w & [Hf _]%Forall_cons)]. by rewrite Hfirst in Hf.
  - match goal with |- context [write_frames h w ?v ?l] =>
      pose proof (write_frames_ok_iff h w v l) as Hiff;
      pose proof (write_frames_outcome h w v l) as Hout;
      destruct (write_frames h w v l) as [vw [[]|e]] end; cbn in *.
    + split_and!; split; try done.
      * intros (f & r & [= <- <-] & Hlen).
        by destruct (proj1 (take_2_short _) Hlen h w).
      * intros _. split; [done|]. exists h, w. by apply Hiff.
    + destruct Hout as [|[= ->]]; [done|].
      split_and!; split; try done.
      * intros (f & r & [= <- <-] & Hlen).
        by destruct (proj1 (take_2_short _) Hlen h w).
      * intros [_ (h' & w' & Hall)]. apply Hiff.
        apply Forall_cons in Hall as Hf. destruct Hf as [Hf _].
        rewrite Hfirst in Hf. by injection Hf as <- <-.
  - assert (length (take 2 (shape first)) ≤ 2)%nat as Hlen
      by (rewrite length_take; lia).
    rewrite Hfirst in Hlen. cbn in Hlen. lia.
Qed.

(** X19. A writer is created exactly when the first frame has a height and
    a width; it is then opened on the given path (or on
    [images2video.avi] in the temporary directory), with codec MP42, the
    given frame rate, and the size (width, height) of the first frame. *)
Theorem images2video_writer (tmp : string) (imgs : list frame) (fps : Z)
    (outpath : option string) :
  (∀ first rest h w dims, imgs = first :: rest → shape first = h :: w :: dims →
     ∃ vw, (images2video tmp imgs fps outpath).1 = Some vw) ∧
  (∀ vw, (images2video tmp imgs fps outpath).1 = Some vw →
     ∃ first rest h w dims,
       imgs = first :: rest ∧ shape first = h :: w :: dims ∧
       vw_size vw = (w, h) ∧ vw_fps vw = fps ∧ vw_fourcc vw = "MP42" ∧
       vw_path vw = match outpath with
                    | Some p => p
                    | None => path_join tmp "images2video.avi"
                    end).
Proof.
  unfold images2video. split.
  - intros first rest h w dims -> Hshape. rewrite Hshape. cbn [take].
    destruct (write_frames _ _ _ _) as [vw [[]|e]]; eauto.
  - intros vw. destruct imgs as [|first rest]; [done|].
    destruct (shape first) as [|h [|w dims]] eqn:Hshape; [done..|].
    cbn [take].
    match goal with |- context [write_frames h w ?v ?l] =>
      pose proof (write_frames_config h w v l) as Hconf;
      destruct (write_frames h w v l) as [vw' [[]|e]] end;
      cbn in Hconf; destruct Hconf as (Hp & Hc & Hf & Hs);
      intros [= <-]; exists first, rest, h, w, dims;
      (split_and!; [done|done|done|done|done|]);
      cbn; rewrite ?Hp; by destruct outpath.
Qed.

Lemma images2video_writer_witness :
  ∃ vw, (images2video "/tmp" [Frame [2; 3; 3]%nat []] 24 None).1 = Some vw ∧
        vw_size vw = (3, 2)%nat ∧ vw_path vw = "/tmp/images2video.avi".
Proof.
  destruct (images2video_writer "/tmp" [Frame [2; 3; 3]%nat []] 24 None)
    as [Hnew Hconf].
  destruct (Hnew (Frame [2; 3; 3]%nat []) [] 2%nat 3%nat [3%nat]
              eq_refl eq_refl) as [vw Hvw].
  exists vw. split; [exact Hvw|].
  destruct (Hconf vw Hvw)
    as (f & r & h & w & dims & Himgs & Hshape & Hsize & _ & _ & Hpath).
  injection Himgs as <- <-. injection Hshape as <- <- <-.
  split; [exact Hsize|]. rewrite Hpath. vm_compute. reflexivity.
Defined.

(** * Further properties of the lights *)

(** The common shape of the three helpers under CYCLES: the lamp is added,
    named and sized, its energy is set, and its handle is returned. *)
Lemma add_then_ok (s : scene) (type : string) (loc rot : vec3)
    (name : option string) (resize : lamp → lamp) (energy : Qc) :
  engine s = "CYCLES" →
  (lamp_add type loc rot;;
   obj ← active_object;
   match name with
   | Some n => update obj (set_name n)
   | None => mret tt
   end;;
   update obj resize;;
   set_strength obj energy;;
   mret obj) s
  = (with_lamp s (set_emission energy
                    (resize (new_lamp type loc rot name None None))),
     Ok (length (objects s))).
Proof.
  intros Hengine.
  cbv [mbind bpy_bind lamp_add active_object active set_strength
       render_engine raise mret bpy_ret].
  destruct name as [n|];
    cbv [update objects engine active];
    rewrite bool_decide_eq_true_2 by done;
    rewrite ?alter_last; cbv [update objects engine active];
    rewrite ?alter_last; reflexivity.
Qed.

(** X20. Under CYCLES each of the three helpers returns the handle of the
    lamp it has appended to the scene and made active.  The lamp carries the
    given location, name and energy; the sun takes the size as its shadow
    softness, the area light as its size, and the point light has shadow
    softness 0 and no rotation. *)
Theorem add_light_cycles (s : scene) (xyz rot_vec_rad : vec3)
    (name : option string) (energy size : Qc) :
  engine s = "CYCLES" →
  add_light_sun xyz rot_vec_rad name energy size s
  = (with_lamp s
       {| lamp_type := "SUN"; location := xyz; rotation := rot_vec_rad;
          name := name; shadow_soft_size := Some size; size := None;
          emission := Some energy |},
     Ok (length (objects s))) ∧
  add_light_area xyz rot_vec_rad name energy size s
  = (with_lamp s
       {| lamp_type := "AREA"; location := xyz; rotation := rot_vec_rad;
          name := name; shadow_soft_size := None; size := Some size;
          emission := Some energy |},
     Ok (length (objects s))) ∧
  add_light_point xyz name energy s
  = (with_lamp s
       {| lamp_type := "POINT"; location := xyz; rotation := (0, 0, 0);
          name := name; shadow_soft_size := Some 0; size := None;
          emission := Some energy |},
     Ok (length (objects s))).
Proof.
  intros Hengine. unfold add_light_sun, add_light_area, add_light_point.
  by rewrite !add_then_ok.
Qed.

Lemma add_light_cycles_witness :
  add_light_sun (0, 0, 0) (0, 0, 0) (Some "key") 1 1 (empty_scene "CYCLES")
  = (with_lamp (empty_scene "CYCLES")
       {| lamp_type := "SUN"; location := (0, 0, 0); rotation := (0, 0, 0);
          name := Some "key"; shadow_soft_size := Some 1; size := None;
          emission := Some 1 |},
     Ok (length (objects (empty_scene "CYCLES")))) ∧
  add_light_area (0, 0, 0) (0, 0, 0) (Some "key") 1 1 (empty_scene "CYCLES")
  = (with_lamp (empty_scene "CYCLES")
       {| lamp_type := "AREA"; location := (0, 0, 0); rotation := (0, 0, 0);
          name := Some "key"; shadow_soft_size := None; size := Some 1;
          emission := Some 1 |},
     Ok (length (objects (empty_scene "CYCLES")))) ∧
  add_light_point (0, 0, 0) (Some "key") 1 (empty_scene "CYCLES")
  = (with_lamp (empty_scene "CYCLES")
       {| lamp_type := "POINT"; location := (0, 0, 0); rotation := (0, 0, 0);
          name := Some "key"; shadow_soft_size := Some 0; size := None;
          emission := Some 1 |},
     Ok (length (objects (empty_scene "CYCLES")))).
Proof.
  apply (add_light_cycles (empty_scene "CYCLES")). reflexivity.
Defined.

(** X21. Whatever the engine, a helper never touches the objects already in
    the scene: they keep their places and their fields, one lamp is added
    behind them, and the engine setting is left alone. *)
Theorem add_light_keeps_objects (s : scene) (xyz rot_vec_rad : vec3)
    (name : option string) (energy size : Qc) (s' : scene) :
  s' = (add_light_sun xyz rot_vec_rad name energy size s).1 ∨
  s' = (add_light_area xyz rot_vec_rad name energy size s).1 ∨
  s' = (add_light_point xyz name energy s).1 →
  length (objects s') = S (length (objects s)) ∧
  (∀ i l, objects s !! i = Some l → objects s' !! i = Some l) ∧
  active s' = Some (length (objects s)) ∧
  engine s' = engine s.
Proof.
  unfold add_light_sun, add_light_area, add_light_point.
  destruct (decide (engine s = "CYCLES")) as [Hengine|Hengine].
  - rewrite !add_then_ok by done. intros [ -> | [ -> | -> ] ]; cbn;
      (split_and!; [rewrite length_app; cbn; lia| |done|done]);
      intros i l Hl; by apply lookup_app_l_Some.
  - rewrite !add_then_fail by done. intros [ -> | [ -> | -> ] ]; cbn;
      (split_and!; [rewrite length_app; cbn; lia| |done|done]);
      intros i l Hl; by apply lookup_app_l_Some.
Qed.

Lemma add_light_keeps_objects_witness :
  length (objects (add_light_point (0, 0, 0) None 1
                     (with_lamp (empty_scene "BLENDER_RENDER")
                        (new_lamp "SUN" (0, 0, 0) (0, 0, 0) None None None))).1)
  = 2%nat.
Proof.
  apply (add_light_keeps_objects
           (with_lamp (empty_scene "BLENDER_RENDER")
              (new_lamp "SUN" (0, 0, 0) (0, 0, 0) None None None))
           (0, 0, 0) (0, 0, 0) None 1 1).
  right. right. reflexivity.
Defined.

Lemma bpy_bind_Ok {A B} (m : bpy A) (f : A → bpy B) s s' a :
  m s = (s', Ok a) → (m ≫= f) s = f a s'.
Proof. intros H. unfold mbind, bpy_bind. by rewrite H. Qed.

(** X22. Two helpers in a row under CYCLES: the handles are consecutive
    indices, and after the second call the first lamp still is as the first
    call left it. *)
Theorem add_light_twice (s : scene) (xyz rot_vec_rad xyz' : vec3)
    (name name' : option string) (energy size energy' : Qc) :
  engine s = "CYCLES" →
  (sun ← add_light_sun xyz rot_vec_rad name energy size;
   point ← add_light_point xyz' name' energy';
   mret (sun, point)) s
  = ({| objects :=
          objects s ++
          [ {| lamp_type := "SUN"; location := xyz; rotation := rot_vec_rad;
               name := name; shadow_soft_size := Some size; size := None;
               emission := Some energy |};
            {| lamp_type := "POINT"; location := xyz'; rotation := (0, 0, 0);
               name := name'; shadow_soft_size := Some 0; size := None;
               emission := Some energy' |} ];
        active := Some (S (length (objects s)));
        engine := engine s |},
     Ok (length (objects s), S (length (objects s)))).
Proof.
  intros Hengine.
  erewrite bpy_bind_Ok; [|by apply add_then_ok].
  erewrite bpy_bind_Ok; [|by apply add_then_ok].
  unfold mret, bpy_ret, with_lamp. cbn [objects engine].
  rewrite !length_app, <-(assoc_L app). cbn [length app].
  by rewrite Nat.add_1_r.
Qed.

Lemma add_light_twice_witness :
  (sun ← add_light_sun (0, 0, 0) (0, 0, 0) (Some "key") 1 1;
   point ← add_light_point (1, 1, 1) None 2;
   mret (sun, point)) (empty_scene "CYCLES")
  = ({| objects :=
          [ {| lamp_type := "SUN"; location := (0, 0, 0);
               rotation := (0, 0, 0); name := Some "key";
               shadow_soft_size := Some 1; size := None;
               emission := Some 1 |};
            {| lamp_type := "POINT"; location := (1, 1, 1);
               rotation := (0, 0, 0); name := None;
               shadow_soft_size := Some 0; size := None;
               emission := Some 2 |} ];
        active := Some 1%nat;
        engine := "CYCLES" |},
     Ok (0%nat, 1%nat)).
Proof.
  apply (add_light_twice (empty_scene "CYCLES")). reflexivity.
Defined.

(** * Further properties of the environment light *)

(** X23. [add_light_env] checks before it touches anything: under an engine
    other than CYCLES, and for a tuple whose length is neither 3 nor 4, it
    raises its assertion error without a single host call; the engine is
    checked first. *)
Theorem add_light_env_rejects (s : scene) (env : env_arg) (c : list Qc)
    (strength : Qc) (rot_vec_rad scale : vec3) :
  (engine s ≠ "CYCLES" →
   add_light_env s env strength rot_vec_rad scale
   = ([], Raise (AssertionError "Rendering engine is not Cycles"))) ∧
  (engine s = "CYCLES" → length c ≠ 3%nat → length c ≠ 4%nat →
   add_light_env s (EnvTuple c) strength rot_vec_rad scale
   = ([], Raise (AssertionError "If tuple, env must be of length 3 or 4"))).
Proof.
  unfold add_light_env. split.
  - intros Hengine. by rewrite bool_decide_eq_false_2.
  - intros Hengine H3 H4. rewrite bool_decide_eq_true_2 by done.
    unfold resolve_env. rewrite (bool_decide_eq_false_2 (length c = 3%nat)) by done.
    by rewrite bool_decide_eq_false_2.
Qed.

Lemma add_light_env_rejects_witness :
  add_light_env (empty_scene "BLENDER_RENDER") (EnvTuple [1; 1]) 1
    (0, 0, 0) (1, 1, 1)
  = ([], Raise (AssertionError "Rendering engine is not Cycles")) ∧
  add_light_env (empty_scene "CYCLES") (EnvTuple [1; 1]) 1 (0, 0, 0) (1, 1, 1)
  = ([], Raise (AssertionError "If tuple, env must be of length 3 or 4")).
Proof.
  split.
  - apply (proj1 (add_light_env_rejects (empty_scene "BLENDER_RENDER")
                    (EnvTuple [1; 1]) [] 1 (0, 0, 0) (1, 1, 1))).
    discriminate.
  - apply (proj2 (add_light_env_rejects (empty_scene "CYCLES")
                    (EnvTuple [1; 1]) [1; 1] 1 (0, 0, 0) (1, 1, 1)));
      [reflexivity|discriminate|discriminate].
Defined.

(** X24. For a colour the call does what its warning says: rotation and
    scale have no effect.  An RGB colour acts as the RGBA colour with
    alpha 1, no image is loaded, and only the background node is
    created. *)
Theorem add_light_env_pure_colour (s : scene) (c : list Qc) (strength : Qc)
    (rot_vec_rad scale rot_vec_rad' scale' : vec3) :
  add_light_env s (EnvTuple c) strength rot_vec_rad scale
  = add_light_env s (EnvTuple c) strength rot_vec_rad' scale' ∧
  (length c = 3%nat →
   add_light_env s (EnvTuple c) strength rot_vec_rad scale
   = add_light_env s (EnvTuple (c ++ [1])) strength rot_vec_rad scale) ∧
  (∀ call, call ∈ (add_light_env s (EnvTuple c) strength rot_vec_rad scale).1 →
     (∀ path b, call ≠ ImagesLoad path b) ∧
     (∀ type, call = NodesNew type → type = "ShaderNodeBackground")).
Proof.
  split_and!.
  - unfold add_light_env, resolve_env. case_bool_decide; [|done].
    by destruct (py_assert _ _) as [[]|].
  - intros Hlen. unfold add_light_env, resolve_env.
    rewrite (bool_decide_eq_true_2 (length c = 3%nat)) by done.
    rewrite (bool_decide_eq_false_2 (length (c ++ [1]) = 3%nat)); [done|].
    rewrite length_app. cbn. lia.
  - intros call. unfold add_light_env, resolve_env.
    case_bool_decide; [|by intros ?%elem_of_nil].
    destruct (py_assert _ _) as [[]|]; cbn; [|by intros ?%elem_of_nil].
    intros Hin. elems Hin; split; intros; congruence.
Qed.

Lemma add_light_env_pure_colour_witness :
  add_light_env (empty_scene "CYCLES") (EnvTuple [1; 0; 0]) 1
    (0, 0, 0) (1, 1, 1)
  = add_light_env (empty_scene "CYCLES") (EnvTuple ([1; 0; 0] ++ [1])) 1
      (0, 0, 0) (1, 1, 1).
Proof.
  apply (add_light_env_pure_colour (empty_scene "CYCLES") [1; 0; 0] 1
           (0, 0, 0) (1, 1, 1) (0, 0, 0) (1, 1, 1)).
  reflexivity.
Defined.

Lemma has_slash_app (d f : string) : has_slash (d +:+ "/" +:+ f) = true.
Proof.
  induction d as [|c d IH]; [done|].
  change (has_slash (String c d +:+ "/" +:+ f))
    with (bool_decide (String c EmptyString = "/")
          || has_slash (d +:+ "/" +:+ f)).
  by rewrite IH, orb_true_r.
Qed.

Lemma basename_app (d f : string) :
  has_slash f = false → basename (d +:+ "/" +:+ f) = f.
Proof.
  intros Hf. induction d as [|c d IH].
  - change (basename (EmptyString +:+ "/" +:+ f))
      with (if has_slash f then basename f
            else if bool_decide ("/" = "/" :> string) then f else "/" +:+ f).
    by rewrite Hf.
  - change (basename (String c d +:+ "/" +:+ f))
      with (if has_slash (d +:+ "/" +:+ f) then basename (d +:+ "/" +:+ f)
            else if bool_decide (String c EmptyString = "/")
                 then d +:+ "/" +:+ f else String c (d +:+ "/" +:+ f)).
    by rewrite has_slash_app.
Qed.

(** X25. An image is loaded from its full path, but from then on it is
    referred to by its file name alone: for two files of the same name in
    different directories, every call after the load is the same, and the
    environment node is given the image of that name. *)
Theorem add_light_env_image_by_name (s : scene) (d d' f : string)
    (strength : Qc) (rot_vec_rad scale : vec3) :
  engine s = "CYCLES" → has_slash f = false →
  ∃ rest,
    add_light_env s (EnvStr (d +:+ "/" +:+ f)) strength rot_vec_rad scale
    = (ImagesLoad (d +:+ "/" +:+ f) true :: rest, Ok tt) ∧
    add_light_env s (EnvStr (d' +:+ "/" +:+ f)) strength rot_vec_rad scale
    = (ImagesLoad (d' +:+ "/" +:+ f) true :: rest, Ok tt) ∧
    SetImage env_node f ∈ rest ∧
    ∀ image, SetImage env_node image ∈ rest → image = f.
Proof.
  intros Hengine Hf. unfold add_light_env, resolve_env.
  rewrite bool_decide_eq_true_2 by done. rewrite !basename_app by done.
  eexists. split_and!; [reflexivity|reflexivity|by repeat constructor|].
  intros image Hin.
  repeat (apply elem_of_cons in Hin as [Heq|Hin];
          [try discriminate Heq; by injection Heq|]).
  by apply elem_of_nil in Hin.
Qed.

Lemma add_light_env_image_by_name_witness :
  ∃ rest,
    add_light_env (empty_scene "CYCLES") (EnvStr ("a" +:+ "/" +:+ "sky.hdr"))
      1 (0, 0, 0) (1, 1, 1)
    = (ImagesLoad ("a" +:+ "/" +:+ "sky.hdr") true :: rest, Ok tt) ∧
    add_light_env (empty_scene "CYCLES") (EnvStr ("b" +:+ "/" +:+ "sky.hdr"))
      1 (0, 0, 0) (1, 1, 1)
    = (ImagesLoad ("b" +:+ "/" +:+ "sky.hdr") true :: rest, Ok tt) ∧
    SetImage env_node "sky.hdr" ∈ rest ∧
    ∀ image, SetImage env_node image ∈ rest → image = "sky.hdr".
Proof.
  apply (add_light_env_image_by_name (empty_scene "CYCLES") "a" "b" "sky.hdr").
  - reflexivity.
  - reflexivity.
Defined.

(** * Further properties of the output paths *)

Lemma string_length_app (a b : string) :
  String.length (a +:+ b) = (String.length a + String.length b)%nat.
Proof. induction a as [|c a IH]; simpl; [done|]. by f_equal. Qed.

Lemma substring_all (s : string) : String.substring 0 (String.length s) s = s.
Proof. induction s as [|c s IH]; simpl; [done|]. by f_equal. Qed.

Lemma substring_app_l (a b : string) :
  String.substring 0 (String.length a) (a +:+ b) = a.
Proof.
  induction a as [|c a IH]; simpl.
  - by destruct b.
  - by f_equal.
Qed.

Lemma substring_app_r (a b : string) :
  String.substring (String.length a) (String.length b) (a +:+ b) = b.
Proof. induction a as [|c a IH]; simpl; [apply substring_all|done]. Qed.

Lemma substring_split (s : string) (m : nat) :
  (m ≤ String.length s)%nat →
  String.substring 0 m s +:+ String.substring m (String.length s - m) s = s.
Proof.
  revert m. induction s as [|c s IH]; intros [|m] Hm; simpl in *.
  - done.
  - lia.
  - rewrite substring_all. reflexivity.
  - change (String c (String.substring 0 m s
                       +:+ String.substring m (String.length s - m) s)
            = String c s).
    rewrite IH; [done|lia].
Qed.

Lemma endswith_app (p suffix : string) : endswith (p +:+ suffix) suffix = true.
Proof.
  unfold endswith. rewrite string_length_app.
  rewrite bool_decide_eq_true_2 by lia.
  replace (String.length p + String.length suffix - String.length suffix)%nat
    with (String.length p) by lia.
  rewrite substring_app_r. cbn. apply String.eqb_refl.
Qed.

Lemma endswith_split (s suffix : string) :
  endswith s suffix = true →
  s = drop_last (String.length suffix) s +:+ suffix.
Proof.
  unfold endswith, drop_last.
  intros [Hlen Heq%String.eqb_eq]%andb_true_iff.
  apply bool_decide_eq_true_1 in Hlen.
  pose proof (substring_split s (String.length s - String.length suffix))
    as Hsplit.
  replace (String.length s - (String.length s - String.length suffix))%nat
    with (String.length suffix) in Hsplit by lia.
  rewrite Heq in Hsplit. symmetry. apply Hsplit. lia.
Qed.

(** X26. Where [extract_normal] and [extract_depth] write: the array goes
    to a path ending in [.npy], which is the given path if it ends so
    already and the given path with [.npy] appended otherwise; the image goes
    next to it, under the same name with [.png] in place of [.npy]. *)
Theorem npy_png_paths (outpath : string) :
  ∃ stem,
    npy_path outpath = stem +:+ ".npy" ∧
    png_path (npy_path outpath) = stem +:+ ".png" ∧
    (if endswith outpath ".npy" then outpath = stem +:+ ".npy"
     else outpath = stem) ∧
    npy_path (npy_path outpath) = npy_path outpath.
Proof.
  assert (∀ stem, drop_last 4 (stem +:+ ".npy") = stem) as Hdrop.
  { intros stem. unfold drop_last. rewrite string_length_app. cbn.
    replace (String.length stem + 4 - 4)%nat with (String.length stem) by lia.
    apply substring_app_l. }
  assert (npy_path (npy_path outpath) = npy_path outpath) as Hidem.
  { unfold npy_path. destruct (endswith outpath ".npy") eqn:Hends.
    - by rewrite Hends.
    - by rewrite endswith_app. }
  unfold npy_path in *. destruct (endswith outpath ".npy") eqn:Hends.
  - exists (drop_last 4 outpath).
    pose proof (endswith_split outpath ".npy" Hends) as Hsplit.
    change (String.length ".npy") with 4%nat in Hsplit.
    split; [exact Hsplit|]. split; [reflexivity|].
    split; [exact Hsplit|exact Hidem].
  - exists outpath. split; [reflexivity|].
    split; [unfold png_path; by rewrite Hdrop|].
    split; [reflexivity|exact Hidem].
Qed.

(** * Depth visualization on every valid pair *)




